(** * Memgraph storage v2: tagged back-pointers, deltas, property values,
      replica recovery planning and the replication client state machine.

    The first half of the file embeds the code: every definition names the
    source function it follows.  The second half states and proves the
    properties. *)

From Stdlib Require Import String ZArith List Bool Lia.
From Stdlib Require Import Floats.SpecFloat.
Import ListNotations.
Local Open Scope Z_scope.

(** Unsigned 64-bit arithmetic ([uint64_t], [uintptr_t] on the 64-bit targets
    the code is built for). *)
Definition uint64_modulus : Z := 2 ^ 64.
Definition is_uint64 (x : Z) : Prop := 0 <= x < uint64_modulus.
Definition sub_u64 (a b : Z) : Z := (a - b) mod uint64_modulus.

(** Results of calls that may throw [rpc::RpcFailedException]. *)
Inductive Rpc (A : Type) : Type :=
| RpcOk (a : A)
| RpcFailedException.
Arguments RpcOk {A} a.
Arguments RpcFailedException {A}.

(* ================================================================== *)
(** ** Property values (storage/v2/property_value.hpp is not among the
       sources; tests/unit/property_value_v2.cpp exercises it) *)

Module PropertyValue.

(** [double] as IEEE-754 binary64. *)
Definition double : Type := spec_float.
Definition prec : Z := 53.
Definition emax : Z := 1024.

(** The double denoting [m * 2^e], rounded to nearest even. *)
Definition double_of_dyadic (m e : Z) : double := binary_normalize prec emax m e false.

(** [static_cast<double>(int64_t)]. *)
Definition double_of_int (i : Z) : double := double_of_dyadic i 0.

(** Modelled from the spec: the kinds of a property value, "{null, bool, i64,
    f64, string, list<PropertyValue>, map<string->PropertyValue>,
    temporal{kind, microseconds}}"; the class itself is missing from the
    sources. *)
Inductive Type_ : Set :=
| TNull | TBool | TInt | TDouble | TString | TList | TMap | TTemporalData.

Local Unset Elimination Schemes.

(** Modelled from the spec: the discriminated variant of section 3.  A map is
    kept as the list of its entries in key order, as [std::map] iterates. *)
Inductive t : Type :=
| Null
| Bool (b : bool)
| Int (i : Z)
| Double (d : double)
| String (s : string)
| List (l : list t)
| Map (m : list (string * t))
| TemporalData (kind : Z) (microseconds : Z).

Local Set Elimination Schemes.

(** Modelled from the spec: [type()] of the missing class, the tag of the
    variant. *)
Definition type (v : t) : Type_ :=
  match v with
  | Null => TNull
  | Bool _ => TBool
  | Int _ => TInt
  | Double _ => TDouble
  | String _ => TString
  | List _ => TList
  | Map _ => TMap
  | TemporalData _ _ => TTemporalData
  end.


(** Modelled from the spec: "PropertyValueError::WrongType - typed accessor on
    the wrong kind"; the error type is missing from the sources. *)
Inductive PropertyValueError : Set := WrongType.

Inductive Result (A : Type) : Type :=
| Ok (a : A)
| Err (e : PropertyValueError).
Arguments Ok {A} a.
Arguments Err {A} e.

(** Modelled from the spec: "typed accessors that fail with
    PropertyValueError::WrongType unless the value matches"; the accessors of
    the missing class. *)
Definition ValueBool (v : t) : Result bool :=
  match v with Bool b => Ok b | _ => Err WrongType end.

(** Modelled from the spec: typed accessor of the missing class, see
    [ValueBool]. *)
Definition ValueInt (v : t) : Result Z :=
  match v with Int i => Ok i | _ => Err WrongType end.

(** Modelled from the spec: typed accessor of the missing class, see
    [ValueBool]. *)
Definition ValueDouble (v : t) : Result double :=
  match v with Double d => Ok d | _ => Err WrongType end.

(** Modelled from the spec: typed accessor of the missing class, see
    [ValueBool]. *)
Definition ValueString (v : t) : Result string :=
  match v with String s => Ok s | _ => Err WrongType end.

(** Modelled from the spec: typed accessor of the missing class, see
    [ValueBool]. *)
Definition ValueList (v : t) : Result (list t) :=
  match v with List l => Ok l | _ => Err WrongType end.

(** Modelled from the spec: typed accessor of the missing class, see
    [ValueBool]. *)
Definition ValueMap (v : t) : Result (list (string * t)) :=
  match v with Map m => Ok m | _ => Err WrongType end.


(** Modelled from the spec: "Equality is deep; comparison defined numerically
    across int/double (2 == 2.0)"; [operator==] of the missing class. *)
Fixpoint eqb (a b : t) {struct a} : bool :=
  match a, b with
  | Null, Null => true
  | Bool x, Bool y => Bool.eqb x y
  | Int x, Int y => x =? y
  | Int x, Double y => SFeqb (double_of_int x) y
  | Double x, Int y => SFeqb x (double_of_int y)
  | Double x, Double y => SFeqb x y
  | String x, String y => String.eqb x y
  | List x, List y =>
      (fix all2 (l1 l2 : list t) {struct l1} : bool :=
         match l1, l2 with
         | [], [] => true
         | h1 :: t1, h2 :: t2 => eqb h1 h2 && all2 t1 t2
         | _, _ => false
         end) x y
  | Map x, Map y =>
      (fix all2 (l1 l2 : list (string * t)) {struct l1} : bool :=
         match l1, l2 with
         | [], [] => true
         | (k1, v1) :: t1, (k2, v2) :: t2 =>
             String.eqb k1 k2 && eqb v1 v2 && all2 t1 t2
         | _, _ => false
         end) x y
  | TemporalData k1 us1, TemporalData k2 us2 => (k1 =? k2) && (us1 =? us2)
  | _, _ => false
  end.




(** Modelled from the spec: "Move leaves the source in the null state"; the
    move constructor of the missing class yields the new value and what is
    left in the source. *)
Definition move (v : t) : t * t := (v, Null).

End PropertyValue.

(* ================================================================== *)
(** ** PreviousPtr (storage/v2/delta.hpp) *)

Module PreviousPtr.

Definition kDelta : Z := 1.
Definition kVertex : Z := 2.
Definition kEdge : Z := 3.

Definition kMask : Z := 3.

(** [~kMask] on [uintptr_t]. *)
Definition not_kMask : Z := Z.lnot kMask mod uint64_modulus.

Inductive Type_ : Set := DELTA | VERTEX | EDGE.

(** The three [Set] overloads: [None] is the failed [CHECK] ("Invalid
    pointer!"). *)
Definition Set_Delta (delta : Z) : option Z :=
  let value := delta in
  if Z.land value kMask =? 0 then Some (Z.lor value kDelta) else None.

Definition Set_Vertex (vertex : Z) : option Z :=
  let value := vertex in
  if Z.land value kMask =? 0 then Some (Z.lor value kVertex) else None.

Definition Set_Edge (edge : Z) : option Z :=
  let value := edge in
  if Z.land value kMask =? 0 then Some (Z.lor value kEdge) else None.

(** [None] is [LOG(FATAL) << "Invalid pointer type!"]. *)
Definition GetType (storage_ : Z) : option Type_ :=
  let type := Z.land storage_ kMask in
  if type =? kDelta then Some DELTA
  else if type =? kVertex then Some VERTEX
  else if type =? kEdge then Some EDGE
  else None.

(** The getters: [None] is the failed [CHECK] ("Can't convert pointer to
    ..."). *)
Definition GetDelta (storage_ : Z) : option Z :=
  if Z.land storage_ kMask =? kDelta
  then Some (Z.land storage_ not_kMask) else None.

Definition GetVertex (storage_ : Z) : option Z :=
  if Z.land storage_ kMask =? kVertex
  then Some (Z.land storage_ not_kMask) else None.

Definition GetEdge (storage_ : Z) : option Z :=
  if Z.land storage_ kMask =? kEdge
  then Some (Z.land storage_ not_kMask) else None.

(** A pointer value, and the alignment the comment of the class relies on. *)
Definition is_pointer (p : Z) : Prop := is_uint64 p.
Definition aligned8 (p : Z) : Prop := p mod 8 = 0.

End PreviousPtr.

(* ================================================================== *)
(** ** Delta (storage/v2/delta.hpp) *)

Module Delta.

Inductive Action : Set :=
| DELETE_OBJECT
| RECREATE_OBJECT
| SET_PROPERTY
| ADD_LABEL
| REMOVE_LABEL
| ADD_IN_EDGE
| ADD_OUT_EDGE
| REMOVE_IN_EDGE
| REMOVE_OUT_EDGE.

(** The [PropertyValue] object that lives in the union: constructed in place,
    and gone once its destructor has run. *)
Inductive ValueSlot : Type :=
| Alive (v : PropertyValue.t)
| Destroyed.

(** The anonymous union of the struct: which member was written last. *)
Inductive Union : Type :=
| uninitialized
| label (l : Z)
| property (key : Z) (value : ValueSlot)
| vertex_edge (edge_type vertex edge : Z).

(** [timestamp] and [next] are addresses, [prev] is [PreviousPtr::storage_]. *)
Record Delta : Type := {
  action : Action;
  timestamp : Z;
  command_id : Z;
  prev : Z;
  next : Z;
  payload : Union
}.

Definition with_action (a : Action) (d : Delta) : Delta :=
  {| action := a; timestamp := timestamp d; command_id := command_id d;
     prev := prev d; next := next d; payload := payload d |}.

Definition with_payload (u : Union) (d : Delta) : Delta :=
  {| action := action d; timestamp := timestamp d; command_id := command_id d;
     prev := prev d; next := next d; payload := u |}.

(** The tagged constructors; [prev] and [next] take their default member
    initialisers. *)
Definition new_DeleteObject (timestamp command_id : Z) : Delta :=
  {| action := DELETE_OBJECT; timestamp := timestamp; command_id := command_id;
     prev := 0; next := 0; payload := uninitialized |}.

Definition new_RecreateObject (timestamp command_id : Z) : Delta :=
  {| action := RECREATE_OBJECT; timestamp := timestamp; command_id := command_id;
     prev := 0; next := 0; payload := uninitialized |}.

Definition new_AddLabel (l timestamp command_id : Z) : Delta :=
  {| action := ADD_LABEL; timestamp := timestamp; command_id := command_id;
     prev := 0; next := 0; payload := label l |}.

Definition new_RemoveLabel (l timestamp command_id : Z) : Delta :=
  {| action := REMOVE_LABEL; timestamp := timestamp; command_id := command_id;
     prev := 0; next := 0; payload := label l |}.

Definition new_SetProperty (key : Z) (value : PropertyValue.t)
  (timestamp command_id : Z) : Delta :=
  {| action := SET_PROPERTY; timestamp := timestamp; command_id := command_id;
     prev := 0; next := 0; payload := property key (Alive value) |}.

Definition new_VertexEdge (a : Action) (edge_type vertex edge timestamp command_id : Z)
  : Delta :=
  {| action := a; timestamp := timestamp; command_id := command_id;
     prev := 0; next := 0; payload := vertex_edge edge_type vertex edge |}.

(** [DestroyValue]: only [SET_PROPERTY] runs [property.value.~PropertyValue()].
    [None] is undefined behaviour: the member is not a live property value
    (in particular, it was destroyed before). *)
Definition DestroyValue (d : Delta) : option Delta :=
  match action d with
  | DELETE_OBJECT | RECREATE_OBJECT | ADD_LABEL | REMOVE_LABEL
  | ADD_IN_EDGE | ADD_OUT_EDGE | REMOVE_IN_EDGE | REMOVE_OUT_EDGE => Some d
  | SET_PROPERTY =>
      match payload d with
      | property key (Alive _) => Some (with_payload (property key Destroyed) d)
      | _ => None
      end
  end.

(** [~Delta() { DestroyValue(); }] *)
Definition destructor (d : Delta) : option Delta := DestroyValue d.

(** The member initialisers and the [switch] of [Delta(Delta &&other)]: the
    new delta and [other] once its members were copied or moved from.  [None]
    is a read of a union member that is not the active one. *)
Definition move_members (other : Delta) : option (Delta * Delta) :=
  let this := {| action := action other; timestamp := timestamp other;
                 command_id := command_id other; prev := prev other;
                 next := next other; payload := uninitialized |} in
  match action other with
  | DELETE_OBJECT | RECREATE_OBJECT => Some (this, other)
  | ADD_LABEL | REMOVE_LABEL =>
      match payload other with
      | label l => Some (with_payload (label l) this, other)
      | _ => None
      end
  | SET_PROPERTY =>
      match payload other with
      | property key (Alive value) =>
          let '(moved, source) := PropertyValue.move value in
          Some (with_payload (property key (Alive moved)) this,
                with_payload (property key (Alive source)) other)
      | _ => None
      end
  | ADD_IN_EDGE | ADD_OUT_EDGE | REMOVE_IN_EDGE | REMOVE_OUT_EDGE =>
      match payload other with
      | vertex_edge edge_type vertex edge =>
          Some (with_payload (vertex_edge edge_type vertex edge) this, other)
      | _ => None
      end
  end.

(** [Delta(Delta &&other)]: the new delta and the moved-from [other]. *)
Definition move_constructor (other : Delta) : option (Delta * Delta) :=
  match move_members other with
  | None => None
  | Some (this, other1) =>
      (* reset the action of other *)
      match DestroyValue other1 with
      | None => None
      | Some other2 => Some (this, with_action DELETE_OBJECT other2)
      end
  end.

(** The union member that is active agrees with the action, as every
    constructor leaves it; deltas without a payload may hold anything. *)
Definition well_formed (d : Delta) : bool :=
  match action d, payload d with
  | (DELETE_OBJECT | RECREATE_OBJECT), _ => true
  | (ADD_LABEL | REMOVE_LABEL), label _ => true
  | SET_PROPERTY, property _ (Alive _) => true
  | (ADD_IN_EDGE | ADD_OUT_EDGE | REMOVE_IN_EDGE | REMOVE_OUT_EDGE),
    vertex_edge _ _ _ => true
  | _, _ => false
  end.

End Delta.

(* ================================================================== *)
(** ** Durability files as the replication client sees them
       (storage/v2/durability/durability.hpp is not among the sources; the
       fields are the ones replication_client.cpp reads) *)

Record WalDurabilityInfo : Type := {
  seq_num : Z;
  from_timestamp : Z;
  to_timestamp : Z;
  wal_path : string
}.

Record SnapshotDurabilityInfo : Type := {
  snapshot_path : string;
  start_timestamp : Z
}.

(* ================================================================== *)
(** ** Storage::ReplicationClient
       (storage/v2/replication/replication_client.cpp) *)

Module ReplicationClient.

Inductive ReplicaState : Set := READY | REPLICATING | RECOVERY | INVALID.

Inductive ReplicationMode : Set := SYNC | ASYNC.

Definition ReplicaState_eqb (a b : ReplicaState) : bool :=
  match a, b with
  | READY, READY | REPLICATING, REPLICATING
  | RECOVERY, RECOVERY | INVALID, INVALID => true
  | _, _ => false
  end.

(** The variant [RecoveryStep]. *)
Inductive RecoveryStep : Type :=
| RecoverySnapshot (path : string)
| RecoveryWals (paths : list string)
| RecoveryCurrentWal (current_wal_seq_num : Z)
| RecoveryFinalSnapshot (snapshot_timestamp : Z).

(** *** GetRecoverySteps *)

(** The loop "Find the longest chain of WALs for recovery": [rwals] holds the
    files from [rwal_it] to [rend], newest first.  The result is
    [distance_from_first], taken after the [--rwal_it] when the replica already
    has every commit of the file; [None] when the loop is left without a
    chain. *)
Fixpoint find_wal_chain (replica_commit previous_seq_num : Z)
  (rwals : list WalDurabilityInfo) : option nat :=
  match rwals with
  | [] => None
  | w :: older =>
      if 1 <? sub_u64 previous_seq_num (seq_num w) then None
      else if (from_timestamp w <=? replica_commit) || (seq_num w =? 0) then
        Some (if to_timestamp w <=? replica_commit
              then S (length older) else length older)
      else find_wal_chain replica_commit (seq_num w) older
  end.

(** The first loop of the snapshot branch: the index [wal_it] stops at, where
    [pos] is the index of the head of [wals]; the length of the vector when it
    reaches [end()].  [None] is the failed [CHECK] ("Invalid durability files
    state"). *)
Fixpoint snapshot_wal_start (snapshot_start : Z) (wals : list WalDurabilityInfo)
  (pos : nat) : option nat :=
  match wals with
  | [] => Some pos
  | w :: newer =>
      if snapshot_start <? to_timestamp w then
        if snapshot_start <? from_timestamp w then
          match pos with
          | O => None
          | S before => Some before
          end
        else Some pos
      else snapshot_wal_start snapshot_start newer (S pos)
  end.

Definition current_wal_step (current_wal_seq_num : option Z) : list RecoveryStep :=
  match current_wal_seq_num with
  | Some n => [RecoveryCurrentWal n]
  | None => []
  end.

(** [snapshot_files.back()] once the vector is sorted. *)
Definition latest_of (sorted : list SnapshotDurabilityInfo)
  : option SnapshotDurabilityInfo :=
  match rev sorted with
  | [] => None
  | s :: _ => Some s
  end.

Section GetRecoverySteps.

(** [std::sort] on the snapshot files: the order of
    [SnapshotDurabilityInfo] is declared in durability.hpp. *)
Variable sort_snapshots : list SnapshotDurabilityInfo -> list SnapshotDurabilityInfo.

(** The two early returns share their body: the current WAL when there is one,
    the timestamp of the latest snapshot otherwise. *)
Definition current_wal_or_final_snapshot (current_wal_seq_num : option Z)
  (latest_snapshot : option SnapshotDurabilityInfo)
  : option (list RecoveryStep * list string) :=
  match current_wal_seq_num with
  | Some n => Some ([RecoveryCurrentWal n], [])
  | None =>
      match latest_snapshot with
      | None => None
      | Some s => Some ([RecoveryFinalSnapshot (start_timestamp s)], [snapshot_path s])
      end
  end.

(** [GetRecoverySteps]: [wal_file_] is the sequence number of the WAL being
    written, if any; [wal_files] and [snapshot_files] are what
    [durability::GetWalFiles] and [durability::GetSnapshotFiles] return.  The
    result is the list of steps with the files handed to the file locker, in
    the order of the [AddFile] calls; [None] is a failed [CHECK] (or the
    decrement of [rwal_it] past the newest file). *)
Definition GetRecoverySteps (replica_commit : Z) (wal_file_ : option Z)
  (wal_files : option (list WalDurabilityInfo))
  (snapshot_files : list SnapshotDurabilityInfo)
  : option (list RecoveryStep * list string) :=
  let current_wal_seq_num := wal_file_ in
  match wal_files with
  | None => None
  | Some wal_files =>
      let latest_snapshot := latest_of (sort_snapshots snapshot_files) in
      match rev wal_files with
      | [] => current_wal_or_final_snapshot current_wal_seq_num latest_snapshot
      | (newest :: _) as rwals =>
          if to_timestamp newest <=? replica_commit then
            current_wal_or_final_snapshot current_wal_seq_num latest_snapshot
          else
            match find_wal_chain replica_commit (seq_num newest) rwals with
            | Some distance_from_first =>
                if (length wal_files <=? distance_from_first)%nat then None
                else
                  let wal_chain := map wal_path (skipn distance_from_first wal_files) in
                  Some (RecoveryWals wal_chain :: current_wal_step current_wal_seq_num,
                        wal_chain)
            | None =>
                match latest_snapshot with
                | None => None
                | Some latest_snapshot =>
                    match snapshot_wal_start (start_timestamp latest_snapshot)
                            wal_files 0 with
                    | None => None
                    | Some wal_it =>
                        let recovery_wal_files :=
                          match map wal_path (skipn wal_it wal_files) with
                          | [] => [wal_path newest]
                          | files => files
                          end in
                        Some (RecoverySnapshot (snapshot_path latest_snapshot)
                                :: RecoveryWals recovery_wal_files
                                :: current_wal_step current_wal_seq_num,
                              snapshot_path latest_snapshot :: recovery_wal_files)
                    end
                end
            end
      end
  end.

End GetRecoverySteps.

(** *** The vocabulary of the recovery plan *)

(** Two WAL files that follow each other are sequential when their sequence
    numbers are equal or differ by one ("not 0 or 1 ... a missing WAL"). *)
Definition sequential (older newer : WalDurabilityInfo) : bool :=
  sub_u64 (seq_num newer) (seq_num older) <=? 1.

(** The files before [newer], newest first, as long as each is sequential with
    the one after it. *)
Fixpoint chain_before (newer : WalDurabilityInfo) (rwals : list WalDurabilityInfo)
  : list WalDurabilityInfo :=
  match rwals with
  | [] => []
  | w :: older => if sequential w newer then w :: chain_before w older else []
  end.

(** The longest chain of sequential WAL files that ends at the newest one,
    oldest first. *)
Definition longest_chain (wal_files : list WalDurabilityInfo)
  : list WalDurabilityInfo :=
  match rev wal_files with
  | [] => []
  | newest :: older => rev (newest :: chain_before newest older)
  end.

(** Every file of the list, oldest first, is sequential with the next one. *)
Fixpoint all_sequential (wals : list WalDurabilityInfo) : bool :=
  match wals with
  | older :: ((newer :: _) as rest) => sequential older newer && all_sequential rest
  | _ => true
  end.

(** A WAL file reaches back to the commit of the replica when it starts at or
    before it, or when it is the very first WAL. *)
Definition reaches (replica_commit : Z) (w : WalDurabilityInfo) : bool :=
  (from_timestamp w <=? replica_commit) || (seq_num w =? 0).


(** *** The client object *)

Record HeartbeatRes : Type := {
  hb_epoch_id : string;
  hb_current_commit_timestamp : Z
}.

Record AppendDeltasRes : Type := {
  success : bool;
  current_commit_timestamp : Z
}.

(** What the client reads of [storage_] outside of the durability files. *)
Record Storage : Type := {
  epoch_id_ : string;
  epoch_history_ : list (string * Z);
  last_commit_timestamp_ : Z
}.

Record ReplicaStream : Type := {
  previous_commit_timestamp : Z;
  current_seq_num : Z
}.

Record TimeoutDispatcher : Type := {
  active : bool;
  finished : bool
}.

(** The closures handed to [thread_pool_.AddTask].  [TaskRecoverReplica] is
    the closure of [InitializeClient], which captures the commit timestamp by
    value (capture list [=, this]); [TaskRecoverReplicaOfResponse] is the
    closure of [FinalizeTransactionReplicationInternal], which captures its
    local [response] by reference (capture list [&, this]) and holds no value
    of its own. *)
Inductive Task : Type :=
| TaskReconnect
| TaskRecoverReplica (replica_commit : Z)
| TaskRecoverReplicaOfResponse
| TaskFinalize
| TaskFinalizeAndNotify
| TaskResetTimeoutDispatcher.

Record Client : Type := {
  name_ : string;
  replica_state_ : ReplicaState;
  mode_ : ReplicationMode;
  timeout_ : option PropertyValue.double;
  timeout_dispatcher_ : option TimeoutDispatcher;
  replica_stream_ : option ReplicaStream;
  thread_pool_ : list Task
}.

Definition store_replica_state (s : ReplicaState) (c : Client) : Client :=
  {| name_ := name_ c; replica_state_ := s; mode_ := mode_ c;
     timeout_ := timeout_ c; timeout_dispatcher_ := timeout_dispatcher_ c;
     replica_stream_ := replica_stream_ c; thread_pool_ := thread_pool_ c |}.

Definition set_mode_and_timeout (m : ReplicationMode)
  (t : option PropertyValue.double) (c : Client) : Client :=
  {| name_ := name_ c; replica_state_ := replica_state_ c; mode_ := m;
     timeout_ := t; timeout_dispatcher_ := timeout_dispatcher_ c;
     replica_stream_ := replica_stream_ c; thread_pool_ := thread_pool_ c |}.

Definition set_timeout_dispatcher (d : option TimeoutDispatcher) (c : Client)
  : Client :=
  {| name_ := name_ c; replica_state_ := replica_state_ c; mode_ := mode_ c;
     timeout_ := timeout_ c; timeout_dispatcher_ := d;
     replica_stream_ := replica_stream_ c; thread_pool_ := thread_pool_ c |}.

Definition set_replica_stream (r : option ReplicaStream) (c : Client) : Client :=
  {| name_ := name_ c; replica_state_ := replica_state_ c; mode_ := mode_ c;
     timeout_ := timeout_ c; timeout_dispatcher_ := timeout_dispatcher_ c;
     replica_stream_ := r; thread_pool_ := thread_pool_ c |}.

Definition set_thread_pool (q : list Task) (c : Client) : Client :=
  {| name_ := name_ c; replica_state_ := replica_state_ c; mode_ := mode_ c;
     timeout_ := timeout_ c; timeout_dispatcher_ := timeout_dispatcher_ c;
     replica_stream_ := replica_stream_ c; thread_pool_ := q |}.

(** [thread_pool_.AddTask] *)
Definition AddTask (t : Task) (c : Client) : Client :=
  set_thread_pool (thread_pool_ c ++ [t]) c.

(** [HandleRpcFailure]: queues the reconnect, [rpc_client_->Abort()] followed
    by [TryInitializeClient()]. *)
Definition HandleRpcFailure (c : Client) : Client := AddTask TaskReconnect c.

Section Initialize.

(** [kTimestampInitialId] is declared in storage/v2/transaction.hpp, which
    is not among the sources. *)
Variable kTimestampInitialId : Z.

(** The [std::find_if] over [crbegin .. crend]: the most recent entry of the
    epoch history with the given epoch id. *)
Definition find_epoch (epoch_history : list (string * Z)) (epoch_id : string)
  : option (string * Z) :=
  find (fun epoch_info => String.eqb (fst epoch_info) epoch_id) (rev epoch_history).

(** The [branching_point] that [InitializeClient] computes from the response
    of the heartbeat. *)
Definition branching_point (storage_ : Storage) (response : HeartbeatRes)
  : option Z :=
  if negb (String.eqb (hb_epoch_id response) (epoch_id_ storage_))
     && negb (hb_current_commit_timestamp response =? kTimestampInitialId)
  then
    match find_epoch (epoch_history_ storage_) (hb_epoch_id response) with
    | None => Some 0
    | Some epoch_info =>
        if negb (snd epoch_info =? hb_current_commit_timestamp response)
        then Some (snd epoch_info)
        else None
    end
  else None.

(** [InitializeClient]: [heartbeat] is the outcome of the [HeartbeatRpc]
    stream; the exception propagates to the caller. *)
Definition InitializeClient (storage_ : Storage) (heartbeat : Rpc HeartbeatRes)
  (c : Client) : Rpc Client :=
  match heartbeat with
  | RpcFailedException => RpcFailedException
  | RpcOk response =>
      match branching_point storage_ response with
      | Some _ => RpcOk c
      | None =>
          let current_commit_timestamp := hb_current_commit_timestamp response in
          if current_commit_timestamp =? last_commit_timestamp_ storage_
          then RpcOk (store_replica_state READY c)
          else RpcOk (AddTask (TaskRecoverReplica current_commit_timestamp)
                        (store_replica_state RECOVERY c))
      end
  end.

(** [TryInitializeClient] *)
Definition TryInitializeClient (storage_ : Storage) (heartbeat : Rpc HeartbeatRes)
  (c : Client) : Client :=
  match InitializeClient storage_ heartbeat c with
  | RpcOk c' => c'
  | RpcFailedException => store_replica_state INVALID c
  end.

End Initialize.

(** [StartTransactionReplication]: [stream] is the outcome of constructing the
    [ReplicaStream] (it opens the [AppendDeltasRpc] stream).  [None] is the
    failed [CHECK(!replica_stream_)]. *)
Definition StartTransactionReplication (storage_ : Storage)
  (current_wal_seq_num : Z) (stream : Rpc unit) (c : Client) : option Client :=
  let status := replica_state_ c in
  match status with
  | RECOVERY => Some c
  | REPLICATING => Some (store_replica_state RECOVERY c)
  | INVALID => Some (HandleRpcFailure c)
  | READY =>
      match replica_stream_ c with
      | Some _ => None
      | None =>
          match stream with
          | RpcOk _ =>
              Some (store_replica_state REPLICATING
                      (set_replica_stream
                         (Some {| previous_commit_timestamp := last_commit_timestamp_ storage_;
                                  current_seq_num := current_wal_seq_num |}) c))
          | RpcFailedException =>
              Some (HandleRpcFailure (store_replica_state INVALID c))
          end
      end
  end.

(** [IfStreamingTransaction]: [callback] is the outcome of the callback on the
    stream. *)
Definition IfStreamingTransaction (callback : Rpc unit) (c : Client) : Client :=
  if negb (ReplicaState_eqb (replica_state_ c) REPLICATING) then c
  else
    match callback with
    | RpcOk _ => c
    | RpcFailedException => HandleRpcFailure (store_replica_state INVALID c)
    end.

(** [FinalizeTransactionReplicationInternal]: [finalize] is the outcome of
    [replica_stream_->Finalize()].  [None] is the failed
    [CHECK(replica_stream_)].  The queued recovery refers to the local
    [response] and reads its commit timestamp only when the task runs. *)
Definition FinalizeTransactionReplicationInternal (finalize : Rpc AppendDeltasRes)
  (c : Client) : option Client :=
  match replica_stream_ c with
  | None => None
  | Some _ =>
      match finalize with
      | RpcOk response =>
          let c := set_replica_stream None c in
          if negb (success response)
             || ReplicaState_eqb (replica_state_ c) RECOVERY
          then Some (AddTask TaskRecoverReplicaOfResponse
                       (store_replica_state RECOVERY c))
          else Some (store_replica_state READY c)
      | RpcFailedException =>
          Some (HandleRpcFailure
                  (store_replica_state INVALID (set_replica_stream None c)))
      end
  end.

(** [TimeoutDispatcher::WaitForTaskToFinish] returns once the previous timeout
    task has run to its end, which sets both flags. *)
Definition WaitForTaskToFinish (d : TimeoutDispatcher) : TimeoutDispatcher :=
  if finished d then d else {| active := false; finished := true |}.

(** [TimeoutDispatcher::StartTimeoutTask]: the queued task starts by resetting
    [finished] ... *)
Definition StartTimeoutTask (d : TimeoutDispatcher) : TimeoutDispatcher :=
  {| active := active d; finished := false |}.

(** ... and ends, once [active] was reset or the time is up, by setting both
    flags and notifying the main thread. *)
Definition timeout_task_end (d : TimeoutDispatcher) : TimeoutDispatcher :=
  {| active := false; finished := true |}.

(** [FinalizeTransactionReplication] up to the point where it returns or, in
    the branch of a SYNC replica with a timeout, blocks on [main_cv] until
    [active] is reset: [finalize] is the outcome of the inline
    [FinalizeTransactionReplicationInternal] of the last branch.  [None] is a
    failed [CHECK]. *)
Definition FinalizeTransactionReplication (finalize : Rpc AppendDeltasRes)
  (c : Client) : option Client :=
  if negb (ReplicaState_eqb (replica_state_ c) REPLICATING) then Some c
  else
    match mode_ c with
    | ASYNC => Some (AddTask TaskFinalize c)
    | SYNC =>
        match timeout_ c with
        | Some _ =>
            match timeout_dispatcher_ c with
            | None => None
            | Some d =>
                let d := WaitForTaskToFinish d in
                let d := {| active := true; finished := finished d |} in
                let c := AddTask TaskFinalizeAndNotify c in
                Some (set_timeout_dispatcher (Some (StartTimeoutTask d)) c)
            end
        | None => FinalizeTransactionReplicationInternal finalize c
        end
    end.

(** The rest of the branch of a SYNC replica with a timeout, from the moment
    the main thread is woken: the fallback to ASYNC. *)
Definition FinalizeTransactionReplication_woken (c : Client) : Client :=
  if ReplicaState_eqb (replica_state_ c) REPLICATING then
    AddTask TaskResetTimeoutDispatcher (set_mode_and_timeout ASYNC None c)
  else c.

(** *** RecoverReplica *)

(** What the visitor of [RecoverReplica] meets on one step: the current WAL
    of the storage at that moment, whether the stream of the current WAL can
    be opened and its file read, and the outcome of the RPC (success flag and
    commit timestamp of the replica). *)
Record StepInput : Type := {
  step_wal_file : option Z;
  step_current_wal_stream : Rpc unit;
  step_current_wal_opens : bool;
  step_reply : Rpc (bool * Z)
}.

(** What one pass of the loop of [RecoverReplica] meets: the durability files
    and the current WAL when the steps are computed, the input of each step,
    and the last commit timestamp of the main instance at the end of the
    pass. *)
Record RecoveryPass : Type := {
  pass_wal_file : option Z;
  pass_wal_files : option (list WalDurabilityInfo);
  pass_snapshot_files : list SnapshotDurabilityInfo;
  pass_steps : nat -> StepInput;
  pass_last_commit_timestamp : Z
}.

(** The visitor of [RecoverReplica] on one step, with its [catch].  [None] is
    a failed [CHECK]: [TransferWalFiles] on an empty list, or the file of the
    current WAL that cannot be opened in [ReplicateCurrentWal]. *)
Definition recovery_step (input : StepInput) (step : RecoveryStep)
  (state : Z * Client) : option (Z * Client) :=
  let '(replica_commit, c) := state in
  let failed := (replica_commit, HandleRpcFailure (store_replica_state INVALID c)) in
  match step with
  | RecoverySnapshot _ =>
      match step_reply input with
      | RpcOk (_, ts) => Some (ts, c)
      | RpcFailedException => Some failed
      end
  | RecoveryWals paths =>
      match paths with
      | [] => None
      | _ :: _ =>
          match step_reply input with
          | RpcOk (_, ts) => Some (ts, c)
          | RpcFailedException => Some failed
          end
      end
  | RecoveryCurrentWal current_wal_seq_num =>
      match step_wal_file input with
      | Some n =>
          if n =? current_wal_seq_num then
            match step_current_wal_stream input with
            | RpcFailedException => Some failed
            | RpcOk _ =>
                if step_current_wal_opens input then
                  match step_reply input with
                  | RpcOk (_, ts) => Some (ts, c)
                  | RpcFailedException => Some failed
                  end
                else None
            end
          else Some state
      | None => Some state
      end
  | RecoveryFinalSnapshot _ =>
      match step_reply input with
      | RpcOk (ok, ts) => Some (if ok then ts else replica_commit, c)
      | RpcFailedException => Some failed
      end
  end.

Fixpoint recovery_steps (inputs : nat -> StepInput) (i : nat)
  (steps : list RecoveryStep) (state : Z * Client) : option (Z * Client) :=
  match steps with
  | [] => Some state
  | step :: rest =>
      match recovery_step (inputs i) step state with
      | None => None
      | Some state' => recovery_steps inputs (S i) rest state'
      end
  end.

Section RecoverReplica.

Variable sort_snapshots : list SnapshotDurabilityInfo -> list SnapshotDurabilityInfo.

(** One pass of the [while (true)] of [RecoverReplica]: the client and, when
    the loop goes on, the commit timestamp it goes on with. *)
Definition RecoverReplica_pass (pass : RecoveryPass) (replica_commit : Z)
  (c : Client) : option (Client * option Z) :=
  match GetRecoverySteps sort_snapshots replica_commit (pass_wal_file pass)
          (pass_wal_files pass) (pass_snapshot_files pass) with
  | None => None
  | Some (steps, _) =>
      match recovery_steps (pass_steps pass) 0 steps (replica_commit, c) with
      | None => None
      | Some (replica_commit, c) =>
          if pass_last_commit_timestamp pass =? replica_commit
          then Some (store_replica_state READY c, None)
          else Some (c, Some replica_commit)
      end
  end.

(** [RecoverReplica] over the passes the environment provides: [None] when a
    [CHECK] fails, otherwise the client and whether the loop has returned. *)
Fixpoint RecoverReplica (passes : list RecoveryPass) (replica_commit : Z)
  (c : Client) : option (Client * option Z) :=
  match passes with
  | [] => Some (c, Some replica_commit)
  | pass :: rest =>
      match RecoverReplica_pass pass replica_commit c with
      | None => None
      | Some (c', None) => Some (c', None)
      | Some (c', Some replica_commit') => RecoverReplica rest replica_commit' c'
      end
  end.

End RecoverReplica.

(** *** The life of a client *)

(** What a task of the thread pool meets when it runs.  [in_response_commit]
    is what the recovery queued by [FinalizeTransactionReplicationInternal]
    reads through its reference to [response]: the block that declared
    [response] has been left by then (unless the task overtakes the thread
    that queued it), so the read is undefined behaviour; [None] when the task
    dies on it, the value found otherwise. *)
Record TaskInput : Type := {
  in_storage : Storage;
  in_heartbeat : Rpc HeartbeatRes;
  in_finalize : Rpc AppendDeltasRes;
  in_response_commit : option Z;
  in_passes : list RecoveryPass
}.

Section Life.

Variable kTimestampInitialId : Z.
Variable sort_snapshots : list SnapshotDurabilityInfo -> list SnapshotDurabilityInfo.

(** The body of a queued closure.  A recovery that has not returned after the
    passes given stays in the pool. *)
Definition run_task (input : TaskInput) (t : Task) (c : Client) : option Client :=
  match t with
  | TaskReconnect =>
      Some (TryInitializeClient kTimestampInitialId (in_storage input)
              (in_heartbeat input) c)
  | TaskRecoverReplica replica_commit =>
      match RecoverReplica sort_snapshots (in_passes input) replica_commit c with
      | None => None
      | Some (c', None) => Some c'
      | Some (c', Some replica_commit') =>
          Some (set_thread_pool (TaskRecoverReplica replica_commit' :: thread_pool_ c') c')
      end
  | TaskRecoverReplicaOfResponse =>
      match in_response_commit input with
      | None => None
      | Some replica_commit =>
          match RecoverReplica sort_snapshots (in_passes input) replica_commit c with
          | None => None
          | Some (c', None) => Some c'
          | Some (c', Some replica_commit') =>
              Some (set_thread_pool
                      (TaskRecoverReplica replica_commit' :: thread_pool_ c') c')
          end
      end
  | TaskFinalize => FinalizeTransactionReplicationInternal (in_finalize input) c
  | TaskFinalizeAndNotify =>
      match FinalizeTransactionReplicationInternal (in_finalize input) c with
      | None => None
      | Some c' =>
          match timeout_dispatcher_ c' with
          | None => None
          | Some d =>
              Some (set_timeout_dispatcher
                      (Some {| active := false; finished := finished d |}) c')
          end
      end
  | TaskResetTimeoutDispatcher => Some (set_timeout_dispatcher None c)
  end.

(** One atomic move of the client: a call of the main thread, the main thread
    waking up in [FinalizeTransactionReplication], a queued task run by the
    pool (whichever is taken, so that every scheduling is covered), or the
    timeout task coming to its end. *)
Inductive step : Client -> Client -> Prop :=
| step_StartTransactionReplication storage_ seq stream c c' :
    StartTransactionReplication storage_ seq stream c = Some c' ->
    step c c'
| step_IfStreamingTransaction callback c :
    step c (IfStreamingTransaction callback c)
| step_FinalizeTransactionReplication finalize c c' :
    FinalizeTransactionReplication finalize c = Some c' ->
    step c c'
| step_woken c :
    step c (FinalizeTransactionReplication_woken c)
| step_task input t before after c c' :
    thread_pool_ c = before ++ t :: after ->
    run_task input t (set_thread_pool (before ++ after) c) = Some c' ->
    step c c'
| step_timeout d c :
    timeout_dispatcher_ c = Some d ->
    step c (set_timeout_dispatcher (Some (timeout_task_end d)) c).

(** The states a client can be in later in its life. *)
Inductive reachable (c : Client) : Client -> Prop :=
| reachable_refl : reachable c c
| reachable_step c1 c2 : reachable c c1 -> step c1 c2 -> reachable c c2.

End Life.

End ReplicationClient.

(* ================================================================== *)
(** ** The data of the unit tests (tests/unit/property_value_v2.cpp) *)

Module PropertyValueTest.


Definition map : list (string * PropertyValue.t) :=
  [("nandare"%string, PropertyValue.Bool false)].




End PropertyValueTest.

(* ================================================================== *)
(** ** A main instance and a replica client, for the concrete cases *)

Module Scenario.

Import ReplicationClient.

Definition main_storage : Storage :=
  {| epoch_id_ := "epoch-b";
     epoch_history_ := [("epoch-a"%string, 10)];
     last_commit_timestamp_ := 42 |}.

(** A SYNC replica without a timeout, in the given state, with nothing queued
    and no open stream. *)
Definition replica (state : ReplicaState) : Client :=
  {| name_ := "replica1";
     replica_state_ := state;
     mode_ := SYNC;
     timeout_ := None;
     timeout_dispatcher_ := None;
     replica_stream_ := None;
     thread_pool_ := [] |}.

(** A SYNC replica with a timeout of 0.2 s, in the middle of a transaction. *)
Definition replicating_with_timeout : Client :=
  {| name_ := "replica1";
     replica_state_ := REPLICATING;
     mode_ := SYNC;
     timeout_ := Some (PropertyValue.double_of_dyadic 3602879701896397 (-54));
     timeout_dispatcher_ := Some {| active := false; finished := true |};
     replica_stream_ := Some {| previous_commit_timestamp := 41; current_seq_num := 7 |};
     thread_pool_ := [] |}.

(** A heartbeat answer from a replica that never committed and reports an
    epoch the main instance has never seen. *)
Definition fresh_foreign_replica (kTimestampInitialId : Z) : HeartbeatRes :=
  {| hb_epoch_id := "epoch-x"; hb_current_commit_timestamp := kTimestampInitialId |}.

(** Finalized WAL files named by sequence number and timestamp range. *)
Definition wal (seq from to : Z) (path : string) : WalDurabilityInfo :=
  {| seq_num := seq; from_timestamp := from; to_timestamp := to; wal_path := path |}.

Definition snapshot (path : string) (start : Z) : SnapshotDurabilityInfo :=
  {| snapshot_path := path; start_timestamp := start |}.

(** "main has WAL seq [4,5,6,7] with from_ts = [t4,t5,t6,t7]", with
    [t_i = 10 i] and every file ending just before the next one starts. *)
Definition wals_4_to_7 : list WalDurabilityInfo :=
  [wal 4 40 49 "wal4"; wal 5 50 59 "wal5"; wal 6 60 69 "wal6"; wal 7 70 79 "wal7"].

(** "latest snapshot at t5, WALs [6,7]": WAL 6 is the file that was being
    written when the snapshot was taken. *)
Definition wals_6_7 : list WalDurabilityInfo :=
  [wal 6 50 69 "wal6"; wal 7 70 79 "wal7"].

Definition snapshot_at_t5 : SnapshotDurabilityInfo := snapshot "snapshot5" 50.

(** A snapshot taken at the last timestamp of WAL 5, followed by two files. *)
Definition wals_5_6_7 : list WalDurabilityInfo :=
  [wal 5 40 50 "wal5"; wal 6 60 69 "wal6"; wal 7 70 79 "wal7"].

(** The snapshot a main instance has just recovered from, taken at the last
    timestamp of WAL 7. *)
Definition snapshot_at_end_of_wal7 : SnapshotDurabilityInfo := snapshot "snapshot7" 79.

(** The snapshots of the directory are kept in the order they are listed. *)
Definition as_listed (l : list SnapshotDurabilityInfo) : list SnapshotDurabilityInfo := l.

End Scenario.

(* ================================================================== *)
(** ** What the client relies on between two calls *)

(** [IfStreamingTransaction] dereferences [replica_stream_] and the inline
    [FinalizeTransactionReplicationInternal] checks it, both only in
    [REPLICATING]. *)
Definition stream_open_while_replicating (c : ReplicationClient.Client) : Prop :=
  ReplicationClient.replica_state_ c = ReplicationClient.REPLICATING ->
  ReplicationClient.replica_stream_ c <> None.

(** [FinalizeTransactionReplication] checks [timeout_dispatcher_] when
    [timeout_] is set; the only task that resets the dispatcher is queued
    together with the reset of [timeout_]. *)
Definition timeout_has_dispatcher (c : ReplicationClient.Client) : Prop :=
  ReplicationClient.timeout_ c <> None ->
  ReplicationClient.timeout_dispatcher_ c <> None
  /\ ~ In ReplicationClient.TaskResetTimeoutDispatcher (ReplicationClient.thread_pool_ c).

Definition client_invariant (c : ReplicationClient.Client) : Prop :=
  stream_open_while_replicating c /\ timeout_has_dispatcher c.

(** What [RecoverReplica] leaves alone: everything but [replica_state_], and
    the thread pool up to the reconnects it queues. *)
Definition recovery_frame (c c' : ReplicationClient.Client) : Prop :=
  ReplicationClient.name_ c' = ReplicationClient.name_ c
  /\ ReplicationClient.mode_ c' = ReplicationClient.mode_ c
  /\ ReplicationClient.timeout_ c' = ReplicationClient.timeout_ c
  /\ ReplicationClient.timeout_dispatcher_ c' = ReplicationClient.timeout_dispatcher_ c
  /\ ReplicationClient.replica_stream_ c' = ReplicationClient.replica_stream_ c
  /\ exists reconnects,
       ReplicationClient.thread_pool_ c'
       = ReplicationClient.thread_pool_ c
         ++ repeat ReplicationClient.TaskReconnect reconnects.

(* ================================================================== *)
(** ** The constructor of the client *)

Section Constructor.

Import ReplicationClient.

Variable kTimestampInitialId : Z.

(** The default member initializers of [replica_state_] and of the flags of
    [TimeoutDispatcher] are in replication_client.hpp, which is not among the
    sources. *)
Variable default_replica_state : ReplicaState.
Variable default_dispatcher : TimeoutDispatcher.

(** The members before the body of the constructor runs: [name_] and [mode_]
    from the arguments, the optionals empty, no task in the pool. *)
Definition constructed_members (name : string) (mode : ReplicationMode) : Client :=
  {| name_ := name;
     replica_state_ := default_replica_state;
     mode_ := mode;
     timeout_ := None;
     timeout_dispatcher_ := None;
     replica_stream_ := None;
     thread_pool_ := [] |}.

(** The last statement of the constructor: the timeout of the configuration
    is taken only if the state is not [INVALID]. *)
Definition emplace_timeout (config_timeout : option PropertyValue.double)
  (c : Client) : Client :=
  match config_timeout with
  | Some t =>
      if negb (ReplicaState_eqb (replica_state_ c) INVALID) then
        set_timeout_dispatcher (Some default_dispatcher)
          (set_mode_and_timeout (mode_ c) (Some t) c)
      else c
  | None => c
  end.

(** [ReplicationClient::ReplicationClient]: [heartbeat] is the outcome of the
    heartbeat of [TryInitializeClient]; a recovery it queues is taken to
    start once the constructor has returned. *)
Definition new_ReplicationClient (name : string) (storage_ : Storage)
  (mode : ReplicationMode) (config_timeout : option PropertyValue.double)
  (heartbeat : Rpc HeartbeatRes) : Client :=
  emplace_timeout config_timeout
    (TryInitializeClient kTimestampInitialId storage_ heartbeat
       (constructed_members name mode)).

End Constructor.

(* ================================================================== *)
(** ** Passes of a recovery *)

Module RecoveryScenario.

Import ReplicationClient.

(** The replica cannot be reached: every RPC throws. *)
Definition no_answer : StepInput :=
  {| step_wal_file := None;
     step_current_wal_stream := RpcFailedException;
     step_current_wal_opens := true;
     step_reply := RpcFailedException |}.

(** The main instance at 85 with the WAL files 4 to 7, and a replica that
    cannot be reached. *)
Definition unreachable_pass : RecoveryPass :=
  {| pass_wal_file := None;
     pass_wal_files := Some Scenario.wals_4_to_7;
     pass_snapshot_files := [];
     pass_steps := fun _ => no_answer;
     pass_last_commit_timestamp := 85 |}.

(** The main instance at 79 with the WAL files 4 to 7 and an empty WAL 8
    being written: the replica takes the finalized files and answers with
    79, then the stream of the current WAL cannot be opened. *)
Definition current_wal_fails : RecoveryPass :=
  {| pass_wal_file := Some 8;
     pass_wal_files := Some Scenario.wals_4_to_7;
     pass_snapshot_files := [];
     pass_steps := fun i =>
       match i with
       | O => {| step_wal_file := Some 8;
                 step_current_wal_stream := RpcOk tt;
                 step_current_wal_opens := true;
                 step_reply := RpcOk (true, 79) |}
       | S _ => {| step_wal_file := Some 8;
                   step_current_wal_stream := RpcFailedException;
                   step_current_wal_opens := true;
                   step_reply := RpcFailedException |}
       end;
     pass_last_commit_timestamp := 79 |}.

End RecoveryScenario.

(* ================================================================== *)
(** ** Numeric values and the order of the kinds *)

Module PropertyValueOrder.

Import PropertyValue.



(** The numbers that are compared without rounding: a double that is a
    binary64 value, an integer that a double holds exactly. *)
Definition exact (v : t) : bool :=
  match v with
  | Int i => (- 2 ^ 53 <? i) && (i <? 2 ^ 53)
  | Double d => valid_binary prec emax d
  | _ => false
  end.

End PropertyValueOrder.

(* ================================================================== *)
(** * Properties *)

(** ** PreviousPtr: the tag round trip *)

Lemma kMask_bits (n : Z) : 0 <= n -> Z.testbit PreviousPtr.kMask n = (n <? 2).
Proof.
  intros Hn. unfold PreviousPtr.kMask. change 3 with (Z.ones 2).
  destruct (Z.ltb_spec n 2).
  - apply Z.ones_spec_low. lia.
  - apply Z.ones_spec_high. lia.
Qed.

Lemma not_kMask_bits (n : Z) :
  0 <= n -> Z.testbit PreviousPtr.not_kMask n = (2 <=? n) && (n <? 64).
Proof.
  intros Hn. unfold PreviousPtr.not_kMask, uint64_modulus.
  destruct (Z.ltb_spec n 64).
  - rewrite Z.mod_pow2_bits_low, Z.lnot_spec, kMask_bits by lia.
    rewrite andb_true_r. destruct (Z.ltb_spec n 2), (Z.leb_spec 2 n); simpl; lia.
  - rewrite Z.mod_pow2_bits_high by lia. now rewrite andb_false_r.
Qed.

Lemma aligned8_low_bits (p : Z) :
  PreviousPtr.aligned8 p -> Z.land p PreviousPtr.kMask = 0.
Proof.
  unfold PreviousPtr.aligned8, PreviousPtr.kMask. intros H.
  change 3 with (Z.ones 2). rewrite Z.land_ones by lia.
  change (2 ^ 2) with 4.
  rewrite (Z.div_mod p 8) by lia. rewrite H.
  replace (8 * (p / 8) + 0) with (0 + (2 * (p / 8)) * 4) by lia.
  now rewrite Z.mod_add by lia.
Qed.

Lemma pointer_high_bits (p n : Z) :
  PreviousPtr.is_pointer p -> 64 <= n -> Z.testbit p n = false.
Proof.
  unfold PreviousPtr.is_pointer, is_uint64, uint64_modulus. intros [H0 H1] Hn.
  destruct (Z.eq_dec p 0) as [-> | Hp]; [apply Z.bits_0 |].
  apply Z.bits_above_log2; [lia |].
  assert (Z.log2 p < 64) by (apply Z.log2_lt_pow2; lia). lia.
Qed.

Lemma tag_high_bits (tag n : Z) :
  0 <= tag <= 3 -> 2 <= n -> Z.testbit tag n = false.
Proof.
  intros Ht Hn. destruct (Z.eq_dec tag 0) as [-> | Hp]; [apply Z.bits_0 |].
  apply Z.bits_above_log2; [lia |].
  assert (Z.log2 tag <= Z.log2 3) by (apply Z.log2_le_mono; lia).
  change (Z.log2 3) with 1 in *. lia.
Qed.

(** The tag bits read back are the tag that was or-ed in. *)
Lemma tag_read_back (p tag : Z) :
  Z.land p PreviousPtr.kMask = 0 -> 0 <= tag <= 3 ->
  Z.land (Z.lor p tag) PreviousPtr.kMask = tag.
Proof.
  intros Hp Ht. rewrite Z.land_lor_distr_l, Hp, Z.lor_0_l.
  unfold PreviousPtr.kMask. change 3 with (Z.ones 2).
  rewrite Z.land_ones by lia. apply Z.mod_small. change (2 ^ 2) with 4. lia.
Qed.

(** Masking the tag bits off gives the pointer back. *)
Lemma tag_masked_off (p tag : Z) :
  PreviousPtr.is_pointer p -> Z.land p PreviousPtr.kMask = 0 -> 0 <= tag <= 3 ->
  Z.land (Z.lor p tag) PreviousPtr.not_kMask = p.
Proof.
  intros Hptr Hp Ht. apply Z.bits_inj'. intros n Hn.
  rewrite Z.land_spec, Z.lor_spec, not_kMask_bits by lia.
  destruct (Z.leb_spec 2 n) as [H2 | H2]; simpl.
  - rewrite (tag_high_bits tag n) by lia. rewrite orb_false_r.
    destruct (Z.ltb_spec n 64).
    + apply andb_true_r.
    + rewrite (pointer_high_bits p n) by (auto; lia). reflexivity.
  - rewrite andb_false_r.
    pose proof (f_equal (fun x => Z.testbit x n) Hp) as E. cbv beta in E.
    rewrite Z.land_spec, Z.bits_0, kMask_bits in E by lia.
    destruct (Z.ltb_spec n 2); [| lia]. rewrite andb_true_r in E. now rewrite E.
Qed.

(** C7. For every 8-byte-aligned pointer [p]: each [Set] overload accepts it
    and stores [p] with the tag of its type in the two low bits; [GetType] then
    answers the matching type, the tag bits read back are exactly the tag, and
    the matching getter masks the tag off and returns exactly [p]. *)
Theorem PreviousPtr_tag_roundtrip (p : Z) :
  PreviousPtr.is_pointer p -> PreviousPtr.aligned8 p ->
  (exists s, PreviousPtr.Set_Delta p = Some s
             /\ Z.land s PreviousPtr.kMask = PreviousPtr.kDelta
             /\ PreviousPtr.GetType s = Some PreviousPtr.DELTA
             /\ PreviousPtr.GetDelta s = Some p)
  /\ (exists s, PreviousPtr.Set_Vertex p = Some s
                /\ Z.land s PreviousPtr.kMask = PreviousPtr.kVertex
                /\ PreviousPtr.GetType s = Some PreviousPtr.VERTEX
                /\ PreviousPtr.GetVertex s = Some p)
  /\ (exists s, PreviousPtr.Set_Edge p = Some s
                /\ Z.land s PreviousPtr.kMask = PreviousPtr.kEdge
                /\ PreviousPtr.GetType s = Some PreviousPtr.EDGE
                /\ PreviousPtr.GetEdge s = Some p).
Proof.
  intros Hptr Hal. pose proof (aligned8_low_bits p Hal) as Hlow.
  unfold PreviousPtr.Set_Delta, PreviousPtr.Set_Vertex, PreviousPtr.Set_Edge.
  cbv zeta. rewrite Hlow. simpl (0 =? 0).
  repeat split; eexists; (split; [reflexivity |]).
  - unfold PreviousPtr.GetType, PreviousPtr.GetDelta. cbv zeta.
    rewrite (tag_read_back p PreviousPtr.kDelta Hlow) by (unfold PreviousPtr.kDelta; lia).
    rewrite (tag_masked_off p PreviousPtr.kDelta Hptr Hlow) by (unfold PreviousPtr.kDelta; lia).
    auto.
  - unfold PreviousPtr.GetType, PreviousPtr.GetVertex. cbv zeta.
    rewrite (tag_read_back p PreviousPtr.kVertex Hlow) by (unfold PreviousPtr.kVertex; lia).
    rewrite (tag_masked_off p PreviousPtr.kVertex Hptr Hlow) by (unfold PreviousPtr.kVertex; lia).
    auto.
  - unfold PreviousPtr.GetType, PreviousPtr.GetEdge. cbv zeta.
    rewrite (tag_read_back p PreviousPtr.kEdge Hlow) by (unfold PreviousPtr.kEdge; lia).
    rewrite (tag_masked_off p PreviousPtr.kEdge Hptr Hlow) by (unfold PreviousPtr.kEdge; lia).
    auto.
Qed.

(** The round trip at the address [0x7ffe_0000_1238]. *)
Lemma PreviousPtr_tag_roundtrip_witness :
  PreviousPtr.GetType (Z.lor 140728898425400 PreviousPtr.kVertex) = Some PreviousPtr.VERTEX
  /\ PreviousPtr.GetVertex (Z.lor 140728898425400 PreviousPtr.kVertex) = Some 140728898425400.
Proof.
  destruct (PreviousPtr_tag_roundtrip 140728898425400) as [_ [[s [Hs [_ [Ht Hg]]]] _]].
  - unfold PreviousPtr.is_pointer, is_uint64, uint64_modulus. lia.
  - reflexivity.
  - injection Hs as <-. split; assumption.
Defined.

(** ** Delta: what the move constructor leaves behind *)

Lemma DestroyValue_without_value (d : Delta.Delta) :
  Delta.action d <> Delta.SET_PROPERTY -> Delta.DestroyValue d = Some d.
Proof.
  unfold Delta.DestroyValue. destruct (Delta.action d); congruence.
Qed.

Lemma move_members_keeps_action (other this other1 : Delta.Delta) :
  Delta.move_members other = Some (this, other1) ->
  Delta.action this = Delta.action other /\ Delta.action other1 = Delta.action other.
Proof.
  unfold Delta.move_members. intros H.
  destruct (Delta.action other) eqn:Ha;
    destruct (Delta.payload other) as [| l | key [v |] | et vx ed];
    simpl in H; inversion H; subst; simpl; auto.
Qed.

(** C10. For a delta whose active union member agrees with its action, the
    move constructor succeeds; the moved-from delta ends with action
    [DELETE_OBJECT]; when its action was [SET_PROPERTY], [DestroyValue] ran on
    it before the action was reset and left its property value destroyed; and
    the destructor of the moved-from delta succeeds without touching it, so
    the value is not destroyed a second time. *)
Theorem Delta_move_constructor_leaves_deleted (other : Delta.Delta) :
  Delta.well_formed other = true ->
  exists this other1 other2,
    Delta.move_members other = Some (this, other1)
    /\ Delta.DestroyValue other1 = Some other2
    /\ Delta.move_constructor other
       = Some (this, Delta.with_action Delta.DELETE_OBJECT other2)
    /\ Delta.action (Delta.with_action Delta.DELETE_OBJECT other2) = Delta.DELETE_OBJECT
    /\ (Delta.action other = Delta.SET_PROPERTY ->
        exists key, Delta.payload other2 = Delta.property key Delta.Destroyed)
    /\ Delta.destructor (Delta.with_action Delta.DELETE_OBJECT other2)
       = Some (Delta.with_action Delta.DELETE_OBJECT other2).
Proof.
  intros Hwf. destruct other as [a ts cid pv nx u].
  unfold Delta.well_formed in Hwf. simpl in Hwf.
  destruct a; destruct u as [| l | key [v |] | et vx ed]; try discriminate Hwf;
    unfold Delta.move_constructor, Delta.move_members; simpl;
    do 3 eexists;
    (split; [reflexivity |]); (split; [reflexivity |]); (split; [reflexivity |]);
    (split; [reflexivity |]); (split; [| reflexivity]);
    intros Hact; try discriminate Hact; eexists; reflexivity.
Qed.

(** A [SET_PROPERTY] delta holding the string "nandare" is moved from. *)
Lemma Delta_move_constructor_leaves_deleted_witness :
  exists this other',
    Delta.move_constructor
      (Delta.new_SetProperty 7 (PropertyValue.String "nandare") 4096 1)
    = Some (this, other')
    /\ Delta.action other' = Delta.DELETE_OBJECT
    /\ Delta.payload other' = Delta.property 7 Delta.Destroyed
    /\ Delta.destructor other' = Some other'.
Proof.
  destruct (Delta_move_constructor_leaves_deleted
              (Delta.new_SetProperty 7 (PropertyValue.String "nandare") 4096 1))
    as [this [other1 [other2 [Hm [Hd [Hc [Ha [_ Hdes]]]]]]]].
  - reflexivity.
  - exists this, (Delta.with_action Delta.DELETE_OBJECT other2).
    simpl in Hm. injection Hm as <- <-. simpl in Hd. injection Hd as <-.
    repeat split.
Defined.

(** The property value moved into the new delta is the one the source held,
    and the source is left holding null until it is destroyed. *)
Lemma move_members_SetProperty key value ts cid :
  Delta.move_members (Delta.new_SetProperty key value ts cid)
  = Some (Delta.new_SetProperty key value ts cid,
          Delta.new_SetProperty key PropertyValue.Null ts cid).
Proof. reflexivity. Qed.

(** Destroying a delta twice while it still says [SET_PROPERTY] is the double
    destruction the reset of the action prevents. *)
Lemma DestroyValue_twice_SetProperty key value ts cid :
  exists d, Delta.DestroyValue (Delta.new_SetProperty key value ts cid) = Some d
            /\ Delta.DestroyValue d = None.
Proof. eexists. split; reflexivity. Qed.

(** ** Property values *)

(** C9. For every property value [v] and each of the six typed accessors:
    when the kind of [v] is not the accessor's, the accessor fails with
    [WrongType]; when it is, [v] stores a value of that kind and the accessor
    returns it. *)
Theorem PropertyValue_typed_accessors (v : PropertyValue.t) :
  (PropertyValue.type v <> PropertyValue.TBool ->
   PropertyValue.ValueBool v = PropertyValue.Err PropertyValue.WrongType)
  /\ (PropertyValue.type v = PropertyValue.TBool ->
      exists b, v = PropertyValue.Bool b
                /\ PropertyValue.ValueBool v = PropertyValue.Ok b)
  /\ (PropertyValue.type v <> PropertyValue.TInt ->
      PropertyValue.ValueInt v = PropertyValue.Err PropertyValue.WrongType)
  /\ (PropertyValue.type v = PropertyValue.TInt ->
      exists i, v = PropertyValue.Int i
                /\ PropertyValue.ValueInt v = PropertyValue.Ok i)
  /\ (PropertyValue.type v <> PropertyValue.TDouble ->
      PropertyValue.ValueDouble v = PropertyValue.Err PropertyValue.WrongType)
  /\ (PropertyValue.type v = PropertyValue.TDouble ->
      exists d, v = PropertyValue.Double d
                /\ PropertyValue.ValueDouble v = PropertyValue.Ok d)
  /\ (PropertyValue.type v <> PropertyValue.TString ->
      PropertyValue.ValueString v = PropertyValue.Err PropertyValue.WrongType)
  /\ (PropertyValue.type v = PropertyValue.TString ->
      exists s, v = PropertyValue.String s
                /\ PropertyValue.ValueString v = PropertyValue.Ok s)
  /\ (PropertyValue.type v <> PropertyValue.TList ->
      PropertyValue.ValueList v = PropertyValue.Err PropertyValue.WrongType)
  /\ (PropertyValue.type v = PropertyValue.TList ->
      exists l, v = PropertyValue.List l
                /\ PropertyValue.ValueList v = PropertyValue.Ok l)
  /\ (PropertyValue.type v <> PropertyValue.TMap ->
      PropertyValue.ValueMap v = PropertyValue.Err PropertyValue.WrongType)
  /\ (PropertyValue.type v = PropertyValue.TMap ->
      exists m, v = PropertyValue.Map m
                /\ PropertyValue.ValueMap v = PropertyValue.Ok m).
Proof.
  destruct v; simpl; repeat split;
    intros H; try reflexivity; try discriminate H; try (now elim H);
    eexists; split; reflexivity.
Qed.

(** The accessors on the values of the unit tests [PropertyValue.Null] and
    [PropertyValue.Int]. *)
Lemma PropertyValue_typed_accessors_witness :
  PropertyValue.ValueBool PropertyValue.Null = PropertyValue.Err PropertyValue.WrongType
  /\ PropertyValue.ValueBool (PropertyValue.Int 123) = PropertyValue.Err PropertyValue.WrongType
  /\ exists i, PropertyValue.Int 123 = PropertyValue.Int i
               /\ PropertyValue.ValueInt (PropertyValue.Int 123) = PropertyValue.Ok i.
Proof.
  split; [| split].
  - apply (PropertyValue_typed_accessors PropertyValue.Null). discriminate.
  - apply (PropertyValue_typed_accessors (PropertyValue.Int 123)). discriminate.
  - apply (PropertyValue_typed_accessors (PropertyValue.Int 123)). reflexivity.
Defined.

(** *** Numbers and kinds *)

(** Doubles as numbers. *)






(** Integers as doubles. *)










(** ** The replication client: starting a transaction *)

(** C4, as the code has it.  [StartTransactionReplication] always returns when
    no stream is open in [READY]; in [RECOVERY] it changes nothing; in
    [REPLICATING] it only stores [RECOVERY] and queues nothing; in [INVALID] it
    only queues the reconnect; in [READY] it tries to open the stream: when
    that succeeds the stream is kept and the state becomes [REPLICATING], and
    when it fails with [RpcFailedException] the state becomes [INVALID] and the
    reconnect is queued.  No other change of state exists. *)
Theorem StartTransactionReplication_transitions
  (storage_ : ReplicationClient.Storage) (current_wal_seq_num : Z)
  (stream : Rpc unit) (c : ReplicationClient.Client) :
  (ReplicationClient.replica_state_ c = ReplicationClient.READY ->
   ReplicationClient.replica_stream_ c = None) ->
  exists c',
    ReplicationClient.StartTransactionReplication storage_ current_wal_seq_num stream c
    = Some c'
    /\ ReplicationClient.mode_ c' = ReplicationClient.mode_ c
    /\ ReplicationClient.timeout_ c' = ReplicationClient.timeout_ c
    /\ match ReplicationClient.replica_state_ c, stream with
       | ReplicationClient.RECOVERY, _ => c' = c
       | ReplicationClient.REPLICATING, _ =>
           ReplicationClient.replica_state_ c' = ReplicationClient.RECOVERY
           /\ ReplicationClient.thread_pool_ c' = ReplicationClient.thread_pool_ c
           /\ ReplicationClient.replica_stream_ c' = ReplicationClient.replica_stream_ c
       | ReplicationClient.INVALID, _ =>
           ReplicationClient.replica_state_ c' = ReplicationClient.INVALID
           /\ ReplicationClient.thread_pool_ c'
              = ReplicationClient.thread_pool_ c ++ [ReplicationClient.TaskReconnect]
           /\ ReplicationClient.replica_stream_ c' = ReplicationClient.replica_stream_ c
       | ReplicationClient.READY, RpcOk _ =>
           ReplicationClient.replica_state_ c' = ReplicationClient.REPLICATING
           /\ ReplicationClient.thread_pool_ c' = ReplicationClient.thread_pool_ c
           /\ ReplicationClient.replica_stream_ c'
              = Some {| ReplicationClient.previous_commit_timestamp :=
                          ReplicationClient.last_commit_timestamp_ storage_;
                        ReplicationClient.current_seq_num := current_wal_seq_num |}
       | ReplicationClient.READY, RpcFailedException =>
           ReplicationClient.replica_state_ c' = ReplicationClient.INVALID
           /\ ReplicationClient.thread_pool_ c'
              = ReplicationClient.thread_pool_ c ++ [ReplicationClient.TaskReconnect]
           /\ ReplicationClient.replica_stream_ c' = None
       end.
Proof.
  intros Hstream. unfold ReplicationClient.StartTransactionReplication. cbv zeta.
  destruct (ReplicationClient.replica_state_ c) eqn:Hst.
  - pose proof (Hstream eq_refl) as Hnone. rewrite Hnone.
    destruct stream; eexists; (split; [reflexivity |]); simpl; auto 6.
  - eexists; (split; [reflexivity |]); destruct stream; simpl; auto.
  - eexists; (split; [reflexivity |]); destruct stream; simpl; auto.
  - eexists; (split; [reflexivity |]); destruct stream; simpl; auto.
Qed.

(** A replica in [REPLICATING] misses a transaction: it goes to [RECOVERY] and
    nothing is queued. *)
Lemma StartTransactionReplication_transitions_witness :
  exists c',
    ReplicationClient.StartTransactionReplication Scenario.main_storage 7 (RpcOk tt)
      (Scenario.replica ReplicationClient.REPLICATING) = Some c'
    /\ ReplicationClient.replica_state_ c' = ReplicationClient.RECOVERY
    /\ ReplicationClient.thread_pool_ c' = [].
Proof.
  destruct (StartTransactionReplication_transitions Scenario.main_storage 7 (RpcOk tt)
              (Scenario.replica ReplicationClient.REPLICATING))
    as [c' [H [_ [_ [Hs [Hp _]]]]]].
  - simpl. discriminate.
  - exists c'. auto.
Defined.

(** C4 as stated fails: a replica in [READY] whose stream cannot be opened
    does not go to [REPLICATING] but to [INVALID], with the reconnect queued. *)
Lemma StartTransactionReplication_ready_rpc_failure :
  ReplicationClient.replica_state_ (Scenario.replica ReplicationClient.READY)
  = ReplicationClient.READY
  /\ exists c',
       ReplicationClient.StartTransactionReplication Scenario.main_storage 7
         RpcFailedException (Scenario.replica ReplicationClient.READY) = Some c'
       /\ ReplicationClient.replica_state_ c' = ReplicationClient.INVALID
       /\ ReplicationClient.replica_state_ c' <> ReplicationClient.REPLICATING
       /\ ReplicationClient.replica_stream_ c' = None
       /\ ReplicationClient.thread_pool_ c' = [ReplicationClient.TaskReconnect].
Proof.
  split; [reflexivity |]. eexists. split; [reflexivity |].
  simpl. repeat split. discriminate.
Qed.

(** Why the theorem above asks for no open stream in [READY]: a failed
    [IfStreamingTransaction] leaves [replica_stream_] in place, the reconnect
    can bring the replica back to [READY], and the next
    [StartTransactionReplication] then fails its [CHECK]. *)
Lemma StartTransactionReplication_stale_stream :
  exists c,
    ReplicationClient.reachable 0 Scenario.as_listed
      (Scenario.replica ReplicationClient.READY) c
    /\ ReplicationClient.replica_state_ c = ReplicationClient.READY
    /\ ReplicationClient.StartTransactionReplication Scenario.main_storage 8 (RpcOk tt) c
       = None.
Proof.
  eexists. split; [| split].
  - eapply ReplicationClient.reachable_step.
    + eapply ReplicationClient.reachable_step.
      * eapply ReplicationClient.reachable_step; [apply ReplicationClient.reachable_refl |].
        apply (ReplicationClient.step_StartTransactionReplication 0 Scenario.as_listed
                 Scenario.main_storage 7 (RpcOk tt)). reflexivity.
      * apply (ReplicationClient.step_IfStreamingTransaction 0 Scenario.as_listed
                 RpcFailedException).
    + apply (ReplicationClient.step_task 0 Scenario.as_listed
               {| ReplicationClient.in_storage := Scenario.main_storage;
                  ReplicationClient.in_heartbeat :=
                    RpcOk {| ReplicationClient.hb_epoch_id := "epoch-b";
                             ReplicationClient.hb_current_commit_timestamp := 42 |};
                  ReplicationClient.in_finalize := RpcFailedException;
                  ReplicationClient.in_response_commit := None;
                  ReplicationClient.in_passes := [] |}
               ReplicationClient.TaskReconnect [] []); reflexivity.
  - reflexivity.
  - reflexivity.
Qed.

(** ** The replication client: the first heartbeat *)

Lemma find_epoch_absent (epoch_history : list (string * Z)) (epoch_id : string) :
  ~ In epoch_id (map fst epoch_history) ->
  ReplicationClient.find_epoch epoch_history epoch_id = None.
Proof.
  intros Hnot. unfold ReplicationClient.find_epoch.
  destruct (find _ (rev epoch_history)) as [[e ts] |] eqn:Hf; [| reflexivity].
  apply find_some in Hf. destruct Hf as [Hin Heq]. simpl in Heq.
  apply String.eqb_eq in Heq. subst e. exfalso. apply Hnot.
  apply in_rev in Hin. apply (in_map fst) in Hin. exact Hin.
Qed.

Lemma find_absent_head {A} (f : A -> bool) (l r : list A) :
  (forall x, In x l -> f x = false) -> find f (l ++ r) = find f r.
Proof.
  induction l as [| a l IH]; intros H; simpl; [reflexivity |].
  rewrite (H a) by (left; reflexivity). apply IH. intros x Hx. apply H. now right.
Qed.

(** The entry the search stops at is the most recent one with that epoch. *)
Lemma find_epoch_most_recent (older newer : list (string * Z)) (epoch_id : string) (ts : Z) :
  ~ In epoch_id (map fst newer) ->
  ReplicationClient.find_epoch (older ++ (epoch_id, ts) :: newer) epoch_id
  = Some (epoch_id, ts).
Proof.
  intros Hnot. unfold ReplicationClient.find_epoch.
  rewrite rev_app_distr. simpl. rewrite <- app_assoc. simpl.
  rewrite find_absent_head.
  - simpl. now rewrite String.eqb_refl.
  - intros [e t] Hin. simpl. apply in_rev in Hin.
    destruct (String.eqb_spec e epoch_id) as [-> |]; [| reflexivity].
    exfalso. apply Hnot. apply (in_map fst) in Hin. exact Hin.
Qed.

(** C6, as the code has it.  When the heartbeat answers with an epoch other
    than the local one and a commit timestamp other than the initial one, and
    that epoch is either absent from the local epoch history or last recorded
    there with a commit timestamp different from the replica's, then
    [InitializeClient] returns with the client untouched: the state is not set
    to [READY] or [RECOVERY] and no [RecoverReplica] is queued. *)
Theorem InitializeClient_branching_point
  (kTimestampInitialId : Z) (storage_ : ReplicationClient.Storage)
  (response : ReplicationClient.HeartbeatRes) (c : ReplicationClient.Client) :
  ReplicationClient.hb_epoch_id response <> ReplicationClient.epoch_id_ storage_ ->
  ReplicationClient.hb_current_commit_timestamp response <> kTimestampInitialId ->
  (~ In (ReplicationClient.hb_epoch_id response)
        (map fst (ReplicationClient.epoch_history_ storage_))
   \/ exists older newer ts,
        ReplicationClient.epoch_history_ storage_
        = older ++ (ReplicationClient.hb_epoch_id response, ts) :: newer
        /\ ~ In (ReplicationClient.hb_epoch_id response) (map fst newer)
        /\ ts <> ReplicationClient.hb_current_commit_timestamp response) ->
  (exists point,
     ReplicationClient.branching_point kTimestampInitialId storage_ response = Some point)
  /\ ReplicationClient.InitializeClient kTimestampInitialId storage_ (RpcOk response) c
     = RpcOk c
  /\ ReplicationClient.TryInitializeClient kTimestampInitialId storage_ (RpcOk response) c
     = c.
Proof.
  intros Hepoch Hts Hhist.
  assert (Hbp : exists point,
             ReplicationClient.branching_point kTimestampInitialId storage_ response
             = Some point).
  { unfold ReplicationClient.branching_point.
    destruct (String.eqb_spec (ReplicationClient.hb_epoch_id response)
                (ReplicationClient.epoch_id_ storage_)) as [E | _]; [contradiction |].
    destruct (Z.eqb_spec (ReplicationClient.hb_current_commit_timestamp response)
                kTimestampInitialId) as [E | _]; [contradiction |].
    simpl. destruct Hhist as [Habs | [older [newer [ts [Hh [Hnew Hdiff]]]]]].
    - rewrite (find_epoch_absent _ _ Habs). eauto.
    - rewrite Hh, (find_epoch_most_recent _ _ _ _ Hnew). simpl.
      destruct (Z.eqb_spec ts (ReplicationClient.hb_current_commit_timestamp response));
        [contradiction | simpl; eauto]. }
  split; [exact Hbp |]. destruct Hbp as [point Hbp].
  unfold ReplicationClient.TryInitializeClient, ReplicationClient.InitializeClient.
  rewrite Hbp. split; reflexivity.
Qed.

(** A replica at timestamp 7 of an epoch the main instance recorded at 10. *)
Lemma InitializeClient_branching_point_witness :
  ReplicationClient.InitializeClient 0 Scenario.main_storage
    (RpcOk {| ReplicationClient.hb_epoch_id := "epoch-a";
              ReplicationClient.hb_current_commit_timestamp := 7 |})
    (Scenario.replica ReplicationClient.INVALID)
  = RpcOk (Scenario.replica ReplicationClient.INVALID).
Proof.
  apply (InitializeClient_branching_point 0 Scenario.main_storage
           {| ReplicationClient.hb_epoch_id := "epoch-a";
              ReplicationClient.hb_current_commit_timestamp := 7 |}).
  - simpl. discriminate.
  - simpl. lia.
  - right. exists [], [], 10. simpl. repeat split; [tauto | lia].
Defined.

(** C6 as stated fails, whatever the initial timestamp is: a replica that
    answers with a foreign epoch, absent from the epoch history, and with the
    initial timestamp as its commit timestamp is not refused; it is sent to
    recovery (or to [READY] when the main instance has no commit either). *)
Lemma InitializeClient_fresh_replica_accepted :
  ~ exists kTimestampInitialId,
      forall storage_ response c,
        ReplicationClient.hb_epoch_id response <> ReplicationClient.epoch_id_ storage_ ->
        ~ In (ReplicationClient.hb_epoch_id response)
             (map fst (ReplicationClient.epoch_history_ storage_)) ->
        ReplicationClient.InitializeClient kTimestampInitialId storage_ (RpcOk response) c
        = RpcOk c.
Proof.
  intros [k H].
  specialize (H {| ReplicationClient.epoch_id_ := "epoch-b";
                   ReplicationClient.epoch_history_ := [("epoch-a"%string, 10)];
                   ReplicationClient.last_commit_timestamp_ := k |}
                (Scenario.fresh_foreign_replica k)
                (Scenario.replica ReplicationClient.INVALID)).
  unfold ReplicationClient.InitializeClient, ReplicationClient.branching_point in H.
  simpl in H. rewrite Z.eqb_refl in H. simpl in H.
  assert (E : RpcOk (ReplicationClient.store_replica_state ReplicationClient.READY
                       (Scenario.replica ReplicationClient.INVALID))
              = RpcOk (Scenario.replica ReplicationClient.INVALID)).
  { apply H; [discriminate |]. intros [E | []]. discriminate E. }
  discriminate E.
Qed.

(** ** The replication client: the fallback of a SYNC replica to ASYNC *)

(** Only the fallback writes [mode_]: every other operation of the client
    leaves it as it is. *)
Ltac keep_mode :=
  repeat match goal with
         | H : Some _ = Some _ |- _ => inversion H; subst; clear H
         | H : None = Some _ |- _ => discriminate H
         | H : context [match ?x with _ => _ end] |- _ => destruct x eqn:?
         | H : context [if ?b then _ else _] |- _ => destruct b eqn:?
         | |- context [match ?x with _ => _ end] => destruct x eqn:?
         | |- context [if ?b then _ else _] => destruct b eqn:?
         end;
  simpl; try reflexivity; try congruence.

Lemma StartTransactionReplication_mode storage_ seq stream c c' :
  ReplicationClient.StartTransactionReplication storage_ seq stream c = Some c' ->
  ReplicationClient.mode_ c' = ReplicationClient.mode_ c.
Proof.
  unfold ReplicationClient.StartTransactionReplication. intros H. keep_mode.
Qed.

Lemma IfStreamingTransaction_mode callback c :
  ReplicationClient.mode_ (ReplicationClient.IfStreamingTransaction callback c)
  = ReplicationClient.mode_ c.
Proof. unfold ReplicationClient.IfStreamingTransaction. keep_mode. Qed.

Lemma FinalizeTransactionReplicationInternal_mode finalize c c' :
  ReplicationClient.FinalizeTransactionReplicationInternal finalize c = Some c' ->
  ReplicationClient.mode_ c' = ReplicationClient.mode_ c.
Proof.
  unfold ReplicationClient.FinalizeTransactionReplicationInternal. intros H. keep_mode.
Qed.

Lemma FinalizeTransactionReplication_mode finalize c c' :
  ReplicationClient.FinalizeTransactionReplication finalize c = Some c' ->
  ReplicationClient.mode_ c' = ReplicationClient.mode_ c.
Proof.
  unfold ReplicationClient.FinalizeTransactionReplication. intros H.
  destruct (negb _); [now inversion H |].
  destruct (ReplicationClient.mode_ c) eqn:Hm.
  - destruct (ReplicationClient.timeout_ c).
    + destruct (ReplicationClient.timeout_dispatcher_ c); [| discriminate H].
      inversion H; subst; simpl. now rewrite Hm.
    + rewrite <- Hm. eapply FinalizeTransactionReplicationInternal_mode; eauto.
  - inversion H; subst; simpl. now rewrite Hm.
Qed.

Lemma TryInitializeClient_mode k storage_ heartbeat c :
  ReplicationClient.mode_ (ReplicationClient.TryInitializeClient k storage_ heartbeat c)
  = ReplicationClient.mode_ c.
Proof.
  unfold ReplicationClient.TryInitializeClient, ReplicationClient.InitializeClient.
  destruct heartbeat as [response |]; [| reflexivity].
  destruct (ReplicationClient.branching_point k storage_ response); [reflexivity |].
  destruct (_ =? _); reflexivity.
Qed.

Lemma recovery_step_mode input step rc c rc' c' :
  ReplicationClient.recovery_step input step (rc, c) = Some (rc', c') ->
  ReplicationClient.mode_ c' = ReplicationClient.mode_ c.
Proof.
  unfold ReplicationClient.recovery_step. intros H. keep_mode.
Qed.

Lemma recovery_steps_mode inputs steps : forall i rc c rc' c',
  ReplicationClient.recovery_steps inputs i steps (rc, c) = Some (rc', c') ->
  ReplicationClient.mode_ c' = ReplicationClient.mode_ c.
Proof.
  induction steps as [| step rest IH]; intros i rc c rc' c' H;
    cbn [ReplicationClient.recovery_steps] in H.
  - now inversion H.
  - destruct (ReplicationClient.recovery_step (inputs i) step (rc, c))
      as [[rc1 c1] |] eqn:Hs; [| discriminate H].
    apply IH in H. apply recovery_step_mode in Hs. congruence.
Qed.

Lemma RecoverReplica_pass_mode sort_snapshots pass rc c c' next :
  ReplicationClient.RecoverReplica_pass sort_snapshots pass rc c = Some (c', next) ->
  ReplicationClient.mode_ c' = ReplicationClient.mode_ c.
Proof.
  unfold ReplicationClient.RecoverReplica_pass. intros H.
  destruct (ReplicationClient.GetRecoverySteps _ _ _ _ _) as [[steps locked] |];
    [| discriminate H].
  destruct (ReplicationClient.recovery_steps _ _ _ _) as [[rc1 c1] |] eqn:Hs;
    [| discriminate H].
  apply recovery_steps_mode in Hs.
  destruct (_ =? _); inversion H; subst; simpl; congruence.
Qed.

Lemma RecoverReplica_mode sort_snapshots passes : forall rc c c' next,
  ReplicationClient.RecoverReplica sort_snapshots passes rc c = Some (c', next) ->
  ReplicationClient.mode_ c' = ReplicationClient.mode_ c.
Proof.
  induction passes as [| pass rest IH]; intros rc c c' next H;
    cbn [ReplicationClient.RecoverReplica] in H.
  - now inversion H.
  - destruct (ReplicationClient.RecoverReplica_pass _ pass rc c)
      as [[c1 [rc1 |]] |] eqn:Hp; [| | discriminate H].
    + apply IH in H. apply RecoverReplica_pass_mode in Hp. congruence.
    + inversion H; subst. eapply RecoverReplica_pass_mode; eauto.
Qed.

Lemma run_task_mode k sort_snapshots input t c c' :
  ReplicationClient.run_task k sort_snapshots input t c = Some c' ->
  ReplicationClient.mode_ c' = ReplicationClient.mode_ c.
Proof.
  destruct t; cbn [ReplicationClient.run_task]; intros H.
  - inversion H; subst. apply TryInitializeClient_mode.
  - destruct (ReplicationClient.RecoverReplica _ _ _ _) as [[c1 [rc1 |]] |] eqn:Hr;
      [| | discriminate H]; inversion H; subst; simpl;
      eapply RecoverReplica_mode; eauto.
  - destruct (ReplicationClient.in_response_commit input) as [rc |];
      [| discriminate H].
    destruct (ReplicationClient.RecoverReplica _ _ _ _) as [[c1 [rc1 |]] |] eqn:Hr;
      [| | discriminate H]; inversion H; subst; simpl;
      eapply RecoverReplica_mode; eauto.
  - eapply FinalizeTransactionReplicationInternal_mode; eauto.
  - destruct (ReplicationClient.FinalizeTransactionReplicationInternal _ _)
      as [c1 |] eqn:Hf; [| discriminate H].
    destruct (ReplicationClient.timeout_dispatcher_ c1); [| discriminate H].
    inversion H; subst; simpl.
    eapply FinalizeTransactionReplicationInternal_mode; eauto.
  - now inversion H.
Qed.

(** Once ASYNC, always ASYNC: no move of the client sets [mode_] to SYNC. *)
Lemma step_keeps_async k sort_snapshots c c' :
  ReplicationClient.step k sort_snapshots c c' ->
  ReplicationClient.mode_ c = ReplicationClient.ASYNC ->
  ReplicationClient.mode_ c' = ReplicationClient.ASYNC.
Proof.
  intros Hstep Hm. destruct Hstep as
      [st seq stream c c' H | callback c | finalize c c' H | c
       | input t before after c c' Hpool H | d c Hd].
  - rewrite (StartTransactionReplication_mode _ _ _ _ _ H). exact Hm.
  - rewrite IfStreamingTransaction_mode. exact Hm.
  - rewrite (FinalizeTransactionReplication_mode _ _ _ H). exact Hm.
  - unfold ReplicationClient.FinalizeTransactionReplication_woken.
    destruct (ReplicationClient.ReplicaState_eqb _ _); [reflexivity | exact Hm].
  - rewrite (run_task_mode _ _ _ _ _ _ H). exact Hm.
  - exact Hm.
Qed.

Lemma reachable_keeps_async k sort_snapshots c c' :
  ReplicationClient.reachable k sort_snapshots c c' ->
  ReplicationClient.mode_ c = ReplicationClient.ASYNC ->
  ReplicationClient.mode_ c' = ReplicationClient.ASYNC.
Proof.
  intros Hr Hm. induction Hr as [| c1 c2 Hr IH Hstep]; [exact Hm |].
  eapply step_keeps_async; eauto.
Qed.

(** C5. A SYNC replica with a timeout is replicating a transaction and
    [FinalizeTransactionReplication] is called: it queues the finalize task,
    starts the timeout task and waits, the mode still SYNC.  If the state is
    still [REPLICATING] when the main thread is woken, whatever the other
    threads did in between, then the rest of the call sets the mode to ASYNC
    and clears the timeout, and the mode is ASYNC in every state the client
    can reach afterwards. *)
Theorem sync_timeout_falls_back_to_async_for_life
  (kTimestampInitialId : Z)
  (sort_snapshots : list SnapshotDurabilityInfo -> list SnapshotDurabilityInfo)
  (finalize : Rpc ReplicationClient.AppendDeltasRes)
  (timeout : PropertyValue.double)
  (dispatcher : ReplicationClient.TimeoutDispatcher)
  (c woken : ReplicationClient.Client) :
  ReplicationClient.mode_ c = ReplicationClient.SYNC ->
  ReplicationClient.timeout_ c = Some timeout ->
  ReplicationClient.timeout_dispatcher_ c = Some dispatcher ->
  ReplicationClient.replica_state_ c = ReplicationClient.REPLICATING ->
  exists waiting,
    ReplicationClient.FinalizeTransactionReplication finalize c = Some waiting
    /\ ReplicationClient.mode_ waiting = ReplicationClient.SYNC
    /\ ReplicationClient.thread_pool_ waiting
       = ReplicationClient.thread_pool_ c ++ [ReplicationClient.TaskFinalizeAndNotify]
    /\ ReplicationClient.timeout_dispatcher_ waiting
       = Some {| ReplicationClient.active := true; ReplicationClient.finished := false |}
    /\ (ReplicationClient.reachable kTimestampInitialId sort_snapshots waiting woken ->
        ReplicationClient.replica_state_ woken = ReplicationClient.REPLICATING ->
        let after := ReplicationClient.FinalizeTransactionReplication_woken woken in
        ReplicationClient.mode_ after = ReplicationClient.ASYNC
        /\ ReplicationClient.timeout_ after = None
        /\ forall later,
             ReplicationClient.reachable kTimestampInitialId sort_snapshots after later ->
             ReplicationClient.mode_ later = ReplicationClient.ASYNC).
Proof.
  intros Hmode Htimeout Hdispatcher Hstate.
  unfold ReplicationClient.FinalizeTransactionReplication.
  rewrite Hstate, Hmode, Htimeout, Hdispatcher. simpl.
  eexists. split; [reflexivity |]. simpl.
  split; [exact Hmode |]. split; [reflexivity |]. split; [reflexivity |].
  intros _ Hwoken. cbv zeta.
  assert (Hafter : ReplicationClient.mode_
                     (ReplicationClient.FinalizeTransactionReplication_woken woken)
                   = ReplicationClient.ASYNC
                   /\ ReplicationClient.timeout_
                        (ReplicationClient.FinalizeTransactionReplication_woken woken)
                      = None).
  { unfold ReplicationClient.FinalizeTransactionReplication_woken.
    rewrite Hwoken. simpl. split; reflexivity. }
  destruct Hafter as [Hm Ht]. repeat split; try assumption.
  intros later Hlater. eapply reachable_keeps_async; eauto.
Qed.

(** The replica [Scenario.replicating_with_timeout]: the timeout task ends
    before the finalize task has run, the main thread wakes up and falls back;
    the finalize task runs afterwards and brings the replica to [READY], still
    ASYNC. *)
Lemma sync_timeout_falls_back_to_async_for_life_witness :
  exists waiting after later,
    ReplicationClient.FinalizeTransactionReplication RpcFailedException
      Scenario.replicating_with_timeout = Some waiting
    /\ after = ReplicationClient.FinalizeTransactionReplication_woken
                 (ReplicationClient.set_timeout_dispatcher
                    (Some {| ReplicationClient.active := false;
                             ReplicationClient.finished := true |}) waiting)
    /\ ReplicationClient.mode_ after = ReplicationClient.ASYNC
    /\ ReplicationClient.timeout_ after = None
    /\ ReplicationClient.reachable 0 (fun l => l) after later
    /\ ReplicationClient.replica_state_ later = ReplicationClient.READY
    /\ ReplicationClient.mode_ later = ReplicationClient.ASYNC.
Proof.
  destruct (sync_timeout_falls_back_to_async_for_life 0 (fun l => l) RpcFailedException
              (PropertyValue.double_of_dyadic 3602879701896397 (-54))
              {| ReplicationClient.active := false; ReplicationClient.finished := true |}
              Scenario.replicating_with_timeout
              (ReplicationClient.set_timeout_dispatcher
                 (Some {| ReplicationClient.active := false;
                          ReplicationClient.finished := true |})
                 (ReplicationClient.set_timeout_dispatcher
                    (Some {| ReplicationClient.active := true;
                             ReplicationClient.finished := false |})
                    (ReplicationClient.AddTask ReplicationClient.TaskFinalizeAndNotify
                       Scenario.replicating_with_timeout))))
    as [waiting [Hcall [_ [_ [_ Hrest]]]]]; try reflexivity.
  simpl in Hcall. injection Hcall as <-.
  assert (Hwait : ReplicationClient.reachable 0 (fun l => l)
                    (ReplicationClient.set_timeout_dispatcher
                       (Some {| ReplicationClient.active := true;
                                ReplicationClient.finished := false |})
                       (ReplicationClient.AddTask ReplicationClient.TaskFinalizeAndNotify
                          Scenario.replicating_with_timeout))
                    (ReplicationClient.set_timeout_dispatcher
                       (Some {| ReplicationClient.active := false;
                                ReplicationClient.finished := true |})
                       (ReplicationClient.set_timeout_dispatcher
                          (Some {| ReplicationClient.active := true;
                                   ReplicationClient.finished := false |})
                          (ReplicationClient.AddTask ReplicationClient.TaskFinalizeAndNotify
                             Scenario.replicating_with_timeout)))).
  { eapply ReplicationClient.reachable_step; [apply ReplicationClient.reachable_refl |].
    apply (ReplicationClient.step_timeout 0 (fun l => l)
             {| ReplicationClient.active := true; ReplicationClient.finished := false |}).
    reflexivity. }
  specialize (Hrest Hwait eq_refl). cbv zeta in Hrest.
  destruct Hrest as [Hm [Ht Hlife]].
  assert (Hlater : ReplicationClient.reachable 0 (fun l => l)
            (ReplicationClient.FinalizeTransactionReplication_woken
               (ReplicationClient.set_timeout_dispatcher
                  (Some {| ReplicationClient.active := false;
                           ReplicationClient.finished := true |})
                  (ReplicationClient.set_timeout_dispatcher
                     (Some {| ReplicationClient.active := true;
                              ReplicationClient.finished := false |})
                     (ReplicationClient.AddTask ReplicationClient.TaskFinalizeAndNotify
                        Scenario.replicating_with_timeout))))
            {| ReplicationClient.name_ := "replica1";
               ReplicationClient.replica_state_ := ReplicationClient.READY;
               ReplicationClient.mode_ := ReplicationClient.ASYNC;
               ReplicationClient.timeout_ := None;
               ReplicationClient.timeout_dispatcher_ :=
                 Some {| ReplicationClient.active := false;
                         ReplicationClient.finished := true |};
               ReplicationClient.replica_stream_ := None;
               ReplicationClient.thread_pool_ :=
                 [ReplicationClient.TaskResetTimeoutDispatcher] |}).
  { eapply ReplicationClient.reachable_step; [apply ReplicationClient.reachable_refl |].
    apply (ReplicationClient.step_task 0 (fun l => l)
             {| ReplicationClient.in_storage := Scenario.main_storage;
                ReplicationClient.in_heartbeat := RpcFailedException;
                ReplicationClient.in_finalize :=
                  RpcOk {| ReplicationClient.success := true;
                           ReplicationClient.current_commit_timestamp := 42 |};
                ReplicationClient.in_response_commit := None;
                ReplicationClient.in_passes := [] |}
             ReplicationClient.TaskFinalizeAndNotify []
             [ReplicationClient.TaskResetTimeoutDispatcher]); reflexivity. }
  eexists. eexists. eexists.
  split; [reflexivity |]. split; [reflexivity |].
  split; [exact Hm |]. split; [exact Ht |]. split; [exact Hlater |].
  split; [reflexivity |]. exact (Hlife _ Hlater).
Defined.

(** ** Recovery steps *)

Lemma sequential_no_gap (w newer : WalDurabilityInfo) :
  (1 <? sub_u64 (seq_num newer) (seq_num w)) = negb (ReplicationClient.sequential w newer).
Proof. unfold ReplicationClient.sequential. apply Z.ltb_antisym. Qed.

Lemma sequential_refl (w : WalDurabilityInfo) : ReplicationClient.sequential w w = true.
Proof.
  unfold ReplicationClient.sequential, sub_u64. rewrite Z.sub_diag. reflexivity.
Qed.

(** The search leaves the loop empty-handed when no file of the chain reaches
    back to the commit of the replica. *)
Lemma find_wal_chain_none (replica_commit : Z) (rwals : list WalDurabilityInfo) :
  forall newer,
    forallb (fun w => negb (ReplicationClient.reaches replica_commit w))
      (ReplicationClient.chain_before newer rwals) = true ->
    ReplicationClient.find_wal_chain replica_commit (seq_num newer) rwals = None.
Proof.
  induction rwals as [| w older IH]; intros newer H; simpl; [reflexivity |].
  rewrite sequential_no_gap. simpl in H.
  destruct (ReplicationClient.sequential w newer); simpl; [| reflexivity].
  simpl in H. apply andb_true_iff in H. destruct H as [Hw Hrest].
  apply negb_true_iff in Hw. unfold ReplicationClient.reaches in Hw. rewrite Hw.
  apply IH. exact Hrest.
Qed.

(** The search stops at the newest file of the chain that reaches back. *)
Lemma find_wal_chain_some (replica_commit : Z) (newer_part : list WalDurabilityInfo) :
  forall newer rwals w rest,
    ReplicationClient.chain_before newer rwals = newer_part ++ w :: rest ->
    forallb (fun x => negb (ReplicationClient.reaches replica_commit x)) newer_part = true ->
    ReplicationClient.reaches replica_commit w = true ->
    exists older,
      rwals = newer_part ++ w :: older
      /\ ReplicationClient.find_wal_chain replica_commit (seq_num newer) rwals
         = Some (if to_timestamp w <=? replica_commit
                 then S (length older) else length older).
Proof.
  induction newer_part as [| x newer_part IH]; intros newer rwals w rest Hchain Hnot Hw.
  - destruct rwals as [| w' older]; [discriminate Hchain |].
    simpl in Hchain. simpl. rewrite sequential_no_gap.
    destruct (ReplicationClient.sequential w' newer); [| discriminate Hchain].
    injection Hchain as -> _. exists older. split; [reflexivity |].
    simpl. unfold ReplicationClient.reaches in Hw. rewrite Hw. reflexivity.
  - destruct rwals as [| w' older]; [discriminate Hchain |].
    simpl in Hchain. simpl. rewrite sequential_no_gap.
    destruct (ReplicationClient.sequential w' newer); [| discriminate Hchain].
    injection Hchain as -> Hchain.
    simpl in Hnot. apply andb_true_iff in Hnot. destruct Hnot as [Hx Hnot].
    apply negb_true_iff in Hx. unfold ReplicationClient.reaches in Hx.
    destruct (IH x older w rest Hchain Hnot Hw) as [older' [-> Hfind]].
    exists older'. split; [reflexivity |]. simpl. rewrite Hx. exact Hfind.
Qed.

(** A list with an element that satisfies [f] splits at the first such one. *)
Lemma split_at_first {A} (f : A -> bool) (l : list A) :
  existsb f l = true ->
  exists before x after,
    l = before ++ x :: after /\ forallb (fun y => negb (f y)) before = true /\ f x = true.
Proof.
  induction l as [| a l IH]; simpl; intros H; [discriminate H |].
  destruct (f a) eqn:Ha.
  - exists [], a, l. simpl. auto.
  - simpl in H. destruct (IH H) as [before [x [after [-> [Hb Hx]]]]].
    exists (a :: before), x, after. simpl. rewrite Ha. simpl. auto.
Qed.

Lemma forallb_rev {A} (f : A -> bool) (l : list A) :
  forallb f (rev l) = forallb f l.
Proof.
  apply eq_true_iff_eq. rewrite !forallb_forall.
  split; intros H x Hx; apply H; [apply in_rev in Hx | apply in_rev]; auto.
Qed.

Lemma skipn_length_app {A} (l r : list A) : skipn (length l) (l ++ r) = r.
Proof. induction l; simpl; auto. Qed.

Lemma all_sequential_snoc (l : list WalDurabilityInfo) (a b : WalDurabilityInfo) :
  ReplicationClient.all_sequential (l ++ [a]) = true ->
  ReplicationClient.sequential a b = true ->
  ReplicationClient.all_sequential ((l ++ [a]) ++ [b]) = true.
Proof.
  intros Hl Hab. induction l as [| x l IH].
  - simpl. now rewrite Hab.
  - simpl in Hl |- *.
    destruct (l ++ [a]) as [| y m] eqn:E; [destruct l; discriminate E |].
    simpl. apply andb_true_iff in Hl. destruct Hl as [H1 H2].
    rewrite H1. simpl. apply IH. exact H2.
Qed.

Lemma last_default_irrelevant {A} (l : list A) (a b : A) :
  l <> [] -> last l a = last l b.
Proof.
  induction l as [| x l IH]; intros H; [now elim H |].
  destruct l as [| y l]; [reflexivity |].
  change (last (y :: l) a = last (y :: l) b). apply IH. discriminate.
Qed.

(** The chain found while walking back is a prefix of the files walked over,
    its links are sequential, and the file it stops at is not. *)
Lemma chain_before_spec (rwals : list WalDurabilityInfo) : forall newer,
  exists rest,
    rwals = ReplicationClient.chain_before newer rwals ++ rest
    /\ ReplicationClient.all_sequential
         (rev (newer :: ReplicationClient.chain_before newer rwals)) = true
    /\ match rest with
       | [] => True
       | v :: _ =>
           ReplicationClient.sequential v
             (last (ReplicationClient.chain_before newer rwals) newer) = false
       end.
Proof.
  induction rwals as [| w older IH]; intros newer.
  - exists []. simpl. auto.
  - cbn [ReplicationClient.chain_before].
    destruct (ReplicationClient.sequential w newer) eqn:Hseq.
    + destruct (IH w) as [rest [Hrest [Hlinks Hstop]]].
      exists rest. split; [simpl; now rewrite <- Hrest |]. split.
      * simpl rev in Hlinks |- *. apply all_sequential_snoc; assumption.
      * destruct rest as [| v rest']; [exact I |].
        destruct (ReplicationClient.chain_before w older) as [| c l] eqn:E;
          [exact Hstop |].
        change (last (w :: c :: l) newer) with (last (c :: l) newer).
        rewrite (last_default_irrelevant (c :: l) newer w) by discriminate.
        exact Hstop.
    + exists (w :: older). simpl. auto.
Qed.

(** The longest chain is a tail of the WAL files, its files are sequential,
    and the file before it, if any, is not sequential with its first file. *)
Lemma longest_chain_spec (wal_files : list WalDurabilityInfo) :
  exists skipped,
    wal_files = skipped ++ ReplicationClient.longest_chain wal_files
    /\ ReplicationClient.all_sequential (ReplicationClient.longest_chain wal_files) = true
    /\ forall before v first rest,
         skipped = before ++ [v] ->
         ReplicationClient.longest_chain wal_files = first :: rest ->
         ReplicationClient.sequential v first = false.
Proof.
  unfold ReplicationClient.longest_chain.
  destruct (rev wal_files) as [| newest older] eqn:Hrev.
  - exists []. apply (f_equal (@rev _)) in Hrev. rewrite rev_involutive in Hrev.
    subst wal_files. simpl. repeat split. intros [| ? ?]; discriminate.
  - destruct (chain_before_spec older newest) as [stop [Hstop [Hlinks Hmax]]].
    exists (rev stop). split; [| split].
    + apply (f_equal (@rev _)) in Hrev. rewrite rev_involutive in Hrev.
      rewrite Hrev. rewrite Hstop at 1.
      change (newest :: ReplicationClient.chain_before newest older ++ stop)
        with ((newest :: ReplicationClient.chain_before newest older) ++ stop).
      now rewrite rev_app_distr.
    + exact Hlinks.
    + intros before v first rest Hskipped Hfirst.
      apply (f_equal (@rev _)) in Hskipped. rewrite rev_involutive, rev_app_distr in Hskipped.
      simpl in Hskipped. subst stop.
      assert (Hlast : last (ReplicationClient.chain_before newest older) newest = first).
      { apply (f_equal (@rev _)) in Hfirst. rewrite rev_involutive in Hfirst.
        simpl rev in Hfirst.
        destruct (ReplicationClient.chain_before newest older) as [| c l] eqn:E.
        - destruct (rev rest); simpl in Hfirst; [now injection Hfirst | ].
          injection Hfirst as _ Hbad. destruct l; discriminate Hbad.
        - assert (Hl : c :: l = removelast (c :: l) ++ [last (c :: l) newest])
            by (apply app_removelast_last; discriminate).
          assert (E2 : newest :: c :: l = (newest :: removelast (c :: l)) ++ [last (c :: l) newest])
            by (change (newest :: c :: l
                        = newest :: (removelast (c :: l) ++ [last (c :: l) newest]));
                f_equal; exact Hl).
          rewrite E2 in Hfirst. apply app_inj_tail in Hfirst. now destruct Hfirst. }
      rewrite Hlast in Hmax. exact Hmax.
Qed.

Lemma chain_before_newest (newest : WalDurabilityInfo) (older : list WalDurabilityInfo) :
  ReplicationClient.chain_before newest (newest :: older)
  = newest :: ReplicationClient.chain_before newest older.
Proof. simpl. now rewrite sequential_refl. Qed.

Lemma longest_chain_snoc (earlier : list WalDurabilityInfo) (newest : WalDurabilityInfo) :
  ReplicationClient.longest_chain (earlier ++ [newest])
  = rev (ReplicationClient.chain_before newest (newest :: rev earlier)).
Proof.
  unfold ReplicationClient.longest_chain. rewrite rev_app_distr. simpl rev at 1.
  simpl app. now rewrite chain_before_newest.
Qed.

(** The first loop of the snapshot branch steps over the files that end at or
    before the snapshot. *)
Lemma snapshot_wal_start_skip (start : Z) (before rest : list WalDurabilityInfo) :
  forall pos,
    forallb (fun x => to_timestamp x <=? start) before = true ->
    ReplicationClient.snapshot_wal_start start (before ++ rest) pos
    = ReplicationClient.snapshot_wal_start start rest (pos + length before).
Proof.
  induction before as [| x before IH]; intros pos H; simpl.
  - now rewrite Nat.add_0_r.
  - simpl in H. apply andb_true_iff in H. destruct H as [Hx H].
    assert (E : (start <? to_timestamp x) = false) by (apply Z.ltb_ge; apply Z.leb_le; exact Hx).
    rewrite E, IH by exact H. f_equal. lia.
Qed.

Lemma snapshot_wal_start_end (start : Z) (wals : list WalDurabilityInfo) (pos : nat) :
  forallb (fun x => to_timestamp x <=? start) wals = true ->
  ReplicationClient.snapshot_wal_start start wals pos = Some (pos + length wals)%nat.
Proof.
  intros H. rewrite <- (app_nil_r wals) at 1.
  rewrite snapshot_wal_start_skip by exact H. reflexivity.
Qed.

Lemma filter_suffix {A} (f : A -> bool) (before after : list A) :
  forallb (fun x => negb (f x)) before = true -> forallb f after = true ->
  filter f (before ++ after) = after.
Proof.
  intros Hb Ha. rewrite filter_app.
  assert (E1 : filter f before = []).
  { induction before as [| a l IH]; simpl in *; [reflexivity |].
    apply andb_true_iff in Hb. destruct Hb as [H1 H2].
    apply negb_true_iff in H1. rewrite H1. auto. }
  assert (E2 : filter f after = after).
  { induction after as [| a l IH]; simpl in *; [reflexivity |].
    apply andb_true_iff in Ha. destruct Ha as [H1 H2]. rewrite H1. f_equal. auto. }
  now rewrite E1, E2.
Qed.

(** C2, as the code has it.  When the newest finalized WAL ends after the
    commit of the replica and the longest chain of sequential WAL files ending
    at the newest one starts at or before that commit, the plan has no
    snapshot: it is one [RecoveryWals] step, followed by the current WAL when
    there is one.  The files sent are a tail of that chain: with [w] the
    newest file that reaches back to the commit of the replica, they run from
    [w], or from the file after [w] when the replica already has every commit
    of [w], through the newest file; they are also the files handed to the
    file locker. *)
Theorem GetRecoverySteps_wal_chain
  (sort_snapshots : list SnapshotDurabilityInfo -> list SnapshotDurabilityInfo)
  (replica_commit : Z) (wal_file_ : option Z)
  (earlier : list WalDurabilityInfo) (newest : WalDurabilityInfo)
  (snapshot_files : list SnapshotDurabilityInfo)
  (first : WalDurabilityInfo) (rest : list WalDurabilityInfo) :
  replica_commit < to_timestamp newest ->
  ReplicationClient.longest_chain (earlier ++ [newest]) = first :: rest ->
  from_timestamp first <= replica_commit ->
  exists before w after,
    earlier ++ [newest] = before ++ w :: after
    /\ ReplicationClient.reaches replica_commit w = true
    /\ forallb (fun x => negb (ReplicationClient.reaches replica_commit x)) after = true
    /\ (exists skipped,
          ReplicationClient.longest_chain (earlier ++ [newest]) = skipped ++ w :: after)
    /\ let chain := if to_timestamp w <=? replica_commit then after else w :: after in
       chain <> []
       /\ ReplicationClient.GetRecoverySteps sort_snapshots replica_commit wal_file_
            (Some (earlier ++ [newest])) snapshot_files
          = Some (ReplicationClient.RecoveryWals (map wal_path chain)
                    :: ReplicationClient.current_wal_step wal_file_,
                  map wal_path chain).
Proof.
  intros Hbehind Hchain Hfirst.
  rewrite longest_chain_snoc in Hchain.
  assert (Hex : existsb (ReplicationClient.reaches replica_commit)
                  (ReplicationClient.chain_before newest (newest :: rev earlier)) = true).
  { apply existsb_exists. exists first. split.
    - apply in_rev. rewrite Hchain. now left.
    - unfold ReplicationClient.reaches. apply orb_true_iff. left. now apply Z.leb_le. }
  destruct (split_at_first _ _ Hex) as [pre [w [post [Hsplit [Hpre Hw]]]]].
  destruct (find_wal_chain_some replica_commit pre newest (newest :: rev earlier) w post
              Hsplit Hpre Hw) as [older [Hlist Hfind]].
  assert (Hfiles : earlier ++ [newest] = rev older ++ w :: rev pre).
  { rewrite <- (rev_involutive (earlier ++ [newest])). rewrite rev_app_distr.
    simpl rev at 2. simpl app. rewrite Hlist. rewrite rev_app_distr. simpl.
    now rewrite <- app_assoc. }
  exists (rev older), w, (rev pre).
  split; [exact Hfiles |]. split; [exact Hw |].
  split; [now rewrite forallb_rev |].
  split.
  { exists (rev post). rewrite longest_chain_snoc, Hsplit, rev_app_distr. simpl.
    now rewrite <- app_assoc. }
  cbv zeta.
  assert (Hne : (to_timestamp w <=? replica_commit) = true -> pre <> []).
  { intros Hto Hnil. subst pre. simpl in Hlist. injection Hlist as Hn _. subst w.
    apply Z.leb_le in Hto. lia. }
  split.
  { destruct (to_timestamp w <=? replica_commit); [| discriminate].
    intros E. apply (Hne eq_refl). apply (f_equal (@rev _)) in E.
    rewrite rev_involutive in E. exact E. }
  unfold ReplicationClient.GetRecoverySteps.
  assert (Hrev : rev (earlier ++ [newest]) = newest :: rev earlier)
    by (now rewrite rev_app_distr).
  rewrite Hrev. cbv beta iota zeta.
  assert (Hto : (to_timestamp newest <=? replica_commit) = false) by (apply Z.leb_gt; lia).
  rewrite Hto, Hfind, Hfiles.
  destruct (to_timestamp w <=? replica_commit) eqn:Hskip.
  - destruct pre as [| p pre']; [now elim (Hne eq_refl) |].
    assert (Hlen : (length (rev older ++ w :: rev (p :: pre')) <=? S (length older))%nat = false).
    { apply Nat.leb_gt. rewrite length_app, length_rev. simpl. rewrite length_app. simpl. lia. }
    rewrite Hlen.
    replace (rev older ++ w :: rev (p :: pre')) with ((rev older ++ [w]) ++ rev (p :: pre'))
      by (now rewrite <- app_assoc).
    replace (S (length older)) with (length (rev older ++ [w]))
      by (rewrite length_app, length_rev; simpl; lia).
    rewrite skipn_length_app. reflexivity.
  - assert (Hlen : (length (rev older ++ w :: rev pre) <=? length older)%nat = false).
    { apply Nat.leb_gt. rewrite length_app, length_rev. simpl. lia. }
    rewrite Hlen. rewrite <- (length_rev older) at 1 2.
    rewrite skipn_length_app. reflexivity.
Qed.

(** C1, as the code has it.  When the newest finalized WAL ends after the
    commit of the replica and no file of the longest chain of sequential WAL
    files reaches back to that commit, the plan is the latest snapshot, then
    one [RecoveryWals] step, then the current WAL when there is one.  With [w]
    the first file that ends after the start of the snapshot, the files sent
    are: [w] and all files after it when [w] starts at or before the snapshot
    (these are exactly the files that end after the snapshot when the later
    ones do); the file before [w], [w] and all files after it when [w] starts
    after the snapshot ([w] being the oldest file, the [CHECK] fails); only
    the newest file when no file ends after the snapshot. *)
Theorem GetRecoverySteps_snapshot_then_wals
  (sort_snapshots : list SnapshotDurabilityInfo -> list SnapshotDurabilityInfo)
  (replica_commit : Z) (wal_file_ : option Z)
  (earlier : list WalDurabilityInfo) (newest : WalDurabilityInfo)
  (snapshot_files : list SnapshotDurabilityInfo) (latest : SnapshotDurabilityInfo) :
  replica_commit < to_timestamp newest ->
  forallb (fun w => negb (ReplicationClient.reaches replica_commit w))
    (ReplicationClient.longest_chain (earlier ++ [newest])) = true ->
  ReplicationClient.latest_of (sort_snapshots snapshot_files) = Some latest ->
  let start := start_timestamp latest in
  let result :=
    ReplicationClient.GetRecoverySteps sort_snapshots replica_commit wal_file_
      (Some (earlier ++ [newest])) snapshot_files in
  let snapshot_then files :=
    Some (ReplicationClient.RecoverySnapshot (snapshot_path latest)
            :: ReplicationClient.RecoveryWals (map wal_path files)
            :: ReplicationClient.current_wal_step wal_file_,
          snapshot_path latest :: map wal_path files) in
  (forall before w after,
      earlier ++ [newest] = before ++ w :: after ->
      forallb (fun x => to_timestamp x <=? start) before = true ->
      start < to_timestamp w ->
      (from_timestamp w <= start ->
       result = snapshot_then (w :: after)
       /\ (forallb (fun x => start <? to_timestamp x) after = true ->
           w :: after = filter (fun x => start <? to_timestamp x) (earlier ++ [newest])))
      /\ (start < from_timestamp w ->
          match rev before with
          | [] => result = None
          | v :: _ => result = snapshot_then (v :: w :: after)
          end))
  /\ (forallb (fun x => to_timestamp x <=? start) (earlier ++ [newest]) = true ->
      result = snapshot_then [newest]).
Proof.
  intros Hbehind Hnochain Hlatest. cbv zeta.
  assert (Hhead : ReplicationClient.GetRecoverySteps sort_snapshots replica_commit wal_file_
                    (Some (earlier ++ [newest])) snapshot_files
                  = match ReplicationClient.snapshot_wal_start (start_timestamp latest)
                            (earlier ++ [newest]) 0 with
                    | None => None
                    | Some wal_it =>
                        let recovery_wal_files :=
                          match map wal_path (skipn wal_it (earlier ++ [newest])) with
                          | [] => [wal_path newest]
                          | files => files
                          end in
                        Some (ReplicationClient.RecoverySnapshot (snapshot_path latest)
                                :: ReplicationClient.RecoveryWals recovery_wal_files
                                :: ReplicationClient.current_wal_step wal_file_,
                              snapshot_path latest :: recovery_wal_files)
                    end).
  { unfold ReplicationClient.GetRecoverySteps.
    assert (Hrev : rev (earlier ++ [newest]) = newest :: rev earlier)
      by (now rewrite rev_app_distr).
    rewrite Hrev. cbv beta iota zeta.
    assert (Hto : (to_timestamp newest <=? replica_commit) = false)
      by (apply Z.leb_gt; lia).
    rewrite Hto, Hlatest.
    rewrite longest_chain_snoc, forallb_rev in Hnochain.
    rewrite (find_wal_chain_none replica_commit (newest :: rev earlier) newest Hnochain).
    reflexivity. }
  rewrite Hhead. clear Hhead. split.
  - intros before w after Hfiles Hbefore Hto. rewrite Hfiles.
    rewrite snapshot_wal_start_skip by exact Hbefore. simpl.
    assert (E : (start_timestamp latest <? to_timestamp w) = true) by (now apply Z.ltb_lt).
    rewrite E. split.
    + intros Hfrom.
      assert (E' : (start_timestamp latest <? from_timestamp w) = false)
        by (apply Z.ltb_ge; lia).
      rewrite E'. rewrite skipn_length_app. split; [reflexivity |].
      intros Hafter. symmetry. apply (filter_suffix _ before (w :: after)).
      * clear - Hbefore. induction before as [| x l IH]; simpl in *; [reflexivity |].
        apply andb_true_iff in Hbefore. destruct Hbefore as [H1 H2].
        rewrite (IH H2), andb_true_r. apply negb_true_iff. apply Z.ltb_ge.
        now apply Z.leb_le.
      * simpl. now rewrite E, Hafter.
    + intros Hfrom.
      assert (E' : (start_timestamp latest <? from_timestamp w) = true) by (now apply Z.ltb_lt).
      rewrite E'.
      destruct before as [| b before'] using rev_ind; [reflexivity |].
      rewrite rev_app_distr. simpl rev. simpl app at 1.
      rewrite length_app. simpl length. rewrite Nat.add_1_r. cbv beta iota zeta.
      rewrite <- app_assoc. simpl app at 2 4.
      rewrite skipn_length_app. reflexivity.
  - intros Hall. rewrite snapshot_wal_start_end by exact Hall. simpl.
    rewrite skipn_all. reflexivity.
Qed.

(** "Replication catch-up via WAL chain": the replica is at [t5 = 50] and the
    main instance has the WAL files 4 to 7; exactly the files 5, 6 and 7 are
    sent. *)
Lemma GetRecoverySteps_wal_chain_witness :
  ReplicationClient.GetRecoverySteps Scenario.as_listed 50 None
    (Some Scenario.wals_4_to_7) []
  = Some ([ReplicationClient.RecoveryWals ["wal5"; "wal6"; "wal7"]%string],
          ["wal5"; "wal6"; "wal7"]%string).
Proof.
  destruct (GetRecoverySteps_wal_chain Scenario.as_listed 50 None
              [Scenario.wal 4 40 49 "wal4"; Scenario.wal 5 50 59 "wal5";
               Scenario.wal 6 60 69 "wal6"]
              (Scenario.wal 7 70 79 "wal7") []
              (Scenario.wal 4 40 49 "wal4")
              [Scenario.wal 5 50 59 "wal5"; Scenario.wal 6 60 69 "wal6";
               Scenario.wal 7 70 79 "wal7"])
    as [before [w [after [Hsplit [Hw [Hafter [_ [_ Hplan]]]]]]]].
  - simpl. lia.
  - reflexivity.
  - simpl. lia.
  - change ([Scenario.wal 4 40 49 "wal4"; Scenario.wal 5 50 59 "wal5";
             Scenario.wal 6 60 69 "wal6"] ++ [Scenario.wal 7 70 79 "wal7"])
      with Scenario.wals_4_to_7 in *.
    rewrite Hplan.
    destruct before as [| b1 [| b2 [| b3 [| b4 before]]]];
      simpl in Hsplit; injection Hsplit as; subst;
      try discriminate Hw; try discriminate Hafter.
    + reflexivity.
    + destruct before; discriminate.
Defined.

(** C2 as stated fails: the replica is at the last timestamp of the newest
    finalized WAL, which the chain of the WAL files 4 to 7 covers, and no
    finalized WAL is sent: the plan is the timestamp of the latest snapshot,
    or the current WAL when one is being written. *)
Lemma GetRecoverySteps_replica_at_newest_wal :
  ReplicationClient.longest_chain Scenario.wals_4_to_7 = Scenario.wals_4_to_7
  /\ 40 <= 79 <= 79
  /\ ReplicationClient.GetRecoverySteps Scenario.as_listed 79 None
       (Some Scenario.wals_4_to_7) [Scenario.snapshot_at_end_of_wal7]
     = Some ([ReplicationClient.RecoveryFinalSnapshot 79], ["snapshot7"%string])
  /\ ReplicationClient.GetRecoverySteps Scenario.as_listed 79 (Some 8)
       (Some Scenario.wals_4_to_7) [Scenario.snapshot_at_end_of_wal7]
     = Some ([ReplicationClient.RecoveryCurrentWal 8], []).
Proof.
  split; [reflexivity |]. split; [lia |]. split; reflexivity.
Qed.

(** "Replication catch-up via snapshot + WALs": the replica is at [t0 = 0],
    the latest snapshot at [t5 = 50], and WAL 6 was being written when the
    snapshot was taken; the snapshot is sent, then the files 6 and 7. *)
Lemma GetRecoverySteps_snapshot_then_wals_witness :
  ReplicationClient.GetRecoverySteps Scenario.as_listed 0 None
    (Some Scenario.wals_6_7) [Scenario.snapshot_at_t5]
  = Some ([ReplicationClient.RecoverySnapshot "snapshot5";
           ReplicationClient.RecoveryWals ["wal6"; "wal7"]%string],
          ["snapshot5"; "wal6"; "wal7"]%string).
Proof.
  destruct (GetRecoverySteps_snapshot_then_wals Scenario.as_listed 0 None
              [Scenario.wal 6 50 69 "wal6"] (Scenario.wal 7 70 79 "wal7")
              [Scenario.snapshot_at_t5] Scenario.snapshot_at_t5)
    as [Hfirst _].
  - simpl. lia.
  - reflexivity.
  - reflexivity.
  - destruct (Hfirst [] (Scenario.wal 6 50 69 "wal6") [Scenario.wal 7 70 79 "wal7"])
      as [Hinside _].
    + reflexivity.
    + reflexivity.
    + simpl. lia.
    + destruct Hinside as [Hplan _].
      * simpl. lia.
      * exact Hplan.
Defined.

(** C1 as stated fails: the snapshot was taken at the last timestamp of WAL 5
    and the replica is at 0.  The files that end after the snapshot are 6 and
    7, but WAL 6 starts after the snapshot, so the code also sends the file
    before it, WAL 5. *)
Lemma GetRecoverySteps_sends_wal_before_snapshot :
  filter (fun w => start_timestamp Scenario.snapshot_at_t5 <? to_timestamp w)
    Scenario.wals_5_6_7
  = [Scenario.wal 6 60 69 "wal6"; Scenario.wal 7 70 79 "wal7"]
  /\ forallb (fun w => negb (ReplicationClient.reaches 0 w))
       (ReplicationClient.longest_chain Scenario.wals_5_6_7) = true
  /\ ReplicationClient.GetRecoverySteps Scenario.as_listed 0 None
       (Some Scenario.wals_5_6_7) [Scenario.snapshot_at_t5]
     = Some ([ReplicationClient.RecoverySnapshot "snapshot5";
              ReplicationClient.RecoveryWals ["wal5"; "wal6"; "wal7"]%string],
             ["snapshot5"; "wal5"; "wal6"; "wal7"]%string)
  /\ ReplicationClient.GetRecoverySteps Scenario.as_listed 0 None
       (Some Scenario.wals_5_6_7) [Scenario.snapshot_at_t5]
     <> Some ([ReplicationClient.RecoverySnapshot "snapshot5";
               ReplicationClient.RecoveryWals
                 (map wal_path
                    (filter (fun w => start_timestamp Scenario.snapshot_at_t5
                                      <? to_timestamp w)
                       Scenario.wals_5_6_7))],
              "snapshot5"%string
              :: map wal_path
                   (filter (fun w => start_timestamp Scenario.snapshot_at_t5
                                     <? to_timestamp w)
                      Scenario.wals_5_6_7)).
Proof.
  split; [reflexivity |]. split; [reflexivity |]. split; [reflexivity |].
  discriminate.
Qed.

(* ================================================================== *)
(** * Further properties of the code *)

(** ** PreviousPtr: reading a stored word *)

Lemma low_bits_cases (s : Z) :
  Z.land s PreviousPtr.kMask = 0 \/ Z.land s PreviousPtr.kMask = 1
  \/ Z.land s PreviousPtr.kMask = 2 \/ Z.land s PreviousPtr.kMask = 3.
Proof.
  unfold PreviousPtr.kMask. change (Z.land s 3) with (Z.land s (Z.ones 2)).
  rewrite Z.land_ones by lia.
  change (2 ^ 2) with 4. pose proof (Z.mod_pos_bound s 4). lia.
Qed.

(** X1. [GetType] and the getters read the same two bits: the getter of the
    type [GetType] answers is the only one whose [CHECK] passes, and it returns
    the word with the tag masked off; on a word without a tag (a default
    constructed [PreviousPtr], or an aligned pointer stored without [Set])
    [GetType] is fatal and every getter fails its [CHECK]. *)
Theorem PreviousPtr_getters_agree_with_GetType (s : Z) :
  match PreviousPtr.GetType s with
  | Some PreviousPtr.DELTA =>
      PreviousPtr.GetDelta s = Some (Z.land s PreviousPtr.not_kMask)
      /\ PreviousPtr.GetVertex s = None /\ PreviousPtr.GetEdge s = None
  | Some PreviousPtr.VERTEX =>
      PreviousPtr.GetVertex s = Some (Z.land s PreviousPtr.not_kMask)
      /\ PreviousPtr.GetDelta s = None /\ PreviousPtr.GetEdge s = None
  | Some PreviousPtr.EDGE =>
      PreviousPtr.GetEdge s = Some (Z.land s PreviousPtr.not_kMask)
      /\ PreviousPtr.GetDelta s = None /\ PreviousPtr.GetVertex s = None
  | None =>
      Z.land s PreviousPtr.kMask = 0
      /\ PreviousPtr.GetDelta s = None /\ PreviousPtr.GetVertex s = None
      /\ PreviousPtr.GetEdge s = None
  end.
Proof.
  unfold PreviousPtr.GetType, PreviousPtr.GetDelta, PreviousPtr.GetVertex,
    PreviousPtr.GetEdge. cbv zeta.
  destruct (low_bits_cases s) as [E | [E | [E | E]]]; rewrite E; simpl; auto.
Qed.

Lemma add_nocarry_lor (a b : Z) : Z.land a b = 0 -> a + b = Z.lor a b.
Proof.
  intros H. rewrite Z.add_nocarry_lxor by exact H. now apply Z.lxor_lor.
Qed.

(** Putting back the tag that was read gives the stored word back. *)
Lemma retag (s tag : Z) :
  is_uint64 s -> 0 <= tag <= 3 -> Z.land s PreviousPtr.kMask = tag ->
  Z.lor (Z.land s PreviousPtr.not_kMask) tag = s.
Proof.
  intros Hs Ht Htag. apply Z.bits_inj'. intros n Hn.
  rewrite Z.lor_spec, Z.land_spec, not_kMask_bits by lia.
  destruct (Z.leb_spec 2 n) as [H2 | H2]; simpl.
  - rewrite (tag_high_bits tag n) by lia. rewrite orb_false_r.
    destruct (Z.ltb_spec n 64); [apply andb_true_r |].
    rewrite (pointer_high_bits s n) by (auto; lia). reflexivity.
  - rewrite andb_false_r. simpl. rewrite <- Htag.
    rewrite Z.land_spec, kMask_bits by lia.
    destruct (Z.ltb_spec n 2); [| lia]. now rewrite andb_true_r.
Qed.

Lemma masked_low_bits (s : Z) :
  Z.land (Z.land s PreviousPtr.not_kMask) PreviousPtr.kMask = 0.
Proof.
  apply Z.bits_inj'. intros n Hn.
  rewrite !Z.land_spec, not_kMask_bits, kMask_bits, Z.bits_0 by lia.
  destruct (Z.leb_spec 2 n), (Z.ltb_spec n 2); simpl; try lia;
    now rewrite ?andb_false_r.
Qed.

(** Masking the tag off subtracts it. *)
Lemma masked_off_value (s : Z) :
  is_uint64 s ->
  Z.land s PreviousPtr.not_kMask = s - Z.land s PreviousPtr.kMask.
Proof.
  intros Hs.
  assert (Ht : 0 <= Z.land s PreviousPtr.kMask <= 3)
    by (destruct (low_bits_cases s) as [E | [E | [E | E]]]; rewrite E; lia).
  pose proof (retag s _ Hs Ht eq_refl) as Hre.
  rewrite <- add_nocarry_lor in Hre; [lia |].
  apply Z.bits_inj'. intros n Hn.
  rewrite !Z.land_spec, not_kMask_bits, kMask_bits, Z.bits_0 by lia.
  destruct (Z.leb_spec 2 n), (Z.ltb_spec n 2); simpl; try lia;
    now rewrite ?andb_false_r.
Qed.

Lemma get_then_set_tagged (s p tag : Z) :
  is_uint64 s -> 0 <= tag <= 3 ->
  (if Z.land s PreviousPtr.kMask =? tag
   then Some (Z.land s PreviousPtr.not_kMask) else None) = Some p ->
  PreviousPtr.is_pointer p /\ Z.land p PreviousPtr.kMask = 0
  /\ (if Z.land p PreviousPtr.kMask =? 0 then Some (Z.lor p tag) else None) = Some s.
Proof.
  intros Hs Ht H.
  destruct (Z.eqb_spec (Z.land s PreviousPtr.kMask) tag) as [E | _]; [| discriminate H].
  injection H as <-. split; [| split].
  - unfold PreviousPtr.is_pointer, is_uint64 in *.
    rewrite masked_off_value by exact Hs.
    assert (H0 : 0 <= Z.land s PreviousPtr.not_kMask) by (apply Z.land_nonneg; lia).
    rewrite masked_off_value in H0 by exact Hs. lia.
  - apply masked_low_bits.
  - rewrite masked_low_bits. simpl. f_equal. now apply retag.
Qed.

(** X2. Decoding then encoding: the pointer a getter returns is a pointer with
    clear tag bits, and the [Set] overload of the same type stores the very
    word it was read from. *)
Theorem PreviousPtr_get_then_set (s p : Z) :
  is_uint64 s ->
  (PreviousPtr.GetDelta s = Some p ->
   PreviousPtr.is_pointer p /\ Z.land p PreviousPtr.kMask = 0
   /\ PreviousPtr.Set_Delta p = Some s)
  /\ (PreviousPtr.GetVertex s = Some p ->
      PreviousPtr.is_pointer p /\ Z.land p PreviousPtr.kMask = 0
      /\ PreviousPtr.Set_Vertex p = Some s)
  /\ (PreviousPtr.GetEdge s = Some p ->
      PreviousPtr.is_pointer p /\ Z.land p PreviousPtr.kMask = 0
      /\ PreviousPtr.Set_Edge p = Some s).
Proof.
  intros Hs. split; [| split]; intros H.
  - apply (get_then_set_tagged s p PreviousPtr.kDelta Hs); [| exact H].
    unfold PreviousPtr.kDelta. lia.
  - apply (get_then_set_tagged s p PreviousPtr.kVertex Hs); [| exact H].
    unfold PreviousPtr.kVertex. lia.
  - apply (get_then_set_tagged s p PreviousPtr.kEdge Hs); [| exact H].
    unfold PreviousPtr.kEdge. lia.
Qed.

(** The word [0x7ffe_0000_123a] holds a vertex pointer. *)
Lemma PreviousPtr_get_then_set_witness :
  PreviousPtr.GetVertex 140728898425402 = Some 140728898425400
  /\ PreviousPtr.Set_Vertex 140728898425400 = Some 140728898425402.
Proof.
  split; [reflexivity |].
  apply (PreviousPtr_get_then_set 140728898425402 140728898425400).
  - unfold is_uint64, uint64_modulus. lia.
  - reflexivity.
Defined.

Lemma lor_tag_is_add (p tag : Z) :
  Z.land p PreviousPtr.kMask = 0 -> 0 <= tag <= 3 -> Z.lor p tag = p + tag.
Proof.
  intros Hp Ht. symmetry. apply add_nocarry_lor.
  apply Z.bits_inj'. intros n Hn. rewrite Z.land_spec, Z.bits_0.
  destruct (Z.ltb_spec n 2).
  - pose proof (f_equal (fun x => Z.testbit x n) Hp) as E. cbv beta in E.
    rewrite Z.land_spec, Z.bits_0, kMask_bits in E by lia.
    destruct (Z.ltb_spec n 2); [| lia]. rewrite andb_true_r in E. now rewrite E.
  - rewrite (tag_high_bits tag n) by lia. apply andb_false_r.
Qed.

Lemma Set_inversion (s p tag : Z) :
  0 <= tag <= 3 ->
  (if Z.land p PreviousPtr.kMask =? 0 then Some (Z.lor p tag) else None) = Some s ->
  s = p + tag /\ Z.land s PreviousPtr.kMask = tag.
Proof.
  intros Ht H. destruct (Z.eqb_spec (Z.land p PreviousPtr.kMask) 0) as [E | _];
    [| discriminate H].
  injection H as <-. split; [now apply lor_tag_is_add | now apply tag_read_back].
Qed.

(** X3. [Set] loses nothing: the stored word determines both the overload that
    stored it and the pointer that was stored. *)
Theorem PreviousPtr_Set_injective (p q s : Z) :
  (PreviousPtr.Set_Delta p = Some s ->
   (PreviousPtr.Set_Delta q = Some s -> p = q)
   /\ PreviousPtr.Set_Vertex q <> Some s /\ PreviousPtr.Set_Edge q <> Some s)
  /\ (PreviousPtr.Set_Vertex p = Some s ->
      (PreviousPtr.Set_Vertex q = Some s -> p = q)
      /\ PreviousPtr.Set_Delta q <> Some s /\ PreviousPtr.Set_Edge q <> Some s)
  /\ (PreviousPtr.Set_Edge p = Some s ->
      (PreviousPtr.Set_Edge q = Some s -> p = q)
      /\ PreviousPtr.Set_Delta q <> Some s /\ PreviousPtr.Set_Vertex q <> Some s).
Proof.
  unfold PreviousPtr.Set_Delta, PreviousPtr.Set_Vertex, PreviousPtr.Set_Edge. cbv zeta.
  assert (Hd : 0 <= PreviousPtr.kDelta <= 3) by (unfold PreviousPtr.kDelta; lia).
  assert (Hv : 0 <= PreviousPtr.kVertex <= 3) by (unfold PreviousPtr.kVertex; lia).
  assert (He : 0 <= PreviousPtr.kEdge <= 3) by (unfold PreviousPtr.kEdge; lia).
  repeat split; intros H';
    repeat match goal with
           | H : (if _ then Some (Z.lor _ ?tag) else None) = Some _ |- _ =>
               apply Set_inversion in H;
               [destruct H | unfold PreviousPtr.kDelta, PreviousPtr.kVertex, PreviousPtr.kEdge; lia]
           end;
    unfold PreviousPtr.kDelta, PreviousPtr.kVertex, PreviousPtr.kEdge in *; lia.
Qed.

(** ** Delta: what a move carries over *)

(** The payload a delta of the given action reads from its union. *)
Lemma well_formed_new_deltas key value l et vx ed ts cid :
  Delta.well_formed (Delta.new_DeleteObject ts cid) = true
  /\ Delta.well_formed (Delta.new_RecreateObject ts cid) = true
  /\ Delta.well_formed (Delta.new_AddLabel l ts cid) = true
  /\ Delta.well_formed (Delta.new_RemoveLabel l ts cid) = true
  /\ Delta.well_formed (Delta.new_SetProperty key value ts cid) = true
  /\ Delta.well_formed (Delta.new_VertexEdge Delta.ADD_IN_EDGE et vx ed ts cid) = true
  /\ Delta.well_formed (Delta.new_VertexEdge Delta.ADD_OUT_EDGE et vx ed ts cid) = true
  /\ Delta.well_formed (Delta.new_VertexEdge Delta.REMOVE_IN_EDGE et vx ed ts cid) = true
  /\ Delta.well_formed (Delta.new_VertexEdge Delta.REMOVE_OUT_EDGE et vx ed ts cid) = true.
Proof. repeat split. Qed.

(** X4. The move constructor carries the whole delta over: the new delta has
    the action, timestamp, command id, [prev] and [next] of the source and, for
    an action with a payload, the payload the source held (for [SET_PROPERTY],
    the key and the very value); it is well formed again, so is the moved-from
    delta, and the destructors of both run without touching a destroyed value.
    *)
Theorem Delta_move_constructor_carries_over (other : Delta.Delta) :
  Delta.well_formed other = true ->
  exists this other',
    Delta.move_constructor other = Some (this, other')
    /\ Delta.action this = Delta.action other
    /\ Delta.timestamp this = Delta.timestamp other
    /\ Delta.command_id this = Delta.command_id other
    /\ Delta.prev this = Delta.prev other
    /\ Delta.next this = Delta.next other
    /\ (Delta.action other <> Delta.DELETE_OBJECT ->
        Delta.action other <> Delta.RECREATE_OBJECT ->
        this = other)
    /\ Delta.well_formed this = true
    /\ Delta.well_formed other' = true
    /\ (exists gone, Delta.destructor this = Some gone)
    /\ Delta.destructor other' = Some other'.
Proof.
  intros Hwf. destruct other as [a ts cid pv nx u].
  unfold Delta.well_formed in Hwf. simpl in Hwf.
  destruct a; destruct u as [| l | key [v |] | et vx ed]; try discriminate Hwf;
    unfold Delta.move_constructor, Delta.move_members; simpl;
    do 2 eexists; (split; [reflexivity |]); simpl;
    do 5 (split; [reflexivity |]);
    (split; [intros H1 H2; first [reflexivity | now elim H1 | now elim H2] |]);
    do 2 (split; [reflexivity |]);
    (split; [eexists; reflexivity | reflexivity]).
Qed.

(** A [SET_PROPERTY] delta is moved: the new delta is the old one. *)
Lemma Delta_move_constructor_carries_over_witness :
  exists other',
    Delta.move_constructor
      (Delta.new_SetProperty 7 (PropertyValue.String "nandare") 4096 1)
    = Some (Delta.new_SetProperty 7 (PropertyValue.String "nandare") 4096 1, other').
Proof.
  destruct (Delta_move_constructor_carries_over
              (Delta.new_SetProperty 7 (PropertyValue.String "nandare") 4096 1))
    as [this [other' [Hm [_ [_ [_ [_ [_ [Hsame _]]]]]]]]].
  - reflexivity.
  - exists other'. rewrite Hm. f_equal. f_equal. apply Hsame; discriminate.
Defined.

(** X5. Deltas can be moved again and again (a container that relocates its
    elements): moving the delta a move produced gives the same delta, and every
    delta left behind on the way can be destroyed. *)
Theorem Delta_move_twice (other this other' : Delta.Delta) :
  Delta.well_formed other = true ->
  Delta.move_constructor other = Some (this, other') ->
  exists moved_from,
    Delta.move_constructor this = Some (this, moved_from)
    /\ Delta.action moved_from = Delta.DELETE_OBJECT
    /\ Delta.destructor moved_from = Some moved_from
    /\ Delta.destructor other' = Some other'.
Proof.
  intros Hwf Hm. destruct other as [a ts cid pv nx u].
  unfold Delta.well_formed in Hwf. simpl in Hwf.
  destruct a; destruct u as [| l | key [v |] | et vx ed]; try discriminate Hwf;
    unfold Delta.move_constructor, Delta.move_members in Hm; simpl in Hm;
    injection Hm as <- <-; eexists; repeat split.
Qed.

Lemma Delta_move_twice_witness :
  exists moved_from,
    Delta.move_constructor (Delta.new_AddLabel 3 4096 1)
    = Some (Delta.new_AddLabel 3 4096 1, moved_from)
    /\ Delta.action moved_from = Delta.DELETE_OBJECT.
Proof.
  destruct (Delta_move_twice (Delta.new_AddLabel 3 4096 1)
              (Delta.new_AddLabel 3 4096 1)
              (Delta.with_action Delta.DELETE_OBJECT (Delta.new_AddLabel 3 4096 1)))
    as [moved_from [Hm [Ha _]]].
  - reflexivity.
  - reflexivity.
  - exists moved_from. split; assumption.
Defined.

(** ** Recovery plans: what every plan looks like *)

Lemma all_sequential_front (l : list WalDurabilityInfo) (a : WalDurabilityInfo) :
  ReplicationClient.all_sequential (l ++ [a]) = true ->
  ReplicationClient.all_sequential l = true.
Proof.
  induction l as [| x l IH]; [reflexivity |].
  destruct l as [| y l]; [reflexivity |].
  simpl. intros H. apply andb_true_iff in H. destruct H as [H1 H2].
  rewrite H1. simpl. apply IH. exact H2.
Qed.

Lemma all_sequential_tail (x : WalDurabilityInfo) (l : list WalDurabilityInfo) :
  ReplicationClient.all_sequential (x :: l) = true ->
  ReplicationClient.all_sequential l = true.
Proof.
  destruct l as [| y l]; [reflexivity |]. simpl. intros H.
  apply andb_true_iff in H. now destruct H.
Qed.

(** What the chain search has seen when it stops: the files it stepped over
    do not reach back to the commit of the replica, the file it stops at
    does, and from that file to the one the search started after, every file
    is sequential with the next. *)
Lemma find_wal_chain_inv (replica_commit : Z) (rwals : list WalDurabilityInfo) :
  forall newer d,
    ReplicationClient.find_wal_chain replica_commit (seq_num newer) rwals = Some d ->
    exists pre w older,
      rwals = pre ++ w :: older
      /\ forallb (fun x => negb (ReplicationClient.reaches replica_commit x)) pre = true
      /\ ReplicationClient.reaches replica_commit w = true
      /\ d = (if to_timestamp w <=? replica_commit
              then S (length older) else length older)
      /\ ReplicationClient.all_sequential (rev (newer :: pre ++ [w])) = true.
Proof.
  induction rwals as [| x rest IH]; intros newer d H; [discriminate H |].
  simpl in H. rewrite sequential_no_gap in H.
  destruct (ReplicationClient.sequential x newer) eqn:Hseq; [| discriminate H].
  simpl in H.
  destruct ((from_timestamp x <=? replica_commit) || (seq_num x =? 0)) eqn:Hreach.
  - injection H as <-. exists [], x, rest. simpl. rewrite Hseq. auto.
  - destruct (IH x d H) as [pre [w [older [Hlist [Hpre [Hw [Hd Hlinks]]]]]]].
    exists (x :: pre), w, older. split; [simpl; now rewrite Hlist |].
    split; [simpl; unfold ReplicationClient.reaches at 1; now rewrite Hreach |].
    split; [exact Hw |]. split; [exact Hd |].
    change (rev (newer :: (x :: pre) ++ [w]))
      with (rev ((x :: pre) ++ [w]) ++ [newer]).
    change (rev (x :: pre ++ [w])) with (rev (pre ++ [w]) ++ [x]) in Hlinks.
    change (rev ((x :: pre) ++ [w])) with (rev (pre ++ [w]) ++ [x]).
    apply all_sequential_snoc; assumption.
Qed.

(** The first loop of the snapshot branch never stops after a file that ends
    after the snapshot. *)
Lemma snapshot_wal_start_keeps (start : Z) (wals : list WalDurabilityInfo) :
  forall pos j w,
    ReplicationClient.snapshot_wal_start start wals pos = Some j ->
    In w wals -> start < to_timestamp w ->
    In w (skipn (j - pos) wals).
Proof.
  induction wals as [| x rest IH]; intros pos j w H Hin Hto; [destruct Hin |].
  simpl in H. destruct (start <? to_timestamp x) eqn:Hx.
  - assert (E : (j - pos = 0)%nat).
    { destruct (start <? from_timestamp x).
      - destruct pos; [discriminate H |]. injection H as <-. lia.
      - injection H as <-. lia. }
    rewrite E. exact Hin.
  - destruct Hin as [-> | Hin].
    + apply Z.ltb_ge in Hx. lia.
    + specialize (IH (S pos) j w H Hin Hto).
      destruct (j - pos)%nat as [| k] eqn:E; [now right |].
      replace (j - S pos)%nat with k in IH by lia. exact IH.
Qed.

Lemma snapshot_wal_start_succ (start : Z) (wals : list WalDurabilityInfo) :
  forall pos, ReplicationClient.snapshot_wal_start start wals (S pos) <> None.
Proof.
  induction wals as [| x rest IH]; intros pos; simpl; [discriminate |].
  destruct (start <? to_timestamp x); [| apply IH].
  destruct (start <? from_timestamp x); discriminate.
Qed.

Lemma skipn_cons_nonempty {A} (k : nat) (l : list A) :
  (k < length l)%nat -> skipn k l <> [].
Proof.
  intros H E. apply (f_equal (@length A)) in E. rewrite length_skipn in E. simpl in E. lia.
Qed.

Lemma rev_cons_last {A} (l : list A) (x : A) (r : list A) :
  rev l = x :: r -> l = rev r ++ [x].
Proof.
  intros H. rewrite <- (rev_involutive l), H. reflexivity.
Qed.

(** X6. Every plan has one of four shapes: the current WAL alone; the timestamp
    of the latest snapshot alone (only without a current WAL); one
    [RecoveryWals] step; or the latest snapshot and one [RecoveryWals] step.
    The last two are followed by the current WAL exactly when there is one.  A
    [RecoveryWals] step is never empty: it holds the paths of a tail of the WAL
    files, down to the newest one.  The files handed to the file locker are the
    files the steps transfer, in that order (and the snapshot whose timestamp
    alone is sent). *)
Theorem GetRecoverySteps_plan_shape
  (sort_snapshots : list SnapshotDurabilityInfo -> list SnapshotDurabilityInfo)
  (replica_commit : Z) (wal_file_ : option Z)
  (wal_files : list WalDurabilityInfo)
  (snapshot_files : list SnapshotDurabilityInfo)
  (steps : list ReplicationClient.RecoveryStep) (locked : list string) :
  ReplicationClient.GetRecoverySteps sort_snapshots replica_commit wal_file_
    (Some wal_files) snapshot_files = Some (steps, locked) ->
  (exists n, wal_file_ = Some n
             /\ steps = [ReplicationClient.RecoveryCurrentWal n] /\ locked = [])
  \/ (exists s, wal_file_ = None
                /\ ReplicationClient.latest_of (sort_snapshots snapshot_files) = Some s
                /\ steps = [ReplicationClient.RecoveryFinalSnapshot (start_timestamp s)]
                /\ locked = [snapshot_path s])
  \/ (exists k, (k < length wal_files)%nat
                /\ steps = ReplicationClient.RecoveryWals
                             (map wal_path (skipn k wal_files))
                           :: ReplicationClient.current_wal_step wal_file_
                /\ locked = map wal_path (skipn k wal_files))
  \/ (exists s k, ReplicationClient.latest_of (sort_snapshots snapshot_files) = Some s
                  /\ (k < length wal_files)%nat
                  /\ steps = ReplicationClient.RecoverySnapshot (snapshot_path s)
                             :: ReplicationClient.RecoveryWals
                                  (map wal_path (skipn k wal_files))
                             :: ReplicationClient.current_wal_step wal_file_
                  /\ locked = snapshot_path s :: map wal_path (skipn k wal_files)).
Proof.
  unfold ReplicationClient.GetRecoverySteps. cbv zeta. intros H.
  assert (Hearly : forall r,
             ReplicationClient.current_wal_or_final_snapshot wal_file_
               (ReplicationClient.latest_of (sort_snapshots snapshot_files)) = Some r ->
             (exists n, wal_file_ = Some n
                        /\ fst r = [ReplicationClient.RecoveryCurrentWal n] /\ snd r = [])
             \/ (exists s, wal_file_ = None
                   /\ ReplicationClient.latest_of (sort_snapshots snapshot_files) = Some s
                   /\ fst r = [ReplicationClient.RecoveryFinalSnapshot (start_timestamp s)]
                   /\ snd r = [snapshot_path s])).
  { unfold ReplicationClient.current_wal_or_final_snapshot. intros r Hr.
    destruct wal_file_ as [n |].
    - injection Hr as <-. left. exists n. auto.
    - destruct (ReplicationClient.latest_of _) as [s |]; [| discriminate Hr].
      injection Hr as <-. right. exists s. auto. }
  destruct (rev wal_files) as [| newest older] eqn:Hrev.
  - destruct (Hearly _ H) as [[n [? [? ?]]] | [s [? [? [? ?]]]]]; simpl in *; subst;
      [left | right; left]; eauto.
  - destruct (to_timestamp newest <=? replica_commit).
    + destruct (Hearly _ H) as [[n [? [? ?]]] | [s [? [? [? ?]]]]]; simpl in *; subst;
        [left | right; left]; eauto.
    + destruct (ReplicationClient.find_wal_chain _ _ _) as [d |].
      * destruct (Nat.leb_spec (length wal_files) d) as [| Hd]; [discriminate H |].
        injection H as <- <-. right; right; left. exists d. auto.
      * destruct (ReplicationClient.latest_of _) as [s |]; [| discriminate H].
        destruct (ReplicationClient.snapshot_wal_start _ _ _) as [j |]; [| discriminate H].
        right; right; right. exists s.
        apply rev_cons_last in Hrev.
        destruct (map wal_path (skipn j wal_files)) as [| f fs] eqn:Hfiles.
        -- exists (length (rev older)). injection H as <- <-.
           rewrite Hrev, skipn_length_app, length_app. simpl.
           repeat split. lia.
        -- exists j. injection H as <- <-. rewrite Hfiles. repeat split.
           destruct (Nat.lt_ge_cases j (length wal_files)) as [Hlt | Hge]; [exact Hlt |].
           rewrite skipn_all2 in Hfiles by exact Hge. discriminate Hfiles.
Qed.

(** The replica at 50 and the WAL files 4 to 7: the plan is one [RecoveryWals]
    step with the files from index 1 on. *)
Lemma GetRecoverySteps_plan_shape_witness :
  exists k,
    (k < 4)%nat
    /\ [ReplicationClient.RecoveryWals ["wal5"; "wal6"; "wal7"]%string]
       = [ReplicationClient.RecoveryWals (map wal_path (skipn k Scenario.wals_4_to_7))].
Proof.
  destruct (GetRecoverySteps_plan_shape Scenario.as_listed 50 None Scenario.wals_4_to_7 []
              [ReplicationClient.RecoveryWals ["wal5"; "wal6"; "wal7"]%string]
              ["wal5"; "wal6"; "wal7"]%string eq_refl)
    as [[n [H _]] | [[s [_ [H _]]] | [[k [Hk [Hs _]]] | [s [k [H _]]]]]];
    try discriminate H.
  exists k. split; [exact Hk | exact Hs].
Defined.

(** No plan holds an empty [RecoveryWals] step. *)
Lemma plan_wals_nonempty
  (sort_snapshots : list SnapshotDurabilityInfo -> list SnapshotDurabilityInfo)
  (replica_commit : Z) (wal_file_ : option Z)
  (wal_files : option (list WalDurabilityInfo))
  (snapshot_files : list SnapshotDurabilityInfo)
  (steps : list ReplicationClient.RecoveryStep) (locked : list string) (paths : list string) :
  ReplicationClient.GetRecoverySteps sort_snapshots replica_commit wal_file_
    wal_files snapshot_files = Some (steps, locked) ->
  In (ReplicationClient.RecoveryWals paths) steps -> paths <> [].
Proof.
  unfold ReplicationClient.GetRecoverySteps. cbv zeta. intros H Hin.
  assert (Hcur : ~ In (ReplicationClient.RecoveryWals paths)
                     (ReplicationClient.current_wal_step wal_file_)).
  { destruct wal_file_; simpl; [intros [E | []]; discriminate E | intros []]. }
  assert (Hearly : forall r,
             ReplicationClient.current_wal_or_final_snapshot wal_file_
               (ReplicationClient.latest_of (sort_snapshots snapshot_files)) = Some r ->
             ~ In (ReplicationClient.RecoveryWals paths) (fst r)).
  { unfold ReplicationClient.current_wal_or_final_snapshot. intros r Hr.
    destruct wal_file_ as [n |].
    - injection Hr as <-. simpl. intros [E | []]. discriminate E.
    - destruct (ReplicationClient.latest_of _) as [s |]; [| discriminate Hr].
      injection Hr as <-. simpl. intros [E | []]. discriminate E. }
  destruct wal_files as [wal_files |]; [| discriminate H].
  destruct (rev wal_files) as [| newest older] eqn:Hrev;
    [now elim (Hearly _ H) |].
  destruct (to_timestamp newest <=? replica_commit); [now elim (Hearly _ H) |].
  destruct (ReplicationClient.find_wal_chain _ _ _) as [d |].
  - destruct (Nat.leb_spec (length wal_files) d) as [| Hd]; [discriminate H |].
    injection H as <- <-. destruct Hin as [E | Hin]; [| now elim Hcur].
    injection E as <-. intros E. apply map_eq_nil in E.
    now apply (skipn_cons_nonempty d wal_files Hd).
  - destruct (ReplicationClient.latest_of _) as [s |]; [| discriminate H].
    destruct (ReplicationClient.snapshot_wal_start _ _ _) as [j |]; [| discriminate H].
    injection H as <- <-.
    destruct Hin as [E | [E | Hin]]; [discriminate E | | now elim Hcur].
    injection E as <-. destruct (map wal_path (skipn j wal_files)); discriminate.
Qed.

(** X7. [RecoverReplica] never calls [TransferWalFiles] with an empty list: on
    the steps of a plan of [GetRecoverySteps], the only [CHECK] the visitor can
    fail is the one on the file of the current WAL. *)
Theorem RecoverReplica_steps_run
  (sort_snapshots : list SnapshotDurabilityInfo -> list SnapshotDurabilityInfo)
  (replica_commit : Z) (wal_file_ : option Z)
  (wal_files : list WalDurabilityInfo)
  (snapshot_files : list SnapshotDurabilityInfo)
  (steps : list ReplicationClient.RecoveryStep) (locked : list string)
  (inputs : nat -> ReplicationClient.StepInput)
  (c : ReplicationClient.Client) :
  ReplicationClient.GetRecoverySteps sort_snapshots replica_commit wal_file_
    (Some wal_files) snapshot_files = Some (steps, locked) ->
  (forall i, ReplicationClient.step_current_wal_opens (inputs i) = true) ->
  exists state,
    ReplicationClient.recovery_steps inputs 0 steps (replica_commit, c) = Some state.
Proof.
  intros Hplan Hopens.
  assert (Hstep : forall i step rc c0,
             (forall paths, step = ReplicationClient.RecoveryWals paths -> paths <> []) ->
             exists state,
               ReplicationClient.recovery_step (inputs i) step (rc, c0) = Some state).
  { intros i step rc c0 Hne. unfold ReplicationClient.recovery_step.
    destruct step as [p | paths | n | ts].
    - destruct (ReplicationClient.step_reply (inputs i)) as [[ok t] |]; eauto.
    - destruct paths as [| f fs]; [now elim (Hne [] eq_refl) |].
      destruct (ReplicationClient.step_reply (inputs i)) as [[ok t] |]; eauto.
    - destruct (ReplicationClient.step_wal_file (inputs i)) as [m |]; [| eauto].
      destruct (m =? n); [| eauto].
      destruct (ReplicationClient.step_current_wal_stream (inputs i)); [| eauto].
      rewrite Hopens.
      destruct (ReplicationClient.step_reply (inputs i)) as [[ok t] |]; eauto.
    - destruct (ReplicationClient.step_reply (inputs i)) as [[ok t] |]; eauto. }
  assert (Hall : forall steps0 i rc c0,
             (forall paths, In (ReplicationClient.RecoveryWals paths) steps0 -> paths <> []) ->
             exists state,
               ReplicationClient.recovery_steps inputs i steps0 (rc, c0) = Some state).
  { induction steps0 as [| step rest IH]; intros i rc c0 Hne;
      cbn [ReplicationClient.recovery_steps]; [eauto |].
    destruct (Hstep i step rc c0) as [[rc1 c1] E].
    - intros paths ->. apply Hne. now left.
    - rewrite E. apply IH. intros paths Hin. apply Hne. now right. }
  apply Hall. intros paths Hin.
  exact (plan_wals_nonempty _ _ _ _ _ _ _ _ Hplan Hin).
Qed.

(** The plan for the replica at 50 and the WAL files 4 to 7 runs to its end
    whatever the replica answers. *)
Lemma RecoverReplica_steps_run_witness :
  exists state,
    ReplicationClient.recovery_steps
      (fun _ => {| ReplicationClient.step_wal_file := None;
                   ReplicationClient.step_current_wal_stream := RpcOk tt;
                   ReplicationClient.step_current_wal_opens := true;
                   ReplicationClient.step_reply := RpcFailedException |})
      0 [ReplicationClient.RecoveryWals ["wal5"; "wal6"; "wal7"]%string]
      (50, Scenario.replica ReplicationClient.RECOVERY) = Some state.
Proof.
  apply (RecoverReplica_steps_run Scenario.as_listed 50 None Scenario.wals_4_to_7 []
           [ReplicationClient.RecoveryWals ["wal5"; "wal6"; "wal7"]%string]
           ["wal5"; "wal6"; "wal7"]%string).
  - reflexivity.
  - reflexivity.
Defined.

(** X8. A plan without a snapshot is sound.  When the first step of a plan is
    [RecoveryWals], the files it names are a tail of the WAL files, down to the
    newest one, in which every file is sequential with the next (no file is
    missing in between), and its first file [w] covers what the replica lacks:
    [w] reaches back to the commit of the replica and ends after it, or [w]
    starts after that commit and directly follows, in sequence, a file that
    reaches back to it and of which the replica has every commit. *)
Theorem GetRecoverySteps_wals_only_sound
  (sort_snapshots : list SnapshotDurabilityInfo -> list SnapshotDurabilityInfo)
  (replica_commit : Z) (wal_file_ : option Z)
  (wal_files : list WalDurabilityInfo)
  (snapshot_files : list SnapshotDurabilityInfo)
  (files : list string) (rest : list ReplicationClient.RecoveryStep)
  (locked : list string) :
  ReplicationClient.GetRecoverySteps sort_snapshots replica_commit wal_file_
    (Some wal_files) snapshot_files
  = Some (ReplicationClient.RecoveryWals files :: rest, locked) ->
  exists before w after,
    wal_files = before ++ w :: after
    /\ files = map wal_path (w :: after)
    /\ locked = files
    /\ rest = ReplicationClient.current_wal_step wal_file_
    /\ ReplicationClient.all_sequential (w :: after) = true
    /\ ((ReplicationClient.reaches replica_commit w = true
         /\ replica_commit < to_timestamp w)
        \/ (exists older v,
              before = older ++ [v]
              /\ ReplicationClient.reaches replica_commit v = true
              /\ to_timestamp v <= replica_commit
              /\ ReplicationClient.sequential v w = true
              /\ ReplicationClient.reaches replica_commit w = false)).
Proof.
  unfold ReplicationClient.GetRecoverySteps. cbv zeta. intros H.
  assert (Hearly : forall r,
             ReplicationClient.current_wal_or_final_snapshot wal_file_
               (ReplicationClient.latest_of (sort_snapshots snapshot_files)) = Some r ->
             forall p q, fst r <> ReplicationClient.RecoveryWals p :: q).
  { unfold ReplicationClient.current_wal_or_final_snapshot. intros r Hr p q.
    destruct wal_file_ as [n |].
    - injection Hr as <-. discriminate.
    - destruct (ReplicationClient.latest_of _) as [s |]; [| discriminate Hr].
      injection Hr as <-. discriminate. }
  destruct (rev wal_files) as [| newest older] eqn:Hrev;
    [now elim (Hearly _ H files rest) |].
  destruct (to_timestamp newest <=? replica_commit) eqn:Hnewest;
    [now elim (Hearly _ H files rest) |].
  apply Z.leb_gt in Hnewest.
  destruct (ReplicationClient.find_wal_chain _ _ _) as [d |] eqn:Hfind.
  2:{ destruct (ReplicationClient.latest_of _) as [s |]; [| discriminate H].
      destruct (ReplicationClient.snapshot_wal_start _ _ _); discriminate H. }
  destruct (Nat.leb_spec (length wal_files) d) as [| Hd]; [discriminate H |].
  injection H as <- <- <-.
  destruct (find_wal_chain_inv _ _ _ _ Hfind)
    as [pre [w [old [Hlist [Hpre [Hw [Hdist Hlinks]]]]]]].
  assert (Hfiles : wal_files = rev old ++ w :: rev pre).
  { rewrite <- (rev_involutive wal_files), Hrev, Hlist, rev_app_distr. simpl.
    now rewrite <- app_assoc. }
  assert (Hseq : ReplicationClient.all_sequential (w :: rev pre) = true).
  { change (newest :: pre ++ [w]) with ((newest :: pre) ++ [w]) in Hlinks.
    rewrite rev_app_distr in Hlinks. simpl rev in Hlinks. simpl app in Hlinks.
    change (w :: rev pre ++ [newest]) with ((w :: rev pre) ++ [newest]) in Hlinks.
    now apply all_sequential_front in Hlinks. }
  destruct (to_timestamp w <=? replica_commit) eqn:Hskip.
  - apply Z.leb_le in Hskip.
    destruct (rev pre) as [| w' after] eqn:Hafter.
    + exfalso. rewrite Hfiles, length_app in Hd. simpl in Hd.
      rewrite length_rev in Hd. lia.
    + exists (rev old ++ [w]), w', after.
      assert (Hw' : ReplicationClient.reaches replica_commit w' = false).
      { rewrite <- forallb_rev, Hafter in Hpre. simpl in Hpre.
        apply andb_true_iff in Hpre. destruct Hpre as [Hp _].
        now apply negb_true_iff in Hp. }
      split; [rewrite Hfiles; now rewrite <- app_assoc |].
      assert (Hskipn : skipn d wal_files = w' :: after).
      { rewrite Hfiles, Hdist.
        replace (rev old ++ w :: w' :: after) with ((rev old ++ [w]) ++ w' :: after)
          by (now rewrite <- app_assoc).
        replace (S (length old)) with (length (rev old ++ [w]))
          by (rewrite length_app, length_rev; simpl; lia).
        apply skipn_length_app. }
      rewrite Hskipn. repeat split.
      * now apply all_sequential_tail in Hseq.
      * right. exists (rev old), w. repeat split; try assumption.
        simpl in Hseq. apply andb_true_iff in Hseq. now destruct Hseq.
  - apply Z.leb_gt in Hskip.
    exists (rev old), w, (rev pre). split; [exact Hfiles |].
    assert (Hskipn : skipn d wal_files = w :: rev pre).
    { rewrite Hfiles, Hdist. rewrite <- (length_rev old). apply skipn_length_app. }
    rewrite Hskipn. repeat split; [exact Hseq |]. left. split; assumption.
Qed.

(** The plan for the replica at 69 and the WAL files 4 to 7: the replica has
    all of WAL 6, so the plan starts at WAL 7, which follows it. *)
Lemma GetRecoverySteps_wals_only_sound_witness :
  exists before w after,
    Scenario.wals_4_to_7 = before ++ w :: after
    /\ ["wal7"%string] = map wal_path (w :: after)
    /\ ReplicationClient.all_sequential (w :: after) = true.
Proof.
  destruct (GetRecoverySteps_wals_only_sound Scenario.as_listed 69 None
              Scenario.wals_4_to_7 [] ["wal7"%string] [] ["wal7"%string] eq_refl)
    as [before [w [after [H1 [H2 [_ [_ [H3 _]]]]]]]].
  exists before, w, after. auto.
Defined.

(** X9. A plan with a snapshot leaves no later WAL file out.  When the first
    step of a plan is [RecoverySnapshot], it is the latest snapshot, and the
    [RecoveryWals] step that follows names every finalized WAL file that ends
    after the start of that snapshot. *)
Theorem GetRecoverySteps_snapshot_plan_complete
  (sort_snapshots : list SnapshotDurabilityInfo -> list SnapshotDurabilityInfo)
  (replica_commit : Z) (wal_file_ : option Z)
  (wal_files : list WalDurabilityInfo)
  (snapshot_files : list SnapshotDurabilityInfo)
  (path : string) (rest : list ReplicationClient.RecoveryStep)
  (locked : list string) :
  ReplicationClient.GetRecoverySteps sort_snapshots replica_commit wal_file_
    (Some wal_files) snapshot_files
  = Some (ReplicationClient.RecoverySnapshot path :: rest, locked) ->
  exists latest files,
    ReplicationClient.latest_of (sort_snapshots snapshot_files) = Some latest
    /\ path = snapshot_path latest
    /\ rest = ReplicationClient.RecoveryWals files
              :: ReplicationClient.current_wal_step wal_file_
    /\ locked = path :: files
    /\ forall w, In w wal_files -> start_timestamp latest < to_timestamp w ->
                 In (wal_path w) files.
Proof.
  unfold ReplicationClient.GetRecoverySteps. cbv zeta. intros H.
  assert (Hearly : forall r,
             ReplicationClient.current_wal_or_final_snapshot wal_file_
               (ReplicationClient.latest_of (sort_snapshots snapshot_files)) = Some r ->
             forall p q, fst r <> ReplicationClient.RecoverySnapshot p :: q).
  { unfold ReplicationClient.current_wal_or_final_snapshot. intros r Hr p q.
    destruct wal_file_ as [n |].
    - injection Hr as <-. discriminate.
    - destruct (ReplicationClient.latest_of _) as [s |]; [| discriminate Hr].
      injection Hr as <-. discriminate. }
  destruct (rev wal_files) as [| newest older] eqn:Hrev;
    [now elim (Hearly _ H path rest) |].
  destruct (to_timestamp newest <=? replica_commit);
    [now elim (Hearly _ H path rest) |].
  destruct (ReplicationClient.find_wal_chain _ _ _) as [d |].
  { destruct (length wal_files <=? d)%nat; discriminate H. }
  destruct (ReplicationClient.latest_of _) as [s |]; [| discriminate H].
  destruct (ReplicationClient.snapshot_wal_start _ _ _) as [j |] eqn:Hstart;
    [| discriminate H].
  injection H as <- <- <-. eexists. eexists.
  split; [reflexivity |]. split; [reflexivity |]. split; [reflexivity |].
  split; [reflexivity |].
  intros w Hin Hto.
  pose proof (snapshot_wal_start_keeps _ _ _ _ w Hstart Hin Hto) as Hkept.
  rewrite Nat.sub_0_r in Hkept. apply (in_map wal_path) in Hkept.
  destruct (map wal_path (skipn j wal_files)); [destruct Hkept | exact Hkept].
Qed.

(** The snapshot taken at the last timestamp of WAL 5: WAL 6 and WAL 7 end
    after it and are part of the plan. *)
Lemma GetRecoverySteps_snapshot_plan_complete_witness :
  In "wal6"%string ["wal5"; "wal6"; "wal7"]%string.
Proof.
  destruct (GetRecoverySteps_snapshot_plan_complete Scenario.as_listed 0 None
              Scenario.wals_5_6_7 [Scenario.snapshot_at_t5] "snapshot5"
              [ReplicationClient.RecoveryWals ["wal5"; "wal6"; "wal7"]%string]
              ["snapshot5"; "wal5"; "wal6"; "wal7"]%string eq_refl)
    as [latest [files [Hl [_ [Hr [_ Hall]]]]]].
  injection Hl as <-. injection Hr as <-.
  apply (Hall (Scenario.wal 6 60 69 "wal6")).
  - simpl. auto.
  - simpl. lia.
Defined.

(** The chain search never steps before the newest file: the [--rwal_it] is
    not taken on the newest file, whose last timestamp is after the commit of
    the replica. *)
Lemma find_wal_chain_in_range (replica_commit : Z) (newest : WalDurabilityInfo)
  (older : list WalDurabilityInfo) (d : nat) :
  replica_commit < to_timestamp newest ->
  ReplicationClient.find_wal_chain replica_commit (seq_num newest) (newest :: older)
  = Some d ->
  (d < length (newest :: older))%nat.
Proof.
  intros Hnew Hfind.
  destruct (find_wal_chain_inv _ _ _ _ Hfind) as [pre [w [old [Hlist [_ [_ [Hd _]]]]]]].
  rewrite Hlist, length_app. simpl. subst d.
  destruct (to_timestamp w <=? replica_commit) eqn:Hskip; [| lia].
  destruct pre as [| p pre]; [| simpl; lia].
  simpl in Hlist. injection Hlist as <- _. apply Z.leb_le in Hskip. lia.
Qed.

(** X10. When the WAL files can be listed and there is a snapshot, every
    [CHECK] of [GetRecoverySteps] passes and a plan is returned, unless the
    oldest WAL file both starts and ends after the latest snapshot. *)
Theorem GetRecoverySteps_plan_exists
  (sort_snapshots : list SnapshotDurabilityInfo -> list SnapshotDurabilityInfo)
  (replica_commit : Z) (wal_file_ : option Z)
  (wal_files : list WalDurabilityInfo)
  (snapshot_files : list SnapshotDurabilityInfo) (latest : SnapshotDurabilityInfo) :
  ReplicationClient.latest_of (sort_snapshots snapshot_files) = Some latest ->
  (forall oldest newer, wal_files = oldest :: newer ->
     from_timestamp oldest <= start_timestamp latest
     \/ to_timestamp oldest <= start_timestamp latest) ->
  exists steps locked,
    ReplicationClient.GetRecoverySteps sort_snapshots replica_commit wal_file_
      (Some wal_files) snapshot_files = Some (steps, locked)
    /\ steps <> [].
Proof.
  intros Hlatest Holdest. unfold ReplicationClient.GetRecoverySteps. cbv zeta.
  rewrite Hlatest.
  assert (Hearly : exists steps locked,
             ReplicationClient.current_wal_or_final_snapshot wal_file_ (Some latest)
             = Some (steps, locked) /\ steps <> []).
  { unfold ReplicationClient.current_wal_or_final_snapshot.
    destruct wal_file_; do 2 eexists; (split; [reflexivity | discriminate]). }
  destruct (rev wal_files) as [| newest older] eqn:Hrev; [exact Hearly |].
  destruct (to_timestamp newest <=? replica_commit) eqn:Hnew; [exact Hearly |].
  apply Z.leb_gt in Hnew.
  destruct (ReplicationClient.find_wal_chain _ _ _) as [d |] eqn:Hfind.
  - pose proof (find_wal_chain_in_range _ _ _ _ Hnew Hfind) as Hd.
    rewrite <- Hrev, length_rev in Hd.
    destruct (Nat.leb_spec (length wal_files) d); [lia |].
    do 2 eexists. split; [reflexivity | discriminate].
  - destruct (ReplicationClient.snapshot_wal_start _ _ _) as [j |] eqn:Hstart.
    + do 2 eexists. split; [reflexivity | discriminate].
    + exfalso. destruct wal_files as [| oldest newer]; [discriminate Hstart |].
      simpl in Hstart.
      destruct (Holdest oldest newer eq_refl) as [Hfrom | Hto].
      * destruct (start_timestamp latest <? to_timestamp oldest).
        -- destruct (Z.ltb_spec (start_timestamp latest) (from_timestamp oldest));
             [lia | discriminate Hstart].
        -- now apply snapshot_wal_start_succ in Hstart.
      * destruct (Z.ltb_spec (start_timestamp latest) (to_timestamp oldest)); [lia |].
        now apply snapshot_wal_start_succ in Hstart.
Qed.

(** With the snapshot at 50 and the WAL files 6 and 7, WAL 6 starting at 50,
    there is a plan for every replica. *)
Lemma GetRecoverySteps_plan_exists_witness :
  exists steps locked,
    ReplicationClient.GetRecoverySteps Scenario.as_listed 12 (Some 8)
      (Some Scenario.wals_6_7) [Scenario.snapshot_at_t5] = Some (steps, locked)
    /\ steps <> [].
Proof.
  apply (GetRecoverySteps_plan_exists Scenario.as_listed 12 (Some 8) Scenario.wals_6_7
           [Scenario.snapshot_at_t5] Scenario.snapshot_at_t5).
  - reflexivity.
  - intros oldest newer H. injection H as <- _. left. simpl. lia.
Defined.

(** X11. A replica that is not behind the newest finalized WAL file is sent no
    finalized file at all: when there is no finalized WAL file, or the newest
    one ends at or before the commit of the replica, the plan is the current
    WAL alone or, without one, the timestamp of the latest snapshot alone;
    without either, the [CHECK] on the snapshot fails. *)
Theorem GetRecoverySteps_replica_not_behind
  (sort_snapshots : list SnapshotDurabilityInfo -> list SnapshotDurabilityInfo)
  (replica_commit : Z) (wal_file_ : option Z)
  (wal_files : list WalDurabilityInfo)
  (snapshot_files : list SnapshotDurabilityInfo) :
  (forall earlier newest, wal_files = earlier ++ [newest] ->
     to_timestamp newest <= replica_commit) ->
  ReplicationClient.GetRecoverySteps sort_snapshots replica_commit wal_file_
    (Some wal_files) snapshot_files
  = match wal_file_, ReplicationClient.latest_of (sort_snapshots snapshot_files) with
    | Some n, _ => Some ([ReplicationClient.RecoveryCurrentWal n], [])
    | None, Some latest =>
        Some ([ReplicationClient.RecoveryFinalSnapshot (start_timestamp latest)],
              [snapshot_path latest])
    | None, None => None
    end.
Proof.
  intros Hnot. unfold ReplicationClient.GetRecoverySteps. cbv zeta.
  assert (E : ReplicationClient.current_wal_or_final_snapshot wal_file_
                (ReplicationClient.latest_of (sort_snapshots snapshot_files))
              = match wal_file_,
                      ReplicationClient.latest_of (sort_snapshots snapshot_files) with
                | Some n, _ => Some ([ReplicationClient.RecoveryCurrentWal n], [])
                | None, Some latest =>
                    Some ([ReplicationClient.RecoveryFinalSnapshot (start_timestamp latest)],
                          [snapshot_path latest])
                | None, None => None
                end).
  { unfold ReplicationClient.current_wal_or_final_snapshot.
    destruct wal_file_; [reflexivity |].
    destruct (ReplicationClient.latest_of _); reflexivity. }
  destruct (rev wal_files) as [| newest older] eqn:Hrev; [exact E |].
  apply rev_cons_last in Hrev. specialize (Hnot _ _ Hrev).
  apply Z.leb_le in Hnot. rewrite Hnot. exact E.
Qed.

(** The replica at 79, the last timestamp of WAL 7, while WAL 8 is being
    written. *)
Lemma GetRecoverySteps_replica_not_behind_witness :
  ReplicationClient.GetRecoverySteps Scenario.as_listed 79 (Some 8)
    (Some Scenario.wals_4_to_7) []
  = Some ([ReplicationClient.RecoveryCurrentWal 8], []).
Proof.
  apply (GetRecoverySteps_replica_not_behind Scenario.as_listed 79 (Some 8)
           Scenario.wals_4_to_7 []).
  intros earlier newest H.
  assert (E : newest = Scenario.wal 7 70 79 "wal7").
  { change Scenario.wals_4_to_7
      with ([Scenario.wal 4 40 49 "wal4"; Scenario.wal 5 50 59 "wal5";
             Scenario.wal 6 60 69 "wal6"] ++ [Scenario.wal 7 70 79 "wal7"]) in H.
    apply app_inj_tail in H. now destruct H. }
  subst newest. simpl. lia.
Defined.

(** ** The replication client: recovery as a whole *)

Lemma recovery_frame_refl (c : ReplicationClient.Client) : recovery_frame c c.
Proof.
  unfold recovery_frame. repeat split. exists 0%nat. simpl. now rewrite app_nil_r.
Qed.

Lemma recovery_frame_trans (a b c : ReplicationClient.Client) :
  recovery_frame a b -> recovery_frame b c -> recovery_frame a c.
Proof.
  unfold recovery_frame.
  intros [N1 [M1 [T1 [D1 [S1 [k1 P1]]]]]] [N2 [M2 [T2 [D2 [S2 [k2 P2]]]]]].
  repeat split; try congruence.
  exists (k1 + k2)%nat. rewrite P2, P1, <- app_assoc. f_equal. now rewrite repeat_app.
Qed.

Lemma recovery_frame_failure (c : ReplicationClient.Client) :
  recovery_frame c
    (ReplicationClient.HandleRpcFailure
       (ReplicationClient.store_replica_state ReplicationClient.INVALID c)).
Proof. unfold recovery_frame. repeat split. now exists 1%nat. Qed.

Lemma recovery_frame_state (s : ReplicationClient.ReplicaState)
  (c : ReplicationClient.Client) :
  recovery_frame c (ReplicationClient.store_replica_state s c).
Proof.
  unfold recovery_frame. repeat split. exists 0%nat. simpl. now rewrite app_nil_r.
Qed.

(** A step of the visitor either leaves the client alone or, on a failed RPC,
    marks it [INVALID] and queues one reconnect, the commit kept. *)
Lemma recovery_step_outcome input step rc c rc' c' :
  ReplicationClient.recovery_step input step (rc, c) = Some (rc', c') ->
  c' = c
  \/ (c' = ReplicationClient.HandleRpcFailure
             (ReplicationClient.store_replica_state ReplicationClient.INVALID c)
      /\ rc' = rc).
Proof.
  unfold ReplicationClient.recovery_step. intros H.
  repeat match goal with
         | H : Some _ = Some _ |- _ => inversion H; subst; clear H
         | H : None = Some _ |- _ => discriminate H
         | H : context [match ?x with _ => _ end] |- _ => destruct x eqn:?
         | H : context [if ?b then _ else _] |- _ => destruct b eqn:?
         end; auto.
Qed.

Lemma recovery_steps_frame inputs steps : forall i rc c rc' c',
  ReplicationClient.recovery_steps inputs i steps (rc, c) = Some (rc', c') ->
  recovery_frame c c'
  /\ (ReplicationClient.replica_state_ c' = ReplicationClient.replica_state_ c
      \/ ReplicationClient.replica_state_ c' = ReplicationClient.INVALID).
Proof.
  induction steps as [| step rest IH]; intros i rc c rc' c' H;
    cbn [ReplicationClient.recovery_steps] in H.
  - inversion H; subst. split; [apply recovery_frame_refl | now left].
  - destruct (ReplicationClient.recovery_step (inputs i) step (rc, c))
      as [[rc1 c1] |] eqn:Hs; [| discriminate H].
    apply IH in H. destruct H as [Hf Hst].
    apply recovery_step_outcome in Hs. destruct Hs as [-> | [-> ->]].
    + split; assumption.
    + split.
      * eapply recovery_frame_trans; [apply recovery_frame_failure | exact Hf].
      * right. destruct Hst as [-> | ->]; reflexivity.
Qed.

Lemma RecoverReplica_pass_frame sort_snapshots pass rc c c' next :
  ReplicationClient.RecoverReplica_pass sort_snapshots pass rc c = Some (c', next) ->
  recovery_frame c c'
  /\ match next with
     | None => ReplicationClient.replica_state_ c' = ReplicationClient.READY
     | Some _ =>
         ReplicationClient.replica_state_ c' = ReplicationClient.replica_state_ c
         \/ ReplicationClient.replica_state_ c' = ReplicationClient.INVALID
     end.
Proof.
  unfold ReplicationClient.RecoverReplica_pass. intros H.
  destruct (ReplicationClient.GetRecoverySteps _ _ _ _ _) as [[steps locked] |];
    [| discriminate H].
  destruct (ReplicationClient.recovery_steps _ _ _ _) as [[rc1 c1] |] eqn:Hs;
    [| discriminate H].
  apply recovery_steps_frame in Hs. destruct Hs as [Hf Hst].
  destruct (_ =? _); inversion H; subst.
  - split; [| reflexivity].
    eapply recovery_frame_trans; [exact Hf | apply recovery_frame_state].
  - split; assumption.
Qed.

Lemma RecoverReplica_frame sort_snapshots passes : forall rc c c' next,
  ReplicationClient.RecoverReplica sort_snapshots passes rc c = Some (c', next) ->
  recovery_frame c c'
  /\ match next with
     | None => ReplicationClient.replica_state_ c' = ReplicationClient.READY
     | Some _ =>
         ReplicationClient.replica_state_ c' = ReplicationClient.replica_state_ c
         \/ ReplicationClient.replica_state_ c' = ReplicationClient.INVALID
     end.
Proof.
  induction passes as [| pass rest IH]; intros rc c c' next H;
    cbn [ReplicationClient.RecoverReplica] in H.
  - inversion H; subst. split; [apply recovery_frame_refl | now left].
  - destruct (ReplicationClient.RecoverReplica_pass _ pass rc c)
      as [[c1 [rc1 |]] |] eqn:Hp; [| | discriminate H].
    + apply IH in H. apply RecoverReplica_pass_frame in Hp.
      destruct H as [Hf Hst], Hp as [Hf1 Hst1]. split.
      * eapply recovery_frame_trans; eassumption.
      * destruct next; [| exact Hst].
        destruct Hst as [E | E]; [| now right].
        rewrite E. exact Hst1.
    + inversion H; subst. exact (RecoverReplica_pass_frame _ _ _ _ _ _ Hp).
Qed.

(** X12. [RecoverReplica] touches the state of the replica and nothing else:
    the name, the mode, the timeout, its dispatcher and the stream stay as they
    are, and the thread pool only grows, by reconnects.  It returns only with
    the state [READY], also when a step of its last pass failed and marked the
    replica [INVALID]; as long as it loops, the state is the one it started
    with or [INVALID]. *)
Theorem RecoverReplica_only_returns_ready
  (sort_snapshots : list SnapshotDurabilityInfo -> list SnapshotDurabilityInfo)
  (passes : list ReplicationClient.RecoveryPass) (replica_commit : Z)
  (c c' : ReplicationClient.Client) (next : option Z) :
  ReplicationClient.RecoverReplica sort_snapshots passes replica_commit c
  = Some (c', next) ->
  ReplicationClient.name_ c' = ReplicationClient.name_ c
  /\ ReplicationClient.mode_ c' = ReplicationClient.mode_ c
  /\ ReplicationClient.timeout_ c' = ReplicationClient.timeout_ c
  /\ ReplicationClient.timeout_dispatcher_ c' = ReplicationClient.timeout_dispatcher_ c
  /\ ReplicationClient.replica_stream_ c' = ReplicationClient.replica_stream_ c
  /\ (exists reconnects,
        ReplicationClient.thread_pool_ c'
        = ReplicationClient.thread_pool_ c
          ++ repeat ReplicationClient.TaskReconnect reconnects)
  /\ match next with
     | None => ReplicationClient.replica_state_ c' = ReplicationClient.READY
     | Some _ =>
         ReplicationClient.replica_state_ c' = ReplicationClient.replica_state_ c
         \/ ReplicationClient.replica_state_ c' = ReplicationClient.INVALID
     end.
Proof.
  intros H. apply RecoverReplica_frame in H. destruct H as [Hf Hst].
  unfold recovery_frame in Hf. tauto.
Qed.

(** Every plan has a step. *)
Lemma plan_nonempty
  (sort_snapshots : list SnapshotDurabilityInfo -> list SnapshotDurabilityInfo)
  (replica_commit : Z) (wal_file_ : option Z)
  (wal_files : option (list WalDurabilityInfo))
  (snapshot_files : list SnapshotDurabilityInfo)
  (steps : list ReplicationClient.RecoveryStep) (locked : list string) :
  ReplicationClient.GetRecoverySteps sort_snapshots replica_commit wal_file_
    wal_files snapshot_files = Some (steps, locked) ->
  steps <> [].
Proof.
  unfold ReplicationClient.GetRecoverySteps. cbv zeta. intros H.
  assert (Hearly : forall r,
             ReplicationClient.current_wal_or_final_snapshot wal_file_
               (ReplicationClient.latest_of (sort_snapshots snapshot_files)) = Some r ->
             fst r <> []).
  { unfold ReplicationClient.current_wal_or_final_snapshot. intros r Hr.
    destruct wal_file_ as [n |].
    - injection Hr as <-. discriminate.
    - destruct (ReplicationClient.latest_of _) as [s |]; [| discriminate Hr].
      injection Hr as <-. discriminate. }
  destruct wal_files as [wal_files |]; [| discriminate H].
  destruct (rev wal_files) as [| newest older]; [exact (Hearly _ H) |].
  destruct (to_timestamp newest <=? replica_commit); [exact (Hearly _ H) |].
  destruct (ReplicationClient.find_wal_chain _ _ _) as [d |].
  - destruct (length wal_files <=? d)%nat; [discriminate H |].
    injection H as <- _. discriminate.
  - destruct (ReplicationClient.latest_of _) as [s |]; [| discriminate H].
    destruct (ReplicationClient.snapshot_wal_start _ _ _) as [j |]; [| discriminate H].
    injection H as <- _. discriminate.
Qed.

(** On a replica that cannot be reached, a step changes nothing but the state
    and the queue of reconnects, and keeps the commit. *)
Lemma recovery_step_unreachable input step rc c :
  ReplicationClient.step_reply input = RpcFailedException ->
  ReplicationClient.step_current_wal_stream input = RpcFailedException ->
  (forall paths, step = ReplicationClient.RecoveryWals paths -> paths <> []) ->
  exists c', ReplicationClient.recovery_step input step (rc, c) = Some (rc, c').
Proof.
  intros Hreply Hstream Hne. unfold ReplicationClient.recovery_step.
  rewrite Hreply, Hstream. destruct step as [p | paths | n | ts]; eauto.
  - destruct paths as [| f fs]; [now elim (Hne [] eq_refl) | eauto].
  - destruct (ReplicationClient.step_wal_file input) as [m |]; [| eauto].
    destruct (m =? n); eauto.
Qed.

Lemma recovery_steps_unreachable inputs steps : forall i rc c,
  (forall j, ReplicationClient.step_reply (inputs j) = RpcFailedException) ->
  (forall j, ReplicationClient.step_current_wal_stream (inputs j) = RpcFailedException) ->
  (forall paths, In (ReplicationClient.RecoveryWals paths) steps -> paths <> []) ->
  exists c', ReplicationClient.recovery_steps inputs i steps (rc, c) = Some (rc, c').
Proof.
  induction steps as [| step rest IH]; intros i rc c Hreply Hstream Hne;
    cbn [ReplicationClient.recovery_steps]; [eauto |].
  destruct (recovery_step_unreachable (inputs i) step rc c (Hreply i) (Hstream i))
    as [c1 E].
  - intros paths ->. apply Hne. now left.
  - rewrite E. apply IH; auto. intros paths Hin. apply Hne. now right.
Qed.

(** X13. While the replica cannot be reached, [RecoverReplica] neither returns
    nor gives up.  If in every pass each RPC fails with [RpcFailedException],
    the durability files give a plan, and the main instance is not at the
    commit of the replica, then the loop is still running after any number of
    passes, with the commit timestamp it was called with. *)
Theorem RecoverReplica_unreachable_replica_loops
  (sort_snapshots : list SnapshotDurabilityInfo -> list SnapshotDurabilityInfo)
  (passes : list ReplicationClient.RecoveryPass) (replica_commit : Z)
  (c : ReplicationClient.Client) :
  (forall pass, In pass passes ->
     (forall i, ReplicationClient.step_reply (ReplicationClient.pass_steps pass i)
                = RpcFailedException)
     /\ (forall i, ReplicationClient.step_current_wal_stream
                     (ReplicationClient.pass_steps pass i) = RpcFailedException)
     /\ ReplicationClient.pass_last_commit_timestamp pass <> replica_commit
     /\ ReplicationClient.GetRecoverySteps sort_snapshots replica_commit
          (ReplicationClient.pass_wal_file pass)
          (ReplicationClient.pass_wal_files pass)
          (ReplicationClient.pass_snapshot_files pass) <> None) ->
  exists c',
    ReplicationClient.RecoverReplica sort_snapshots passes replica_commit c
    = Some (c', Some replica_commit).
Proof.
  revert c. induction passes as [| pass rest IH]; intros c Hall;
    cbn [ReplicationClient.RecoverReplica]; [eauto |].
  destruct (Hall pass (or_introl eq_refl)) as [Hreply [Hstream [Hbehind Hplan]]].
  unfold ReplicationClient.RecoverReplica_pass.
  destruct (ReplicationClient.GetRecoverySteps _ _ _ _ _) as [[steps locked] |] eqn:Hsteps;
    [| now elim Hplan].
  destruct (recovery_steps_unreachable (ReplicationClient.pass_steps pass) steps 0%nat
              replica_commit c Hreply Hstream) as [c1 E].
  - intros paths Hin. exact (plan_wals_nonempty _ _ _ _ _ _ _ _ Hsteps Hin).
  - rewrite E.
    destruct (Z.eqb_spec (ReplicationClient.pass_last_commit_timestamp pass) replica_commit);
      [contradiction |].
    apply IH. intros p Hp. apply Hall. now right.
Qed.

(** ** The replication client: which replicas the heartbeat accepts *)

Lemma find_split {A} (f : A -> bool) (l : list A) (x : A) :
  find f l = Some x ->
  exists before after,
    l = before ++ x :: after /\ (forall y, In y before -> f y = false) /\ f x = true.
Proof.
  induction l as [| a l IH]; simpl; intros H; [discriminate H |].
  destruct (f a) eqn:Ha.
  - injection H as <-. exists [], l. simpl. repeat split; [tauto | exact Ha].
  - destruct (IH H) as [before [after [-> [Hb Hx]]]].
    exists (a :: before), after. simpl. repeat split; [| exact Hx].
    intros y [<- | Hy]; auto.
Qed.

Lemma find_epoch_found (epoch_history : list (string * Z)) (epoch_id : string)
  (info : string * Z) :
  ReplicationClient.find_epoch epoch_history epoch_id = Some info ->
  exists older newer,
    epoch_history = older ++ (epoch_id, snd info) :: newer
    /\ ~ In epoch_id (map fst newer).
Proof.
  unfold ReplicationClient.find_epoch. intros H.
  destruct (find_split _ _ _ H) as [before [after [Hrev [Hb Hx]]]].
  destruct info as [e ts]. simpl in Hx. apply String.eqb_eq in Hx. subst e.
  exists (rev after), (rev before). split.
  - rewrite <- (rev_involutive epoch_history), Hrev, rev_app_distr. simpl.
    now rewrite <- app_assoc.
  - intros Hin. apply in_map_iff in Hin. destruct Hin as [[e t] [He Hin]].
    simpl in He. subst e. apply in_rev in Hin. apply Hb in Hin. simpl in Hin.
    now rewrite String.eqb_refl in Hin.
Qed.

(** X14. The heartbeat accepts a replica in exactly three cases: it reports the
    epoch of the main instance; it reports the initial timestamp as its commit
    (it never committed); or the most recent entry of the epoch history for the
    epoch it reports holds its commit timestamp.  An accepted replica is
    [READY] when its commit timestamp is the last one of the main instance;
    otherwise it goes to [RECOVERY] and the recovery is queued from its commit
    timestamp. *)
Theorem InitializeClient_accepts_exactly
  (kTimestampInitialId : Z) (storage_ : ReplicationClient.Storage)
  (response : ReplicationClient.HeartbeatRes) (c : ReplicationClient.Client) :
  let epoch := ReplicationClient.hb_epoch_id response in
  let commit := ReplicationClient.hb_current_commit_timestamp response in
  let accepted :=
    epoch = ReplicationClient.epoch_id_ storage_
    \/ commit = kTimestampInitialId
    \/ exists older newer,
         ReplicationClient.epoch_history_ storage_ = older ++ (epoch, commit) :: newer
         /\ ~ In epoch (map fst newer) in
  (ReplicationClient.branching_point kTimestampInitialId storage_ response = None
   <-> accepted)
  /\ (accepted ->
      ReplicationClient.InitializeClient kTimestampInitialId storage_ (RpcOk response) c
      = RpcOk (if commit =? ReplicationClient.last_commit_timestamp_ storage_
               then ReplicationClient.store_replica_state ReplicationClient.READY c
               else ReplicationClient.AddTask (ReplicationClient.TaskRecoverReplica commit)
                      (ReplicationClient.store_replica_state
                         ReplicationClient.RECOVERY c))).
Proof.
  cbv zeta.
  assert (Hiff : ReplicationClient.branching_point kTimestampInitialId storage_ response
                 = None
                 <-> (ReplicationClient.hb_epoch_id response
                      = ReplicationClient.epoch_id_ storage_
                      \/ ReplicationClient.hb_current_commit_timestamp response
                         = kTimestampInitialId
                      \/ exists older newer,
                           ReplicationClient.epoch_history_ storage_
                           = older ++ (ReplicationClient.hb_epoch_id response,
                                       ReplicationClient.hb_current_commit_timestamp response)
                                      :: newer
                           /\ ~ In (ReplicationClient.hb_epoch_id response)
                                   (map fst newer))).
  { unfold ReplicationClient.branching_point.
    destruct (String.eqb_spec (ReplicationClient.hb_epoch_id response)
                (ReplicationClient.epoch_id_ storage_)) as [E | Hepoch];
      [simpl; tauto |].
    destruct (Z.eqb_spec (ReplicationClient.hb_current_commit_timestamp response)
                kTimestampInitialId) as [E | Hts]; [simpl; tauto |].
    simpl.
    destruct (ReplicationClient.find_epoch _ _) as [info |] eqn:Hfind.
    - destruct (find_epoch_found _ _ _ Hfind) as [older [newer [Hh Hnew]]].
      destruct (Z.eqb_spec (snd info)
                  (ReplicationClient.hb_current_commit_timestamp response)) as [E | Hdiff];
        simpl.
      + split; [intros _ | reflexivity]. right. right.
        exists older, newer. now rewrite <- E.
      + split; [discriminate |].
        intros [E | [E | [older' [newer' [Hh' Hnew']]]]]; try contradiction.
        rewrite Hh', (find_epoch_most_recent _ _ _ _ Hnew') in Hfind.
        injection Hfind as <-. now elim Hdiff.
    - split; [discriminate |].
      intros [E | [E | [older' [newer' [Hh' Hnew']]]]]; try contradiction.
      rewrite Hh', (find_epoch_most_recent _ _ _ _ Hnew') in Hfind. discriminate Hfind. }
  split; [exact Hiff |].
  intros Hacc. apply Hiff in Hacc. unfold ReplicationClient.InitializeClient.
  rewrite Hacc. destruct (_ =? _); reflexivity.
Qed.

(** The replica at 69 takes WAL 7; the current WAL then fails, which marks
    the replica [INVALID] and queues a reconnect; the commit timestamps agree
    and the recovery returns with [READY]. *)
Lemma RecoverReplica_only_returns_ready_witness :
  ReplicationClient.replica_state_
    (ReplicationClient.store_replica_state ReplicationClient.READY
       (ReplicationClient.HandleRpcFailure
          (ReplicationClient.store_replica_state ReplicationClient.INVALID
             (Scenario.replica ReplicationClient.RECOVERY))))
  = ReplicationClient.READY
  /\ exists reconnects,
       [ReplicationClient.TaskReconnect]
       = [] ++ repeat ReplicationClient.TaskReconnect reconnects.
Proof.
  destruct (RecoverReplica_only_returns_ready Scenario.as_listed
              [RecoveryScenario.current_wal_fails] 69
              (Scenario.replica ReplicationClient.RECOVERY)
              (ReplicationClient.store_replica_state ReplicationClient.READY
                 (ReplicationClient.HandleRpcFailure
                    (ReplicationClient.store_replica_state ReplicationClient.INVALID
                       (Scenario.replica ReplicationClient.RECOVERY))))
              None eq_refl)
    as [_ [_ [_ [_ [_ [Hpool Hstate]]]]]].
  split; [exact Hstate | exact Hpool].
Defined.

(** Two passes on a replica at 69 that cannot be reached. *)
Lemma RecoverReplica_unreachable_replica_loops_witness :
  exists c',
    ReplicationClient.RecoverReplica Scenario.as_listed
      [RecoveryScenario.unreachable_pass; RecoveryScenario.unreachable_pass] 69
      (Scenario.replica ReplicationClient.RECOVERY)
    = Some (c', Some 69).
Proof.
  apply (RecoverReplica_unreachable_replica_loops Scenario.as_listed
           [RecoveryScenario.unreachable_pass; RecoveryScenario.unreachable_pass] 69
           (Scenario.replica ReplicationClient.RECOVERY)).
  intros pass [<- | [<- | []]]; (repeat split; [simpl; lia | vm_compute; discriminate]).
Defined.

(** ** The replication client: one transaction from start to end *)

(** X15. A transaction on a [READY] replica, when no RPC fails.  The stream is
    opened and the state is [REPLICATING] while the deltas are sent.  At the
    end, the replica having confirmed, a SYNC replica without a timeout is left
    exactly as it was before the transaction, and so is an ASYNC replica once
    the queued finalize has run; if the replica reports a failure, it is in
    [RECOVERY] instead, without a stream, and a recovery is queued whose
    closure holds no commit timestamp: it refers to the local [response]. *)
Theorem transaction_cycle_returns_to_ready
  (kTimestampInitialId : Z)
  (sort_snapshots : list SnapshotDurabilityInfo -> list SnapshotDurabilityInfo)
  (storage_ : ReplicationClient.Storage) (current_wal_seq_num : Z)
  (input : ReplicationClient.TaskInput) (response : ReplicationClient.AppendDeltasRes)
  (c : ReplicationClient.Client) :
  ReplicationClient.replica_state_ c = ReplicationClient.READY ->
  ReplicationClient.replica_stream_ c = None ->
  (ReplicationClient.mode_ c = ReplicationClient.SYNC ->
   ReplicationClient.timeout_ c = None) ->
  ReplicationClient.in_finalize input = RpcOk response ->
  let finally :=
    if ReplicationClient.success response then c
    else ReplicationClient.AddTask ReplicationClient.TaskRecoverReplicaOfResponse
           (ReplicationClient.store_replica_state ReplicationClient.RECOVERY c) in
  exists c1,
    ReplicationClient.StartTransactionReplication storage_ current_wal_seq_num
      (RpcOk tt) c = Some c1
    /\ ReplicationClient.replica_state_ c1 = ReplicationClient.REPLICATING
    /\ ReplicationClient.IfStreamingTransaction (RpcOk tt) c1 = c1
    /\ match ReplicationClient.mode_ c with
       | ReplicationClient.SYNC =>
           ReplicationClient.FinalizeTransactionReplication (RpcOk response) c1
           = Some finally
       | ReplicationClient.ASYNC =>
           ReplicationClient.FinalizeTransactionReplication (RpcOk response) c1
           = Some (ReplicationClient.AddTask ReplicationClient.TaskFinalize c1)
           /\ ReplicationClient.run_task kTimestampInitialId sort_snapshots input
                ReplicationClient.TaskFinalize c1
              = Some finally
       end.
Proof.
  intros Hstate Hstream Htimeout Hfinalize. cbv zeta.
  unfold ReplicationClient.StartTransactionReplication. cbv zeta.
  rewrite Hstate, Hstream. eexists. split; [reflexivity |].
  split; [reflexivity |]. split; [reflexivity |].
  destruct c as [name state mode timeout dispatcher stream pool].
  simpl in Hstate, Hstream, Htimeout. subst state stream.
  cbn [ReplicationClient.run_task]. rewrite Hfinalize.
  unfold ReplicationClient.FinalizeTransactionReplication,
    ReplicationClient.FinalizeTransactionReplicationInternal.
  destruct mode; simpl.
  - rewrite (Htimeout eq_refl).
    destruct (ReplicationClient.success response); reflexivity.
  - split; [reflexivity |].
    destruct (ReplicationClient.success response); reflexivity.
Qed.

(** A transaction on the SYNC replica of the scenarios, confirmed by the
    replica. *)
Lemma transaction_cycle_returns_to_ready_witness :
  exists c1,
    ReplicationClient.StartTransactionReplication Scenario.main_storage 7 (RpcOk tt)
      (Scenario.replica ReplicationClient.READY) = Some c1
    /\ ReplicationClient.FinalizeTransactionReplication
         (RpcOk {| ReplicationClient.success := true;
                   ReplicationClient.current_commit_timestamp := 43 |}) c1
       = Some (Scenario.replica ReplicationClient.READY).
Proof.
  destruct (transaction_cycle_returns_to_ready 0 Scenario.as_listed
              Scenario.main_storage 7
              {| ReplicationClient.in_storage := Scenario.main_storage;
                 ReplicationClient.in_heartbeat := RpcFailedException;
                 ReplicationClient.in_finalize :=
                   RpcOk {| ReplicationClient.success := true;
                            ReplicationClient.current_commit_timestamp := 43 |};
                 ReplicationClient.in_response_commit := None;
                 ReplicationClient.in_passes := [] |}
              {| ReplicationClient.success := true;
                 ReplicationClient.current_commit_timestamp := 43 |}
              (Scenario.replica ReplicationClient.READY)
              eq_refl eq_refl (fun _ => eq_refl) eq_refl)
    as [c1 [Hstart [_ [_ Hend]]]].
  exists c1. split; [exact Hstart | exact Hend].
Defined.

(** X16. A transaction that starts while the previous one is still being
    replicated is not sent to the replica: the state becomes [RECOVERY],
    [IfStreamingTransaction] and [FinalizeTransactionReplication] do nothing,
    and when the finalize of the previous transaction gets its answer, the
    stream is closed and a recovery is queued, also when the replica
    confirmed.  The queued recovery is the same whatever the answer holds:
    its closure refers to the local [response], and the recovery starts from
    the commit timestamp it reads through that reference when it runs. *)
Theorem missed_transaction_is_recovered
  (kTimestampInitialId : Z)
  (sort_snapshots : list SnapshotDurabilityInfo -> list SnapshotDurabilityInfo)
  (storage_ : ReplicationClient.Storage) (current_wal_seq_num : Z)
  (stream callback : Rpc unit) (finalize : Rpc ReplicationClient.AppendDeltasRes)
  (response : ReplicationClient.AppendDeltasRes)
  (c : ReplicationClient.Client) :
  ReplicationClient.replica_state_ c = ReplicationClient.REPLICATING ->
  ReplicationClient.replica_stream_ c <> None ->
  let c1 := ReplicationClient.store_replica_state ReplicationClient.RECOVERY c in
  ReplicationClient.StartTransactionReplication storage_ current_wal_seq_num stream c
  = Some c1
  /\ ReplicationClient.IfStreamingTransaction callback c1 = c1
  /\ ReplicationClient.FinalizeTransactionReplication finalize c1 = Some c1
  /\ ReplicationClient.FinalizeTransactionReplicationInternal (RpcOk response) c1
     = Some (ReplicationClient.AddTask ReplicationClient.TaskRecoverReplicaOfResponse
               (ReplicationClient.set_replica_stream None c1))
  /\ forall input c2,
       ReplicationClient.run_task kTimestampInitialId sort_snapshots input
         ReplicationClient.TaskRecoverReplicaOfResponse c2
       = match ReplicationClient.in_response_commit input with
         | None => None
         | Some replica_commit =>
             ReplicationClient.run_task kTimestampInitialId sort_snapshots input
               (ReplicationClient.TaskRecoverReplica replica_commit) c2
         end.
Proof.
  intros Hstate Hstream. cbv zeta.
  unfold ReplicationClient.StartTransactionReplication. cbv zeta. rewrite Hstate.
  split; [reflexivity |]. split; [reflexivity |]. split; [reflexivity |]. split.
  - unfold ReplicationClient.FinalizeTransactionReplicationInternal. simpl.
    destruct (ReplicationClient.replica_stream_ c); [| now elim Hstream].
    now rewrite orb_true_r.
  - intros input c2. cbn [ReplicationClient.run_task].
    destruct (ReplicationClient.in_response_commit input); reflexivity.
Qed.

(** The replica of the scenarios in the middle of a transaction: the next
    transaction is missed. *)
Lemma missed_transaction_is_recovered_witness :
  ReplicationClient.StartTransactionReplication Scenario.main_storage 7 (RpcOk tt)
    Scenario.replicating_with_timeout
  = Some (ReplicationClient.store_replica_state ReplicationClient.RECOVERY
            Scenario.replicating_with_timeout).
Proof.
  destruct (missed_transaction_is_recovered 0 Scenario.as_listed
              Scenario.main_storage 7 (RpcOk tt)
              (RpcOk tt) RpcFailedException
              {| ReplicationClient.success := true;
                 ReplicationClient.current_commit_timestamp := 42 |}
              Scenario.replicating_with_timeout eq_refl)
    as [H _]; [discriminate | exact H].
Defined.

(** X17. A SYNC replica with a timeout whose finalize gets its answer in time
    stays SYNC. [FinalizeTransactionReplication] queues the finalize and arms
    the dispatcher; once the queued task has run, the dispatcher is no longer
    active, so that the main thread is woken, and the state is no longer
    [REPLICATING], so that the main thread changes nothing: the mode is still
    SYNC and the timeout is kept. *)
Theorem sync_timeout_kept_when_finalize_answers
  (kTimestampInitialId : Z)
  (sort_snapshots : list SnapshotDurabilityInfo -> list SnapshotDurabilityInfo)
  (finalize : Rpc ReplicationClient.AppendDeltasRes)
  (input : ReplicationClient.TaskInput)
  (c : ReplicationClient.Client) (t : PropertyValue.double) :
  ReplicationClient.replica_state_ c = ReplicationClient.REPLICATING ->
  ReplicationClient.mode_ c = ReplicationClient.SYNC ->
  ReplicationClient.timeout_ c = Some t ->
  ReplicationClient.timeout_dispatcher_ c <> None ->
  ReplicationClient.replica_stream_ c <> None ->
  exists c1 c2,
    ReplicationClient.FinalizeTransactionReplication finalize c = Some c1
    /\ ReplicationClient.thread_pool_ c1
       = ReplicationClient.thread_pool_ c ++ [ReplicationClient.TaskFinalizeAndNotify]
    /\ ReplicationClient.timeout_dispatcher_ c1
       = Some {| ReplicationClient.active := true; ReplicationClient.finished := false |}
    /\ ReplicationClient.run_task kTimestampInitialId sort_snapshots input
         ReplicationClient.TaskFinalizeAndNotify
         (ReplicationClient.set_thread_pool (ReplicationClient.thread_pool_ c) c1)
       = Some c2
    /\ ReplicationClient.timeout_dispatcher_ c2
       = Some {| ReplicationClient.active := false; ReplicationClient.finished := false |}
    /\ ReplicationClient.replica_state_ c2 <> ReplicationClient.REPLICATING
    /\ ReplicationClient.replica_stream_ c2 = None
    /\ ReplicationClient.FinalizeTransactionReplication_woken c2 = c2
    /\ ReplicationClient.mode_ c2 = ReplicationClient.SYNC
    /\ ReplicationClient.timeout_ c2 = Some t.
Proof.
  intros Hstate Hmode Htimeout Hdispatcher Hstream.
  unfold ReplicationClient.FinalizeTransactionReplication.
  rewrite Hstate, Hmode, Htimeout. simpl.
  destruct (ReplicationClient.timeout_dispatcher_ c) as [d |] eqn:Hd;
    [| now elim Hdispatcher].
  destruct (ReplicationClient.replica_stream_ c) as [s |] eqn:Hs; [| now elim Hstream].
  eexists. cbn [ReplicationClient.run_task].
  assert (Hrun : exists c2,
             ReplicationClient.FinalizeTransactionReplicationInternal
               (ReplicationClient.in_finalize input)
               (ReplicationClient.set_thread_pool (ReplicationClient.thread_pool_ c)
                  (ReplicationClient.set_timeout_dispatcher
                     (Some (ReplicationClient.StartTimeoutTask
                              {| ReplicationClient.active := true;
                                 ReplicationClient.finished :=
                                   ReplicationClient.finished
                                     (ReplicationClient.WaitForTaskToFinish d) |}))
                     (ReplicationClient.AddTask ReplicationClient.TaskFinalizeAndNotify c)))
             = Some c2
             /\ ReplicationClient.timeout_dispatcher_ c2
                = Some {| ReplicationClient.active := true;
                          ReplicationClient.finished := false |}
             /\ ReplicationClient.replica_state_ c2 <> ReplicationClient.REPLICATING
             /\ ReplicationClient.replica_stream_ c2 = None
             /\ ReplicationClient.mode_ c2 = ReplicationClient.SYNC
             /\ ReplicationClient.timeout_ c2 = Some t).
  { unfold ReplicationClient.FinalizeTransactionReplicationInternal. simpl.
    rewrite Hs, Hstate. simpl.
    destruct (ReplicationClient.in_finalize input) as [response |];
      [destruct (ReplicationClient.success response) |];
      simpl; eexists; (split; [reflexivity |]); simpl;
      rewrite ?Hmode, ?Htimeout; repeat split; discriminate. }
  destruct Hrun as [c2 [Hrun [Hd2 [Hst2 [Hs2 [Hm2 Ht2]]]]]].
  exists (ReplicationClient.set_timeout_dispatcher
            (Some {| ReplicationClient.active := false;
                     ReplicationClient.finished := false |}) c2).
  split; [reflexivity |]. split; [reflexivity |]. split; [reflexivity |].
  split; [rewrite Hrun, Hd2; reflexivity |].
  split; [reflexivity |]. split; [exact Hst2 |]. split; [exact Hs2 |].
  split; [| split; assumption].
  unfold ReplicationClient.FinalizeTransactionReplication_woken. simpl.
  destruct (ReplicationClient.replica_state_ c2); try reflexivity. now elim Hst2.
Qed.

(** The SYNC replica with a timeout of the scenarios, the replica
    confirming. *)
Lemma sync_timeout_kept_when_finalize_answers_witness :
  exists c1 c2,
    ReplicationClient.FinalizeTransactionReplication RpcFailedException
      Scenario.replicating_with_timeout = Some c1
    /\ ReplicationClient.FinalizeTransactionReplication_woken c2 = c2
    /\ ReplicationClient.mode_ c2 = ReplicationClient.SYNC.
Proof.
  destruct (sync_timeout_kept_when_finalize_answers 0 Scenario.as_listed
              RpcFailedException
              {| ReplicationClient.in_storage := Scenario.main_storage;
                 ReplicationClient.in_heartbeat := RpcFailedException;
                 ReplicationClient.in_finalize :=
                   RpcOk {| ReplicationClient.success := true;
                            ReplicationClient.current_commit_timestamp := 42 |};
                 ReplicationClient.in_response_commit := None;
                 ReplicationClient.in_passes := [] |}
              Scenario.replicating_with_timeout
              (PropertyValue.double_of_dyadic 3602879701896397 (-54))
              eq_refl eq_refl eq_refl)
    as [c1 [c2 [H1 [_ [_ [_ [_ [_ [_ [H2 [H3 _]]]]]]]]]]]; try discriminate.
  exists c1, c2. auto.
Defined.

(** ** The replication client: the checks of the main thread *)

Lemma reconnects_hold_no_reset (k : nat) :
  ~ In ReplicationClient.TaskResetTimeoutDispatcher
       (repeat ReplicationClient.TaskReconnect k).
Proof. intros H. apply repeat_spec in H. discriminate H. Qed.

Ltac invariant_cases :=
  repeat match goal with
         | H : Some _ = Some _ |- _ => inversion H; subst; clear H
         | H : None = Some _ |- _ => discriminate H
         | H : context [match ?x with _ => _ end] |- _ => destruct x eqn:?
         | H : context [if ?b then _ else _] |- _ => destruct b eqn:?
         | |- context [match ?x with _ => _ end] => destruct x eqn:?
         | |- context [if ?b then _ else _] => destruct b eqn:?
         end.

Ltac invariant_holds Hs Ht :=
  unfold client_invariant, stream_open_while_replicating, timeout_has_dispatcher;
  simpl; split;
  [ intros E; first [discriminate E | congruence | apply Hs; congruence]
  | intros E; first [now elim E |
      destruct (Ht E) as [? Hpool]; split; [first [assumption | discriminate] |];
      rewrite ?in_app_iff; simpl; intros Hin;
      repeat match goal with
             | H : _ \/ _ |- _ => destruct H
             end; first [contradiction | discriminate | now apply Hpool] ] ].

Lemma StartTransactionReplication_invariant storage_ seq stream c c' :
  client_invariant c ->
  ReplicationClient.StartTransactionReplication storage_ seq stream c = Some c' ->
  client_invariant c'.
Proof.
  intros [Hs Ht] H. unfold ReplicationClient.StartTransactionReplication in H.
  cbv zeta in H. invariant_cases; invariant_holds Hs Ht.
Qed.

Lemma IfStreamingTransaction_invariant callback c :
  client_invariant c ->
  client_invariant (ReplicationClient.IfStreamingTransaction callback c).
Proof.
  intros [Hs Ht]. unfold ReplicationClient.IfStreamingTransaction.
  invariant_cases; try (split; assumption); invariant_holds Hs Ht.
Qed.

Lemma FinalizeTransactionReplicationInternal_invariant finalize c c' :
  timeout_has_dispatcher c ->
  ReplicationClient.FinalizeTransactionReplicationInternal finalize c = Some c' ->
  client_invariant c'
  /\ ReplicationClient.timeout_ c' = ReplicationClient.timeout_ c
  /\ ReplicationClient.timeout_dispatcher_ c' = ReplicationClient.timeout_dispatcher_ c.
Proof.
  intros Ht H. unfold ReplicationClient.FinalizeTransactionReplicationInternal in H.
  cbv zeta in H.
  assert (Hs : stream_open_while_replicating
                 (ReplicationClient.set_replica_stream None
                    (ReplicationClient.store_replica_state ReplicationClient.INVALID c)))
    by (intros E; discriminate E).
  invariant_cases; (split; [invariant_holds Hs Ht | split; reflexivity]).
Qed.

Lemma FinalizeTransactionReplication_invariant finalize c c' :
  client_invariant c ->
  ReplicationClient.FinalizeTransactionReplication finalize c = Some c' ->
  client_invariant c'.
Proof.
  intros [Hs Ht] H. unfold ReplicationClient.FinalizeTransactionReplication in H.
  destruct (negb _); [inversion H; subst; split; assumption |].
  destruct (ReplicationClient.mode_ c).
  - destruct (ReplicationClient.timeout_ c) eqn:Htimeout.
    + destruct (ReplicationClient.timeout_dispatcher_ c); [| discriminate H].
      inversion H; subst. unfold client_invariant, stream_open_while_replicating,
        timeout_has_dispatcher. simpl. split; [exact Hs |].
      intros _. split; [discriminate |].
      rewrite in_app_iff. simpl. intros [Hin | [E | []]]; [| discriminate E].
      apply (Ht ltac:(rewrite Htimeout; discriminate)). exact Hin.
    + now apply (FinalizeTransactionReplicationInternal_invariant finalize c c').
  - inversion H; subst. invariant_holds Hs Ht.
Qed.

Lemma FinalizeTransactionReplication_woken_invariant c :
  client_invariant c ->
  client_invariant (ReplicationClient.FinalizeTransactionReplication_woken c).
Proof.
  intros [Hs Ht]. unfold ReplicationClient.FinalizeTransactionReplication_woken.
  destruct (ReplicationClient.ReplicaState_eqb _ _); [| split; assumption].
  invariant_holds Hs Ht.
Qed.

Lemma TryInitializeClient_invariant k storage_ heartbeat c :
  client_invariant c ->
  client_invariant (ReplicationClient.TryInitializeClient k storage_ heartbeat c).
Proof.
  intros [Hs Ht].
  unfold ReplicationClient.TryInitializeClient, ReplicationClient.InitializeClient.
  destruct heartbeat as [response |]; [| invariant_holds Hs Ht].
  destruct (ReplicationClient.branching_point k storage_ response);
    [split; assumption |].
  destruct (_ =? _); invariant_holds Hs Ht.
Qed.

Lemma recovery_frame_invariant c c' :
  recovery_frame c c' ->
  (ReplicationClient.replica_state_ c' = ReplicationClient.REPLICATING ->
   ReplicationClient.replica_state_ c = ReplicationClient.REPLICATING) ->
  client_invariant c -> client_invariant c'.
Proof.
  intros [_ [_ [Htimeout [Hd [Hstream [k Hpool]]]]]] Hstate [Hs Ht].
  unfold client_invariant, stream_open_while_replicating, timeout_has_dispatcher.
  rewrite Htimeout, Hd, Hstream, Hpool. split.
  - intros E. apply Hs. now apply Hstate.
  - intros E. destruct (Ht E) as [H1 H2]. split; [exact H1 |].
    rewrite in_app_iff. intros [Hin | Hin]; [now apply H2 |].
    now apply reconnects_hold_no_reset in Hin.
Qed.

Lemma run_task_invariant k sort_snapshots input t before after c c' :
  client_invariant c ->
  ReplicationClient.thread_pool_ c = before ++ t :: after ->
  ReplicationClient.run_task k sort_snapshots input t
    (ReplicationClient.set_thread_pool (before ++ after) c) = Some c' ->
  client_invariant c'.
Proof.
  intros [Hs Ht] Hpool H.
  assert (Hin : forall x, In x (before ++ after) -> In x (ReplicationClient.thread_pool_ c)).
  { intros x Hx. rewrite Hpool. apply in_app_iff. apply in_app_iff in Hx.
    destruct Hx; [now left | right; now right]. }
  assert (Hinv : client_invariant (ReplicationClient.set_thread_pool (before ++ after) c)).
  { split; [exact Hs |]. intros E. destruct (Ht E) as [H1 H2]. split; [exact H1 |].
    simpl. intros Hx. apply H2. now apply Hin. }
  destruct t; cbn [ReplicationClient.run_task] in H.
  - inversion H; subst. now apply TryInitializeClient_invariant.
  - destruct (ReplicationClient.RecoverReplica _ _ _ _) as [[c1 [rc1 |]] |] eqn:Hr;
      [| | discriminate H]; inversion H; subst; clear H;
      apply RecoverReplica_frame in Hr; destruct Hr as [Hf Hst].
    + assert (H1 : client_invariant c1).
      { apply (recovery_frame_invariant _ _ Hf); [| exact Hinv].
        intros E. destruct Hst as [Hst | Hst]; congruence. }
      destruct H1 as [Hs1 Ht1]. split; [exact Hs1 |].
      intros E. destruct (Ht1 E) as [H1 H2]. split; [exact H1 |].
      simpl. intros [Hx | Hx]; [discriminate Hx | now apply H2].
    + apply (recovery_frame_invariant _ _ Hf); [| exact Hinv].
      intros E. congruence.
  - destruct (ReplicationClient.in_response_commit input) as [rc |];
      [| discriminate H].
    destruct (ReplicationClient.RecoverReplica _ _ _ _) as [[c1 [rc1 |]] |] eqn:Hr;
      [| | discriminate H]; inversion H; subst; clear H;
      apply RecoverReplica_frame in Hr; destruct Hr as [Hf Hst].
    + assert (H1 : client_invariant c1).
      { apply (recovery_frame_invariant _ _ Hf); [| exact Hinv].
        intros E. destruct Hst as [Hst | Hst]; congruence. }
      destruct H1 as [Hs1 Ht1]. split; [exact Hs1 |].
      intros E. destruct (Ht1 E) as [H1 H2]. split; [exact H1 |].
      simpl. intros [Hx | Hx]; [discriminate Hx | now apply H2].
    + apply (recovery_frame_invariant _ _ Hf); [| exact Hinv].
      intros E. congruence.
  - apply (FinalizeTransactionReplicationInternal_invariant _ _ _ (proj2 Hinv)) in H.
    now destruct H.
  - destruct (ReplicationClient.FinalizeTransactionReplicationInternal _ _)
      as [c1 |] eqn:Hf; [| discriminate H].
    apply (FinalizeTransactionReplicationInternal_invariant _ _ _ (proj2 Hinv)) in Hf.
    destruct Hf as [[Hs1 Ht1] _].
    destruct (ReplicationClient.timeout_dispatcher_ c1); [| discriminate H].
    inversion H; subst. split; [exact Hs1 |].
    intros E. destruct (Ht1 E) as [_ H2]. split; [discriminate | exact H2].
  - inversion H; subst. split; [exact Hs |].
    intros E. exfalso. destruct (Ht E) as [_ H2]. apply H2. rewrite Hpool.
    apply in_app_iff. right. now left.
Qed.

Lemma step_keeps_invariant k sort_snapshots c c' :
  ReplicationClient.step k sort_snapshots c c' ->
  client_invariant c -> client_invariant c'.
Proof.
  intros Hstep Hinv. destruct Hstep as
      [st seq stream c c' H | callback c | finalize c c' H | c
       | input t before after c c' Hpool H | d c Hd].
  - eapply StartTransactionReplication_invariant; eauto.
  - now apply IfStreamingTransaction_invariant.
  - eapply FinalizeTransactionReplication_invariant; eauto.
  - now apply FinalizeTransactionReplication_woken_invariant.
  - eapply run_task_invariant; eauto.
  - destruct Hinv as [Hs Ht]. split; [exact Hs |].
    intros E. destruct (Ht E) as [_ H2]. split; [discriminate | exact H2].
Qed.

(** X18. The main thread never fails a [CHECK] of
    [FinalizeTransactionReplication] and never reads a missing stream.  Take a
    client on which the stream is open whenever the state is [REPLICATING] and
    on which, whenever the timeout is set, the dispatcher exists and no reset
    of it is queued.  Then the same holds in every later state of its life,
    whatever the calls and however the tasks are scheduled, and in each of them
    [FinalizeTransactionReplication] runs to its end (or to the point where it
    waits for the dispatcher). *)
Theorem FinalizeTransactionReplication_checks_hold
  (kTimestampInitialId : Z)
  (sort_snapshots : list SnapshotDurabilityInfo -> list SnapshotDurabilityInfo)
  (c c' : ReplicationClient.Client) :
  client_invariant c ->
  ReplicationClient.reachable kTimestampInitialId sort_snapshots c c' ->
  client_invariant c'
  /\ forall finalize,
       exists after,
         ReplicationClient.FinalizeTransactionReplication finalize c' = Some after.
Proof.
  intros Hinv Hreach.
  assert (Hinv' : client_invariant c').
  { induction Hreach as [| c1 c2 Hr IH Hstep]; [exact Hinv |].
    eapply step_keeps_invariant; eauto. }
  split; [exact Hinv' |]. destruct Hinv' as [Hs Ht]. intros finalize.
  unfold ReplicationClient.FinalizeTransactionReplication.
  destruct (ReplicationClient.replica_state_ c') eqn:Hstate; simpl; eauto.
  destruct (ReplicationClient.mode_ c'); [| eauto].
  destruct (ReplicationClient.timeout_ c') eqn:Htimeout.
  - unfold timeout_has_dispatcher in Ht. rewrite Htimeout in Ht.
    assert (Hset : Some d <> None) by discriminate.
    destruct (Ht Hset) as [Hd _].
    destruct (ReplicationClient.timeout_dispatcher_ c'); [eauto | now elim Hd].
  - unfold ReplicationClient.FinalizeTransactionReplicationInternal.
    pose proof (Hs Hstate) as Hopen.
    destruct (ReplicationClient.replica_stream_ c'); [| now elim Hopen].
    destruct finalize as [response |]; [| eauto]. cbv zeta.
    destruct (negb _ || _); eauto.
Qed.

(** The SYNC replica with a timeout of the scenarios, after a call of
    [IfStreamingTransaction] that failed. *)
Lemma FinalizeTransactionReplication_checks_hold_witness :
  exists after,
    ReplicationClient.FinalizeTransactionReplication RpcFailedException
      (ReplicationClient.IfStreamingTransaction RpcFailedException
         Scenario.replicating_with_timeout) = Some after.
Proof.
  apply (FinalizeTransactionReplication_checks_hold 0 Scenario.as_listed
           Scenario.replicating_with_timeout).
  - split.
    + intros _. discriminate.
    + intros _. split; [discriminate | intros []].
  - eapply ReplicationClient.reachable_step.
    + apply ReplicationClient.reachable_refl.
    + apply ReplicationClient.step_IfStreamingTransaction.
Defined.

(** ** The replication client: where the timeout comes from *)

Lemma run_task_keeps_no_timeout k sort_snapshots input t c c' :
  ReplicationClient.run_task k sort_snapshots input t c = Some c' ->
  ReplicationClient.timeout_ c = None -> ReplicationClient.timeout_ c' = None.
Proof.
  destruct t; cbn [ReplicationClient.run_task]; intros H Hnone.
  - inversion H; subst.
    unfold ReplicationClient.TryInitializeClient, ReplicationClient.InitializeClient.
    destruct (ReplicationClient.in_heartbeat input) as [response |]; [| exact Hnone].
    destruct (ReplicationClient.branching_point _ _ _); [exact Hnone |].
    destruct (_ =? _); exact Hnone.
  - destruct (ReplicationClient.RecoverReplica _ _ _ _) as [[c1 [rc1 |]] |] eqn:Hr;
      [| | discriminate H]; inversion H; subst; clear H;
      apply RecoverReplica_frame in Hr; destruct Hr as [[_ [_ [E _]]] _];
      simpl; congruence.
  - destruct (ReplicationClient.in_response_commit input) as [rc |];
      [| discriminate H].
    destruct (ReplicationClient.RecoverReplica _ _ _ _) as [[c1 [rc1 |]] |] eqn:Hr;
      [| | discriminate H]; inversion H; subst; clear H;
      apply RecoverReplica_frame in Hr; destruct Hr as [[_ [_ [E _]]] _];
      simpl; congruence.
  - unfold ReplicationClient.FinalizeTransactionReplicationInternal in H.
    cbv zeta in H. invariant_cases; exact Hnone.
  - unfold ReplicationClient.FinalizeTransactionReplicationInternal in H.
    cbv zeta in H. invariant_cases; exact Hnone.
  - inversion H; subst. exact Hnone.
Qed.

(** No move of the client sets the timeout. *)
Lemma step_keeps_no_timeout k sort_snapshots c c' :
  ReplicationClient.step k sort_snapshots c c' ->
  ReplicationClient.timeout_ c = None -> ReplicationClient.timeout_ c' = None.
Proof.
  intros Hstep Hnone. destruct Hstep as
      [st seq stream c c' H | callback c | finalize c c' H | c
       | input t before after c c' Hpool H | d c Hd].
  - unfold ReplicationClient.StartTransactionReplication in H. cbv zeta in H.
    invariant_cases; exact Hnone.
  - unfold ReplicationClient.IfStreamingTransaction. invariant_cases; exact Hnone.
  - unfold ReplicationClient.FinalizeTransactionReplication,
      ReplicationClient.FinalizeTransactionReplicationInternal in H.
    cbv zeta in H. rewrite Hnone in H. invariant_cases; exact Hnone.
  - unfold ReplicationClient.FinalizeTransactionReplication_woken.
    destruct (ReplicationClient.ReplicaState_eqb _ _); [reflexivity | exact Hnone].
  - exact (run_task_keeps_no_timeout _ _ _ _ _ _ H Hnone).
  - exact Hnone.
Qed.

(** X19. The timeout of the configuration is taken at construction or never.  A
    client constructed while its replica cannot be reached (the heartbeat fails
    with [RpcFailedException]) starts [INVALID], without a timeout and without
    a dispatcher, whatever the configuration holds, and no later move of the
    client sets the timeout: once reconnected, such a replica is never
    finalized under a timeout. *)
Theorem unreachable_at_construction_never_gets_timeout
  (kTimestampInitialId : Z)
  (sort_snapshots : list SnapshotDurabilityInfo -> list SnapshotDurabilityInfo)
  (default_replica_state : ReplicationClient.ReplicaState)
  (default_dispatcher : ReplicationClient.TimeoutDispatcher)
  (name : string) (storage_ : ReplicationClient.Storage)
  (mode : ReplicationClient.ReplicationMode)
  (config_timeout : option PropertyValue.double)
  (c' : ReplicationClient.Client) :
  let c := new_ReplicationClient kTimestampInitialId default_replica_state
             default_dispatcher name storage_ mode config_timeout RpcFailedException in
  ReplicationClient.reachable kTimestampInitialId sort_snapshots c c' ->
  ReplicationClient.replica_state_ c = ReplicationClient.INVALID
  /\ ReplicationClient.timeout_dispatcher_ c = None
  /\ ReplicationClient.thread_pool_ c = []
  /\ ReplicationClient.timeout_ c' = None.
Proof.
  cbv zeta. intros Hreach.
  assert (Hnew : new_ReplicationClient kTimestampInitialId default_replica_state
                   default_dispatcher name storage_ mode config_timeout RpcFailedException
                 = ReplicationClient.store_replica_state ReplicationClient.INVALID
                     (constructed_members default_replica_state name mode)).
  { unfold new_ReplicationClient, emplace_timeout. simpl.
    destruct config_timeout; reflexivity. }
  rewrite Hnew in *. repeat (split; [reflexivity |]).
  induction Hreach as [| c1 c2 Hr IH Hstep]; [reflexivity |].
  exact (step_keeps_no_timeout _ _ _ _ Hstep IH).
Qed.

(** A SYNC replica configured with a timeout of 0.2 s that cannot be reached
    at construction, after its reconnect. *)
Lemma unreachable_at_construction_never_gets_timeout_witness :
  ReplicationClient.timeout_
    (ReplicationClient.TryInitializeClient 0 Scenario.main_storage
       (RpcOk {| ReplicationClient.hb_epoch_id := "epoch-b";
                 ReplicationClient.hb_current_commit_timestamp := 42 |})
       (new_ReplicationClient 0 ReplicationClient.INVALID
          {| ReplicationClient.active := false; ReplicationClient.finished := true |}
          "replica1" Scenario.main_storage ReplicationClient.SYNC
          (Some (PropertyValue.double_of_dyadic 3602879701896397 (-54)))
          RpcFailedException))
  = None.
Proof.
  apply (unreachable_at_construction_never_gets_timeout 0 Scenario.as_listed
           ReplicationClient.INVALID
           {| ReplicationClient.active := false; ReplicationClient.finished := true |}
           "replica1" Scenario.main_storage ReplicationClient.SYNC
           (Some (PropertyValue.double_of_dyadic 3602879701896397 (-54)))).
  eapply ReplicationClient.reachable_step.
  - eapply ReplicationClient.reachable_step.
    + apply ReplicationClient.reachable_refl.
    + apply (ReplicationClient.step_StartTransactionReplication 0 Scenario.as_listed
               Scenario.main_storage 7 (RpcOk tt)).
      reflexivity.
  - apply (ReplicationClient.step_task 0 Scenario.as_listed
             {| ReplicationClient.in_storage := Scenario.main_storage;
                ReplicationClient.in_heartbeat :=
                  RpcOk {| ReplicationClient.hb_epoch_id := "epoch-b";
                           ReplicationClient.hb_current_commit_timestamp := 42 |};
                ReplicationClient.in_finalize := RpcFailedException;
                ReplicationClient.in_response_commit := None;
                ReplicationClient.in_passes := [] |}
             ReplicationClient.TaskReconnect [] []); reflexivity.
Defined.

(** ** The replication client: a callback that fails *)

(** X20. A failed callback leaves the stream open.  When the callback of
    [IfStreamingTransaction] throws [RpcFailedException], the state becomes
    [INVALID] and the reconnect is queued, with [replica_stream_] as it was;
    [FinalizeTransactionReplication] then returns at once, so that nothing
    closes the stream; and when the reconnect finds the replica at the last
    commit of the main instance, the state is [READY] with the old stream in
    place, on which the next [StartTransactionReplication] fails its [CHECK].
    *)
Theorem failed_callback_leaves_stream_open
  (kTimestampInitialId : Z)
  (sort_snapshots : list SnapshotDurabilityInfo -> list SnapshotDurabilityInfo)
  (input : ReplicationClient.TaskInput) (response : ReplicationClient.HeartbeatRes)
  (finalize : Rpc ReplicationClient.AppendDeltasRes)
  (storage_ : ReplicationClient.Storage) (current_wal_seq_num : Z) (stream : Rpc unit)
  (c : ReplicationClient.Client) :
  ReplicationClient.replica_state_ c = ReplicationClient.REPLICATING ->
  ReplicationClient.replica_stream_ c <> None ->
  ReplicationClient.in_heartbeat input = RpcOk response ->
  ReplicationClient.hb_epoch_id response
  = ReplicationClient.epoch_id_ (ReplicationClient.in_storage input) ->
  ReplicationClient.hb_current_commit_timestamp response
  = ReplicationClient.last_commit_timestamp_ (ReplicationClient.in_storage input) ->
  let c1 := ReplicationClient.IfStreamingTransaction RpcFailedException c in
  ReplicationClient.replica_state_ c1 = ReplicationClient.INVALID
  /\ ReplicationClient.replica_stream_ c1 = ReplicationClient.replica_stream_ c
  /\ ReplicationClient.thread_pool_ c1
     = ReplicationClient.thread_pool_ c ++ [ReplicationClient.TaskReconnect]
  /\ ReplicationClient.FinalizeTransactionReplication finalize c1 = Some c1
  /\ exists c2,
       ReplicationClient.run_task kTimestampInitialId sort_snapshots input
         ReplicationClient.TaskReconnect
         (ReplicationClient.set_thread_pool (ReplicationClient.thread_pool_ c) c1)
       = Some c2
       /\ ReplicationClient.replica_state_ c2 = ReplicationClient.READY
       /\ ReplicationClient.replica_stream_ c2 = ReplicationClient.replica_stream_ c
       /\ ReplicationClient.StartTransactionReplication storage_ current_wal_seq_num
            stream c2 = None.
Proof.
  intros Hstate Hstream Hheartbeat Hepoch Hcommit. cbv zeta.
  unfold ReplicationClient.IfStreamingTransaction. rewrite Hstate. simpl.
  split; [reflexivity |]. split; [reflexivity |]. split; [reflexivity |].
  split; [reflexivity |].
  unfold ReplicationClient.TryInitializeClient, ReplicationClient.InitializeClient,
    ReplicationClient.branching_point.
  rewrite Hheartbeat, Hepoch, String.eqb_refl, Hcommit, Z.eqb_refl. simpl.
  eexists. split; [reflexivity |]. split; [reflexivity |]. split; [reflexivity |].
  unfold ReplicationClient.StartTransactionReplication. simpl.
  destruct (ReplicationClient.replica_stream_ c); [reflexivity | now elim Hstream].
Qed.

(** The replica of the scenarios in the middle of a transaction, up to date
    with the main instance when it is reconnected. *)
Lemma failed_callback_leaves_stream_open_witness :
  exists c2,
    ReplicationClient.replica_state_ c2 = ReplicationClient.READY
    /\ ReplicationClient.StartTransactionReplication Scenario.main_storage 8 (RpcOk tt) c2
       = None.
Proof.
  destruct (failed_callback_leaves_stream_open 0 Scenario.as_listed
              {| ReplicationClient.in_storage := Scenario.main_storage;
                 ReplicationClient.in_heartbeat :=
                   RpcOk {| ReplicationClient.hb_epoch_id := "epoch-b";
                            ReplicationClient.hb_current_commit_timestamp := 42 |};
                 ReplicationClient.in_finalize := RpcFailedException;
                 ReplicationClient.in_response_commit := None;
                 ReplicationClient.in_passes := [] |}
              {| ReplicationClient.hb_epoch_id := "epoch-b";
                 ReplicationClient.hb_current_commit_timestamp := 42 |}
              RpcFailedException Scenario.main_storage 8 (RpcOk tt)
              Scenario.replicating_with_timeout eq_refl)
    as [_ [_ [_ [_ [c2 [_ [H1 [_ H2]]]]]]]]; try reflexivity; try discriminate.
  exists c2. split; assumption.
Defined.
